(** * Repository: tiered loading, sync modes and pin policy

    A shallow embedding of [packages/core/src/state-management/repository.ts].

    The [Repository] class owns no data of its own: every piece of state it
    touches lives in a collaborator (the [StateCache], the [PinStore], the
    [StateManager], [RunningState] objects, ...), none of which is defined in
    that file.  The embedding therefore represents each method as a program
    over the calls it makes to its collaborators ([Prog]); an environment
    ([Env]) answers the calls and keeps the state of the collaborators.  What
    the Repository does is read off the trace of calls, with their answers,
    that a run produces.

    - A call that the source awaits, and a call that throws by contract,
      may fail: its answer is a [Result].  A failure propagates as
      [Rejected], unchanged ([repository.ts] has no [try]/[catch]).
      Property reads, constructors, logging and the synchronous bookkeeping
      of the state manager always answer.
    - The errors that the Repository throws itself are told apart from the
      failures of collaborators, which it never inspects.
    - Running states are mutable objects shared by the cache and the
      callers: programs hold references, and read fields through calls.
    - [Promise.all] interleaves two tasks at their await points; the order
      in which the event loop resumes them is a parameter of [load]. *)

From Stdlib Require Import ZArith PrimFloat.
From stdpp Require Import base option list strings gmap.

Open Scope string_scope.
Open Scope Z_scope.

(** ** Data *)

Abbreviation CID := string (only parsing).

(** A [StreamID] carries its handler type name, the CID of its genesis commit
    and its printed form (the value of [streamId.toString()], under which the
    in-memory cache files the stream). *)
Record StreamID := mkStreamID {
  typeName : string;
  cid : CID;
  toString : string
}.

Record CommitID := mkCommitID {
  baseID : StreamID;
  commit : CID
}.

Inductive CommitType := GENESIS | SIGNED | ANCHOR.

Record LogEntry := mkLogEntry {
  entry_cid : CID;
  entry_type : CommitType;
  entry_timestamp : option Z
}.

Record StreamMetadata := mkMetadata {
  controllers : list string;
  model : option StreamID
}.

Inductive AnchorStatus := NOT_REQUESTED | PENDING | PROCESSING | ANCHORED | FAILED.

Record StreamState := mkStreamState {
  type : Z;
  content : string;
  metadata : option StreamMetadata;
  anchorStatus : AnchorStatus;
  log : list LogEntry
}.

Record SnapshotState := mkSnapshot { snapshot_state : StreamState }.

Record CommitData := mkCommitData {
  commit_cid : CID;
  commit_payload : string;
  disableTimecheck : option bool
}.

Record AnchorRequest := mkAnchorRequest {
  request_cid : CID;
  request_timestamp : Z
}.

(** Reference to a [RunningState] object.  Running states are mutable objects
    that are shared between the cache and the callers, so programs pass
    references around and read the fields through the environment. *)
Abbreviation Ref := nat (only parsing).

Abbreviation Handler := string (only parsing).

Inductive SyncOptions := PREFER_CACHE | SYNC_ALWAYS | NEVER_SYNC | SYNC_ON_ERROR.

Inductive OperationType := CREATE | UPDATE | LOAD.

(** A JavaScript number is an IEEE 754 double: the primitive type [float]
    of binary64 numbers, with its multiplication.  [nan] is [NaN], the value
    of [undefined * 1000]. *)
Abbreviation JsNumber := float (only parsing).

(** ** Option objects

    A property of a JavaScript object is either missing, or there with a value
    that may itself be [undefined].  Reading the property gives [undefined] in
    both cases, but object spread copies a property that is there even when
    its value is [undefined]. *)
Inductive field (T : Type) : Type :=
| absent
| present (v : option T).
Arguments absent {T}.
Arguments present {T} v.

Definition get {T} (f : field T) : option T :=
  match f with
  | absent => None
  | present v => v
  end.

(** [{...a, ...b}] on one property. *)
Definition spread_field {T} (a b : field T) : field T :=
  match b with
  | absent => a
  | present v => present v
  end.

(** The union of [LoadOpts], [InternalOpts], [CreateOpts], [UpdateOpts],
    [PinningOpts] and [PublishOpts], as far as the Repository reads them. *)
Record Opts := mkOpts {
  sync : field SyncOptions;
  syncTimeoutSeconds : field JsNumber;
  skipCacaoExpirationChecks : field bool;
  pin : field bool;
  publish : field bool;
  anchor : field bool;
  atTime : field Z
}.

Definition empty_opts : Opts :=
  mkOpts absent absent absent absent absent absent absent.

Definition spread (a b : Opts) : Opts :=
  {| sync := spread_field (sync a) (sync b);
     syncTimeoutSeconds := spread_field (syncTimeoutSeconds a) (syncTimeoutSeconds b);
     skipCacaoExpirationChecks :=
       spread_field (skipCacaoExpirationChecks a) (skipCacaoExpirationChecks b);
     pin := spread_field (pin a) (pin b);
     publish := spread_field (publish a) (publish b);
     anchor := spread_field (anchor a) (anchor b);
     atTime := spread_field (atTime a) (atTime b) |}.

(** JavaScript truthiness of an optional boolean. *)
Definition truthy (v : option bool) : bool :=
  match v with
  | Some true => true
  | _ => false
  end.

(** [v * 1000] for an optional number [v], in the arithmetic of doubles. *)
Definition times1000 (v : option JsNumber) : JsNumber :=
  match v with
  | Some x => (x * 1000)%float
  | None => nan
  end.

(** ** Errors *)

(** What a collaborator reports when its promise rejects or its call throws;
    the Repository never inspects it. *)
Abbreviation ExtError := string (only parsing).

Inductive Error :=
| NoGenesisCommit (genesisCid : CID)
| InvalidSyncOption (v : option SyncOptions)
| CannotUnpinIndexed (id : string) (m : option StreamID)
| CapabilityExpired
| TypeError (msg : string)
| Rejected (e : ExtError).

(** [NoGenesisCommit], [InvalidSyncOption] and [CannotUnpinIndexed] are the
    errors that the Repository constructs; [CapabilityExpired] is the error
    of [StreamUtils.checkForCacaoExpiration]; [TypeError] is a property read
    on [undefined]; [Rejected] is any failure of a collaborator. *)

Definition Result (X : Type) : Type := ExtError + X.

(** ** Calls to collaborators *)

Inductive Call :=
(* StateCache (this.inmemory) *)
| CacheGet (key : string)
| CacheSet (key : string) (s : Ref)
(* Metrics, logger, console *)
| MetricsCount (name : string) (n : Z)
| LogVerbose (msg : string)
| ConsoleWarn (msg : string)
(* ExecutionQueue (this.loadingQ) *)
| LoadingQRun (id : StreamID)
(* PinStore and its state store, AnchorRequestStore *)
| StateStoreLoad (id : StreamID)
| AnchorRequestStoreLoad (id : StreamID)
| PinStoreAdd (s : Ref) (force : option bool)
| PinStoreRm (s : Ref)
(* RunningState *)
| NewRunningState (st : StreamState) (pinned : bool)
| RsId (s : Ref)
| RsState (s : Ref)
| RsTip (s : Ref)
| RsIsPinned (s : Ref)
(* HandlersMap (the lookup throws when no handler is registered), Dispatcher
   (through Utils.getCommitData), stream handler *)
| HandlersGet (name : string)
| GetCommitData (c : CID) (id : StreamID)
| HandlerApplyCommit (h : Handler) (cd : CommitData)
(* StateManager *)
| AnchorServicePresent
| ConfirmAnchorResponse (s : Ref) (c : CID)
| WasPinnedStreamSynced (id : StreamID)
| MarkPinnedAndSynced (id : StreamID)
| MarkUnpinned (id : StreamID)
| PublishTip (s : Ref)
| Sync (s : Ref) (timeoutMs : JsNumber) (hintTip : option CID)
| AtCommit (base : Ref) (c : CommitID)
| SmApplyCommit (id : StreamID) (c : string) (opts : Opts)
| SmApplyWriteOpts (s : Ref) (opts : Opts)
(* StreamUtils, LocalIndexApi *)
| CheckForCacaoExpiration (st : StreamState)
| StreamIdFromState (st : StreamState)
| ShouldIndexStream (m : StreamID).

(** The type of the answer to each call.  Calls that the source awaits, or
    that throw by contract, answer with a [Result]; property reads,
    constructors, logging and the synchronous bookkeeping of the state manager
    answer with a plain value.  [CheckForCacaoExpiration] answers [true] when
    the check passes. *)
Definition resp (c : Call) : Type :=
  match c with
  | CacheGet _ => option Ref
  | CacheSet _ _ => unit
  | MetricsCount _ _ => unit
  | LogVerbose _ => unit
  | ConsoleWarn _ => unit
  | LoadingQRun _ => Result unit
  | StateStoreLoad _ => Result (option StreamState)
  | AnchorRequestStoreLoad _ => Result (option AnchorRequest)
  | PinStoreAdd _ _ => Result unit
  | PinStoreRm _ => Result unit
  | NewRunningState _ _ => Ref
  | RsId _ => StreamID
  | RsState _ => StreamState
  | RsTip _ => CID
  | RsIsPinned _ => bool
  | HandlersGet _ => Result Handler
  | GetCommitData _ _ => Result (option CommitData)
  | HandlerApplyCommit _ _ => Result StreamState
  | AnchorServicePresent => bool
  | ConfirmAnchorResponse _ _ => unit
  | WasPinnedStreamSynced _ => bool
  | MarkPinnedAndSynced _ => unit
  | MarkUnpinned _ => unit
  | PublishTip _ => unit
  | Sync _ _ _ => Result unit
  | AtCommit _ _ => Result SnapshotState
  | SmApplyCommit _ _ _ => Result Ref
  | SmApplyWriteOpts _ _ => Result unit
  | CheckForCacaoExpiration _ => bool
  | StreamIdFromState _ => StreamID
  | ShouldIndexStream _ => bool
  end.

(** Calls whose answer the source waits for with [await] (or returns as a
    promise): the points where another task may run. *)
Definition awaited (c : Call) : bool :=
  match c with
  | LoadingQRun _ | StateStoreLoad _ | AnchorRequestStoreLoad _
  | PinStoreAdd _ _ | PinStoreRm _ | GetCommitData _ _
  | HandlerApplyCommit _ _ | Sync _ _ _ | AtCommit _ _
  | SmApplyCommit _ _ _ | SmApplyWriteOpts _ _ => true
  | _ => false
  end.

(** ** Programs *)

Inductive Prog (A : Type) : Type :=
| Ret (a : A)
| Throw (e : Error)
| Vis (c : Call) (k : resp c -> Prog A).
Arguments Ret {A} a.
Arguments Throw {A} e.
Arguments Vis {A} c k.

Fixpoint bind {A B} (p : Prog A) (f : A -> Prog B) : Prog B :=
  match p with
  | Ret a => f a
  | Throw e => Throw e
  | Vis c k => Vis c (fun r => bind (k r) f)
  end.

Declare Scope prog_scope.
Delimit Scope prog_scope with prog.
Notation "x <- p ;; q" := (bind p (fun x => q))
  (at level 100, p at next level, right associativity) : prog_scope.
Notation "p ;; q" := (bind p (fun _ => q))
  (at level 100, right associativity) : prog_scope.
Open Scope prog_scope.

Definition call (c : Call) : Prog (resp c) := Vis c Ret.

(** A rejected promise (or a throwing call) propagates: the source has no
    [try]/[catch]. *)
Definition orThrow {X} (p : Prog (Result X)) : Prog X :=
  r <- p ;;
  match r with
  | inl e => Throw (Rejected e)
  | inr x => Ret x
  end.

Definition when (b : bool) (p : Prog unit) : Prog unit :=
  if b then p else Ret tt.

(** ** Environments and runs *)

Record Env := mkEnv {
  world : Type;
  handle : forall c : Call, world -> resp c * world
}.

Definition Event : Type := { c : Call & resp c }.

Definition ev (c : Call) (r : resp c) : Event := existT c r.

Inductive Outcome (A : Type) : Type :=
| Ok (a : A)
| Err (e : Error).
Arguments Ok {A} a.
Arguments Err {A} e.

(** The answer of the environment to a call, and the world after it. *)
Definition answer (E : Env) (c : Call) (w : world E) : resp c := (handle E c w).1.
Definition after (E : Env) (c : Call) (w : world E) : world E := (handle E c w).2.

Record Run (E : Env) (A : Type) := mkRun {
  outcome : Outcome A;
  final : world E;
  trace : list Event
}.
Arguments mkRun {E A} outcome final trace.
Arguments outcome {E A} r.
Arguments final {E A} r.
Arguments trace {E A} r.

Fixpoint run (E : Env) {A} (p : Prog A) (w : world E) : Run E A :=
  match p with
  | Ret a => mkRun (Ok a) w []
  | Throw e => mkRun (Err e) w []
  | Vis c k =>
      let r := run E (k (answer E c w)) (after E c w) in
      mkRun (outcome r) (final r) (ev c (answer E c w) :: trace r)
  end.

(** The calls of a trace, without their answers. *)
Definition calls (t : list Event) : list Call := projT1 <$> t.

(** ** The Repository *)

Definition CACHE_EVICTED_MEMORY := "cache_eviction_memory".
Definition CACHE_HIT_MEMORY := "cache_hit_memory".
Definition CACHE_HIT_LOCAL := "cache_hit_local".
Definition CACHE_HIT_REMOTE := "cache_hit_remote".
Definition STREAM_SYNC := "stream_sync".

Definition DEFAULT_LOAD_OPTS : Opts :=
  {| sync := present (Some PREFER_CACHE);
     syncTimeoutSeconds := present (Some 3%float);
     skipCacaoExpirationChecks := absent;
     pin := absent;
     publish := absent;
     anchor := absent;
     atTime := absent |}.

Definition shouldIndex (s : Ref) : Prog bool :=
  st <- call (RsState s) ;;
  match metadata st ≫= model with
  | None => Ret false
  | Some m => call (ShouldIndexStream m)
  end.

Definition add (s : Ref) : Prog unit :=
  id <- call (RsId s) ;;
  call (CacheSet (toString id) s).

Definition fromMemory (streamId : StreamID) : Prog (option Ref) :=
  state <- call (CacheGet (toString streamId)) ;;
  when (bool_decide (is_Some state)) (call (MetricsCount CACHE_HIT_MEMORY 1)) ;;
  Ret state.

Definition fromStreamStateStore (streamId : StreamID) : Prog (option Ref) :=
  streamState <- orThrow (call (StateStoreLoad streamId)) ;;
  match streamState return Prog (option Ref) with
  | Some st =>
      call (MetricsCount CACHE_HIT_LOCAL 1) ;;
      runningState <- (call (NewRunningState st true) : Prog Ref) ;;
      add runningState ;;
      storedRequest <- orThrow (call (AnchorRequestStoreLoad streamId)) ;;
      match storedRequest with
      | Some request =>
          anchorService <- call AnchorServicePresent ;;
          when anchorService
            (call (ConfirmAnchorResponse runningState (request_cid request)))
      | None => Ret tt
      end ;;
      Ret (Some runningState)
  | None => Ret None
  end.

(** [commitData.disableTimecheck = true] *)
Definition timecheckDisabled (cd : CommitData) : CommitData :=
  {| commit_cid := commit_cid cd;
     commit_payload := commit_payload cd;
     disableTimecheck := Some true |}.

Definition fromNetwork (streamId : StreamID) : Prog Ref :=
  handler <- orThrow (call (HandlersGet (typeName streamId))) ;;
  let genesisCid := cid streamId in
  commitData <- orThrow (call (GetCommitData genesisCid streamId)) ;;
  match commitData return Prog Ref with
  | None => Throw (NoGenesisCommit genesisCid)
  | Some cd =>
      call (MetricsCount CACHE_HIT_REMOTE 1) ;;
      let cd := timecheckDisabled cd in
      state <- orThrow (call (HandlerApplyCommit handler cd)) ;;
      s <- (call (NewRunningState state false) : Prog Ref) ;;
      add s ;;
      call (LogVerbose ("Genesis commit for stream " ++ toString streamId
                          ++ " successfully loaded")) ;;
      Ret s
  end.

Definition _loadGenesis (streamId : StreamID) : Prog (Ref * bool) :=
  stream <- fromMemory streamId ;;
  match stream with
  | Some s => Ret (s, true)
  | None =>
      stream <- fromStreamStateStore streamId ;;
      match stream with
      | Some s =>
          synced <- call (WasPinnedStreamSynced streamId) ;;
          Ret (s, synced)
      | None =>
          s <- fromNetwork streamId ;;
          Ret (s, false)
      end
  end.

Definition fromMemoryOrStore (streamId : StreamID) : Prog (option Ref) :=
  fromMemory' <- fromMemory streamId ;;
  match fromMemory' with
  | Some s => Ret (Some s)
  | None => fromStreamStateStore streamId
  end.

(** *** [Promise.all] of two tasks

    A task runs without interruption up to its next awaited call; the call is
    issued and answered, and the task is suspended until the event loop
    resumes it.  [Promise.all([p, q])] starts [p], then [q], each up to its
    first awaited call; from then on the event loop picks which suspended task
    goes on.  The pick is not in the hands of the Repository, so it is a
    parameter: a [schedule] lists the picks ([true] for the first task), and
    when the list is used up the first task goes first.

    Both tasks are started before [Promise.all] is called, so the second
    task runs up to its first awaited call even when the first one has
    thrown by then.  The first failure rejects the combined promise, with
    the error of the task that failed; the other task is not cancelled: it
    runs on to its end, its calls are made, and its result or failure is
    dropped ([orphan]).  A run lists those calls before it ends with the
    error, although the caller sees the rejection before they are made: the
    Repository makes no call between the two. *)
Fixpoint segment {A R} (p : Prog A) (cont : Prog A -> Prog R) : Prog R :=
  match p with
  | Ret a => cont (Ret a)
  | Throw e => cont (Throw e)
  | Vis c k =>
      if awaited c
      then Vis c (fun r => cont (k r))
      else Vis c (fun r => segment (k r) cont)
  end.

(** The task [p] goes on although nobody waits for it, and then [k]. *)
Fixpoint orphan {A R} (p : Prog A) (k : Prog R) : Prog R :=
  match p with
  | Ret _ => k
  | Throw _ => k
  | Vis c f => Vis c (fun r => orphan (f r) k)
  end.

(** [p] runs to its end, and then [q]. *)
Fixpoint both {A B} (p : Prog A) (q : Prog B) : Prog (A * B) :=
  match p with
  | Ret a => b <- q ;; Ret (a, b)
  | Throw e => orphan q (Throw e)
  | Vis c k => Vis c (fun r => both (k r) q)
  end.

Fixpoint interleave {A B} (schedule : list bool) (p : Prog A) (q : Prog B)
  : Prog (A * B) :=
  match p, q with
  | Throw e, _ => orphan q (Throw e)
  | _, Throw e => orphan p (Throw e)
  | _, _ =>
      match schedule with
      | [] => both p q
      | true :: rest =>
          match p with
          | Ret a => both p q
          | _ => segment p (fun p' => interleave rest p' q)
          end
      | false :: rest =>
          match q with
          | Ret b => both p q
          | _ => segment q (fun q' => interleave rest p q')
          end
      end
  end.

Definition Promise_all {A B} (schedule : list bool) (p : Prog A) (q : Prog B)
  : Prog (A * B) :=
  segment p (fun p' => segment q (fun q' => interleave schedule p' q')).

(** [StreamUtils.checkForCacaoExpiration(state)], which throws when a
    capability of the state has expired. *)
Definition checkForCacaoExpiration (st : StreamState) : Prog unit :=
  ok <- call (CheckForCacaoExpiration st) ;;
  if ok : bool then Ret tt else Throw CapabilityExpired.

(** The case [PREFER_CACHE] / [SYNC_ON_ERROR] of [load]. *)
Definition loadPreferCache (streamId : StreamID) (opts : Opts)
  : Prog (Ref * bool) :=
  genesis <- _loadGenesis streamId ;;
  let '(streamState, alreadySynced) := genesis in
  if alreadySynced : bool
  then Ret (streamState, alreadySynced)
  else
    orThrow (call (Sync streamState
                 (times1000 (get (syncTimeoutSeconds opts))) None)) ;;
    call (MetricsCount STREAM_SYNC 1) ;;
    Ret (streamState, true).

(** [fromMemoryOrStore?.tip] *)
Definition localTip (local : option Ref) : Prog (option CID) :=
  match local with
  | Some l => t <- call (RsTip l) ;; Ret (Some t)
  | None => Ret None
  end.

(** The case [SYNC_ALWAYS] of [load]. *)
Definition loadSyncAlways (schedule : list bool) (streamId : StreamID)
  (opts : Opts) : Prog (Ref * bool) :=
  copies <-
    Promise_all schedule (fromNetwork streamId) (fromMemoryOrStore streamId) ;;
  let '(fromNetwork', fromMemoryOrStore') := copies in
  tip <- localTip fromMemoryOrStore' ;;
  orThrow (call (Sync fromNetwork'
               (times1000 (get (syncTimeoutSeconds opts))) tip)) ;;
  call (MetricsCount STREAM_SYNC 1) ;;
  Ret (fromNetwork', true).

(** The body of the task that [load] hands to the loading queue. *)
Definition loadTask (schedule : list bool) (streamId : StreamID) (opts : Opts)
  : Prog (Ref * bool) :=
  match get (sync opts) with
  | Some PREFER_CACHE | Some SYNC_ON_ERROR => loadPreferCache streamId opts
  | Some NEVER_SYNC => _loadGenesis streamId
  | Some SYNC_ALWAYS => loadSyncAlways schedule streamId opts
  | None => Throw (InvalidSyncOption None)
  end.

(** What [load] does with the pair that the queued task produced. *)
Definition finishLoad (opts : Opts) (state : Ref) (synced : bool) : Prog Ref :=
  (if truthy (get (skipCacaoExpirationChecks opts))
   then Ret tt
   else st <- call (RsState state) ;; checkForCacaoExpiration st) ;;
  (if synced
   then
     isPinned <- call (RsIsPinned state) ;;
     if isPinned : bool
     then id <- call (RsId state) ;; call (MarkPinnedAndSynced id)
     else Ret tt
   else Ret tt) ;;
  Ret state.

(** [this.loadingQ.forStream(streamId).run(task)] is the call [LoadingQRun],
    by which the queue admits the task or rejects it, followed by the task:
    the queue yields the result of the task that it runs. *)
Definition load (schedule : list bool) (streamId : StreamID) (opts : Opts)
  : Prog Ref :=
  let opts := spread DEFAULT_LOAD_OPTS opts in
  loaded <-
    (orThrow (call (LoadingQRun streamId)) ;; loadTask schedule streamId opts) ;;
  let '(state, synced) := loaded in
  finishLoad opts state synced.

Definition skippingCACAOChecks (opts : Opts) : Opts :=
  spread opts
    {| sync := absent; syncTimeoutSeconds := absent;
       skipCacaoExpirationChecks := present (Some true);
       pin := absent; publish := absent; anchor := absent; atTime := absent |}.

Definition loadAtCommit (schedule : list bool) (commitId : CommitID) (opts : Opts)
  : Prog SnapshotState :=
  let optsSkippingCACAOChecks := skippingCACAOChecks opts in
  base <- load schedule (baseID commitId) optsSkippingCACAOChecks ;;
  stateAtCommit <- orThrow (call (AtCommit base commitId)) ;;
  checkForCacaoExpiration (snapshot_state stateAtCommit) ;;
  Ret stateAtCommit.

(** The method [pin] (the name [pin] is taken by the option). *)
Definition pin_ (s : Ref) (force : option bool) : Prog unit :=
  orThrow (call (PinStoreAdd s force)).

(** The message of the error reads [state$.id] and
    [state$.state.metadata.model] anew. *)
Definition unpin (s : Ref) (opts : option Opts) : Prog unit :=
  indexed <- shouldIndex s ;;
  if indexed : bool
  then
    id <- call (RsId s) ;;
    st <- call (RsState s) ;;
    match metadata st with
    | Some md => Throw (CannotUnpinIndexed (toString id) (model md))
    | None => Throw (TypeError "Cannot read properties of undefined")
    end
  else
    when (truthy (opts ≫= (fun o => get (publish o)))) (call (PublishTip s)) ;;
    id <- call (RsId s) ;;
    call (MarkUnpinned id) ;;
    orThrow (call (PinStoreRm s)).

Definition is_create (opType : OperationType) : bool :=
  match opType with CREATE => true | _ => false end.

Definition is_update (opType : OperationType) : bool :=
  match opType with UPDATE => true | _ => false end.

Definition pinStr (pin : option bool) : string :=
  if truthy pin then "pin" else "unpin".

Definition opStr (opType : OperationType) : string :=
  if is_update opType then "update" else "load".

Definition pin_warning (pinStr id opStr : string) : string :=
  "Cannot pin or unpin streams through the CRUD APIs. To change stream pin state use the admin.pin API with an authenticated admin DID. Attempting to "
  ++ pinStr ++ " stream " ++ id ++ " as part of a " ++ opStr ++ " operation".

(** [a || b] on programs that yield booleans: [b] runs only when [a] is
    false. *)
Definition or_else (a b : Prog bool) : Prog bool :=
  x <- a ;; if x : bool then Ret true else b.

(** [a && b]: [b] runs only when [a] is true. *)
Definition and_then (a : bool) (b : Prog bool) : Prog bool :=
  if a then b else Ret false.

Definition is_undefined {T} (v : option T) : bool :=
  match v with None => true | Some _ => false end.

Definition handlePinOpts (s : Ref) (opts : Opts) (opType : OperationType)
  : Prog unit :=
  let pin := get (pin opts) in
  if negb (is_undefined pin) && negb (is_create opType)
  then
    let pinStr := pinStr pin in
    let opStr := opStr opType in
    st <- call (RsState s) ;;
    id <- call (StreamIdFromState st) ;;
    call (ConsoleWarn (pin_warning pinStr (toString id) opStr))
  else
    doPin <- or_else (Ret (truthy pin))
               (or_else (and_then (is_undefined pin) (shouldIndex s))
                        (Ret (is_undefined pin && is_create opType))) ;;
    if doPin : bool
    then pin_ s None
    else
      match pin with
      | Some false => unpin s None
      | _ => Ret tt
      end.

Definition applyWriteOpts (s : Ref) (opts : Opts) (opType : OperationType)
  : Prog unit :=
  orThrow (call (SmApplyWriteOpts s opts)) ;;
  handlePinOpts s opts opType.

Definition applyCommit (streamId : StreamID) (commit_ : string) (opts : Opts)
  : Prog Ref :=
  call (LogVerbose ("Repository apply commit to stream " ++ toString streamId)) ;;
  s <- orThrow (call (SmApplyCommit streamId commit_ opts)) ;;
  applyWriteOpts s opts UPDATE ;;
  call (LogVerbose ("Repository applied write options to stream "
                      ++ toString streamId)) ;;
  Ret s.

(** The classification made by [applyCreateOpts]:
    [state.state.log.length == 1 ? CREATE : LOAD]. *)
Definition opTypeOfCreate (st : StreamState) : OperationType :=
  if (length (log st) =? 1)%nat then CREATE else LOAD.

Definition applyCreateOpts (schedule : list bool) (streamId : StreamID)
  (opts : Opts) : Prog Ref :=
  state <- load schedule streamId opts ;;
  st <- call (RsState state) ;;
  let opType := opTypeOfCreate st in
  applyWriteOpts state opts opType ;;
  Ret state.

Definition streamState (streamId : StreamID) : Prog (option StreamState) :=
  fromMemory' <- call (CacheGet (toString streamId)) ;;
  match fromMemory' return Prog (option StreamState) with
  | Some s => st <- call (RsState s) ;; Ret (Some st)
  | None => orThrow (call (StateStoreLoad streamId))
  end.

(** ** Vocabulary for traces *)

(** [traces p t o]: in some environment, [p] makes the calls of [t], gets the
    answers of [t], and ends with [o]. *)
Fixpoint traces {A} (p : Prog A) (t : list Event) (o : Outcome A) : Prop :=
  match p with
  | Ret a => t = [] ∧ o = Ok a
  | Throw e => t = [] ∧ o = Err e
  | Vis c k => ∃ r t', t = ev c r :: t' ∧ traces (k r) t' o
  end.

(** [steps p t p']: after the calls and answers of [t], what is left of [p]
    is [p']. *)
Fixpoint steps {A} (p : Prog A) (t : list Event) (p' : Prog A) {struct t} : Prop :=
  match t with
  | [] => p' = p
  | e :: t' =>
      match p with
      | Vis c k => ∃ r, e = ev c r ∧ steps (k r) t' p'
      | _ => False
      end
  end.

(** [Merge l1 l2 l]: [l] interleaves [l1] and [l2], keeping the order of
    each. *)
Inductive Merge {X} : list X → list X → list X → Prop :=
| Merge_nil : Merge [] [] []
| Merge_left x l1 l2 l : Merge l1 l2 l → Merge (x :: l1) l2 (x :: l)
| Merge_right x l1 l2 l : Merge l1 l2 l → Merge l1 (x :: l2) (x :: l).

(** Every call that [p] can make satisfies [P], and every error that [p]
    can throw satisfies [Q]. *)
Fixpoint always {A} (P : Call → Prop) (Q : Error → Prop) (p : Prog A) : Prop :=
  match p with
  | Ret _ => True
  | Throw e => Q e
  | Vis c k => P c ∧ ∀ r, always P Q (k r)
  end.

Definition rejected {X} (r : Result X) : bool :=
  match r with inl _ => true | inr _ => false end.

(** The answer is a failure: a rejected promise, a call that threw, or a
    capability check that did not pass. *)
Definition failed (e : Event) : bool :=
  match e with
  | existT c r =>
      match c return resp c → bool with
      | LoadingQRun _ => rejected
      | StateStoreLoad _ => rejected
      | AnchorRequestStoreLoad _ => rejected
      | PinStoreAdd _ _ => rejected
      | PinStoreRm _ => rejected
      | HandlersGet _ => rejected
      | GetCommitData _ _ => rejected
      | HandlerApplyCommit _ _ => rejected
      | Sync _ _ _ => rejected
      | AtCommit _ _ => rejected
      | SmApplyCommit _ _ _ => rejected
      | SmApplyWriteOpts _ _ => rejected
      | CheckForCacaoExpiration _ => negb
      | _ => λ _, false
      end r
  end.

Definition is_Sync (c : Call) : bool :=
  match c with Sync _ _ _ => true | _ => false end.

Definition is_Check (c : Call) : bool :=
  match c with CheckForCacaoExpiration _ => true | _ => false end.

(** Calls that change whether a stream is pinned, or that belong to
    [unpin]. *)
Definition is_pin_change (c : Call) : bool :=
  match c with
  | PinStoreAdd _ _ | PinStoreRm _ | MarkUnpinned _ | PublishTip _ => true
  | _ => false
  end.

(** Calls that create a running state, fill the cache or go to the
    network. *)
Definition is_cache_or_network (c : Call) : bool :=
  match c with
  | CacheSet _ _ | NewRunningState _ _ | HandlersGet _ | GetCommitData _ _
  | HandlerApplyCommit _ _ | Sync _ _ _ => true
  | _ => false
  end.

(** The calls to [StateManager.sync] of a trace, in order. *)
Definition syncs (t : list Event) : list Call := filter is_Sync (calls t).

Definition timeout_of (c : Call) : option JsNumber :=
  match c with
  | Sync _ t _ => Some t
  | _ => None
  end.

(** Calls other than [sync] and the capability check. *)
Definition quiet (c : Call) : Prop := is_Sync c = false ∧ is_Check c = false.

Definition not_expired (e : Error) : Prop := e ≠ CapabilityExpired.

(** *** The shapes of the three tiers of [_loadGenesis] *)

Definition memory_hit (id : StreamID) (s : Ref) : list Event :=
  [ev (CacheGet (toString id)) (Some s);
   ev (MetricsCount CACHE_HIT_MEMORY 1) ()].

Definition rehydration (s : Ref) (request : option AnchorRequest)
  (anchorService : bool) : list Event :=
  match request with
  | Some req =>
      ev AnchorServicePresent anchorService
      :: (if anchorService
          then [ev (ConfirmAnchorResponse s (request_cid req)) ()]
          else [])
  | None => []
  end.

Definition store_hit (id : StreamID) (st : StreamState) (s : Ref)
  (sid : StreamID) (request : option AnchorRequest) (anchorService : bool)
  : list Event :=
  ([ev (StateStoreLoad id) (inr (Some st));
    ev (MetricsCount CACHE_HIT_LOCAL 1) ();
    ev (NewRunningState st true) s;
    ev (RsId s) sid;
    ev (CacheSet (toString sid) s) ();
    ev (AnchorRequestStoreLoad id) (inr request)]
   ++ rehydration s request anchorService)%list.

Definition network_load (id : StreamID) (h : Handler) (cd : CommitData)
  (st : StreamState) (s : Ref) (sid : StreamID) : list Event :=
  [ev (HandlersGet (typeName id)) (inr h);
   ev (GetCommitData (cid id) id) (inr (Some cd));
   ev (MetricsCount CACHE_HIT_REMOTE 1) ();
   ev (HandlerApplyCommit h (timecheckDisabled cd)) (inr st);
   ev (NewRunningState st false) s;
   ev (RsId s) sid;
   ev (CacheSet (toString sid) s) ();
   ev (LogVerbose ("Genesis commit for stream " ++ toString id
                     ++ " successfully loaded")) ()].

(** *** Contracts of the collaborators *)

(** Property reads, lookups and logging. *)
Definition inert (c : Call) : bool :=
  match c with
  | RsId _ | RsState _ | RsTip _ | RsIsPinned _
  | AnchorServicePresent | WasPinnedStreamSynced _
  | CheckForCacaoExpiration _ | StreamIdFromState _ | ShouldIndexStream _
  | LogVerbose _ | ConsoleWarn _ => true
  | _ => false
  end.

(** Reads and logging leave the world as it is. *)
Definition pure_observers (E : Env) : Prop :=
  ∀ c w, inert c = true → after E c w = w.

(** [PinStore.add], when it succeeds, leaves the running state marked as
    pinned. *)
Definition add_marks_pinned (E : Env) : Prop :=
  ∀ s force w,
    answer E (PinStoreAdd s force) w = inr () →
    answer E (RsIsPinned s) (after E (PinStoreAdd s force) w) = true.

(** The stream has a model and the indexing API says that the model is
    indexed: what [shouldIndex] finds in the world [w]. *)
Definition indexed (E : Env) (w : world E) (s : Ref) : bool :=
  match metadata (answer E (RsState s) w) ≫= model with
  | Some m => answer E (ShouldIndexStream m) w
  | None => false
  end.

(** [opts?.publish] is truthy. *)
Definition publishes (opts : option Opts) : bool :=
  truthy (opts ≫= λ o, get (publish o)).

Definition with_sync (v : field SyncOptions) (o : Opts) : Opts :=
  mkOpts v (syncTimeoutSeconds o) (skipCacaoExpirationChecks o) (pin o)
    (publish o) (anchor o) (atTime o).

Definition with_syncTimeoutSeconds (v : field JsNumber) (o : Opts) : Opts :=
  mkOpts (sync o) v (skipCacaoExpirationChecks o) (pin o)
    (publish o) (anchor o) (atTime o).

Definition with_pin (v : field bool) (o : Opts) : Opts :=
  mkOpts (sync o) (syncTimeoutSeconds o) (skipCacaoExpirationChecks o) v
    (publish o) (anchor o) (atTime o).

(** ** A reference environment

    None of the collaborators is part of the Repository, so the theorems
    below hold for every environment.  This module builds one concrete
    environment, to run the programs on and to show that the contracts some
    theorems assume can be met. *)
Module Reference.

Record RunningState := mkRunningState {
  state : StreamState;
  isPinned : bool;
  completed : bool
}.

Record World := mkWorld {
  heap : list RunningState;
  inmemory : list (string * Ref);
  cacheLimit : nat;
  stateStore : gmap string StreamState;
  anchorRequests : gmap string AnchorRequest;
  syncedPinned : gset string;
  anchorService : bool;
  queueClosed : bool;
  network : gmap string CommitData;
  networkTips : gmap string StreamState;
  indexedModels : gset string;
  expired : gset string
}.

Definition with_heap (w : World) (h : list RunningState) : World :=
  mkWorld h (inmemory w) (cacheLimit w) (stateStore w) (anchorRequests w)
    (syncedPinned w) (anchorService w) (queueClosed w) (network w)
    (networkTips w) (indexedModels w) (expired w).

Definition with_inmemory (w : World) (c : list (string * Ref)) : World :=
  mkWorld (heap w) c (cacheLimit w) (stateStore w) (anchorRequests w)
    (syncedPinned w) (anchorService w) (queueClosed w) (network w)
    (networkTips w) (indexedModels w) (expired w).

Definition with_stateStore (w : World) (s : gmap string StreamState) : World :=
  mkWorld (heap w) (inmemory w) (cacheLimit w) s (anchorRequests w)
    (syncedPinned w) (anchorService w) (queueClosed w) (network w)
    (networkTips w) (indexedModels w) (expired w).

Definition with_syncedPinned (w : World) (s : gset string) : World :=
  mkWorld (heap w) (inmemory w) (cacheLimit w) (stateStore w)
    (anchorRequests w) s (anchorService w) (queueClosed w) (network w)
    (networkTips w) (indexedModels w) (expired w).

Definition handlerNames : list string := ["tile"; "MID"].

Definition typeNameOf (t : Z) : string :=
  if (t =? 0)%Z then "tile" else "MID".

Definition genesisCidOf (st : StreamState) : CID :=
  match log st with
  | e :: _ => entry_cid e
  | [] => ""
  end.

Definition tipOf (st : StreamState) : CID :=
  match last (log st) with
  | Some e => entry_cid e
  | None => ""
  end.

(** Modelled from the spec: [StreamUtils.streamIdFromState], which is not in
    the source at hand; a stream identifier is "derived from the genesis
    commit's content hash plus a type tag". *)
Definition streamIdOf (st : StreamState) : StreamID :=
  let name := typeNameOf (type st) in
  mkStreamID name (genesisCidOf st) (name ++ ":" ++ genesisCidOf st).

Definition emptyState : StreamState :=
  mkStreamState 0 "" None NOT_REQUESTED [].

Definition deref (w : World) (s : Ref) : RunningState :=
  default (mkRunningState emptyState false true) (heap w !! s).

Definition update (w : World) (s : Ref) (f : RunningState -> RunningState)
  : World :=
  with_heap w (alter f s (heap w)).

Definition set_state (st : StreamState) (r : RunningState) : RunningState :=
  mkRunningState st (isPinned r) (completed r).

Definition set_pinned (b : bool) (r : RunningState) : RunningState :=
  mkRunningState (state r) b (completed r).

Definition complete (r : RunningState) : RunningState :=
  mkRunningState (state r) (isPinned r) true.

Definition set_anchorStatus (a : AnchorStatus) (st : StreamState) : StreamState :=
  mkStreamState (type st) (content st) (metadata st) a (log st).

Definition lookup_key (key : string) (c : list (string * Ref)) : option Ref :=
  snd <$> find (fun e => String.eqb key (fst e)) c.

Definition remove_key (key : string) (c : list (string * Ref))
  : list (string * Ref) :=
  filter (fun e => fst e ≠ key) c.

(** Modelled from the spec: [StateCache.get] and [StateCache.set] (the
    cache is not in the source at hand), a "bounded LRU of running states";
    "eviction fires only when |evictable entries| > cacheLimit after an
    insertion; the least-recently-used evictable entry is removed and the
    completion callback invoked".  The most recently used entry comes
    first.  The endured entries of the cache are left out: no operation
    below endures an entry. *)
Definition cache_get (key : string) (w : World) : option Ref * World :=
  match lookup_key key (inmemory w) with
  | Some s => (Some s, with_inmemory w ((key, s) :: remove_key key (inmemory w)))
  | None => (None, w)
  end.

Definition cache_set (key : string) (s : Ref) (w : World) : World :=
  let entries := (key, s) :: remove_key key (inmemory w) in
  let kept := take (cacheLimit w) entries in
  let evicted := drop (cacheLimit w) entries in
  foldr (fun e w => update w (snd e) complete) (with_inmemory w kept) evicted.

(** Modelled from the spec: the stream handler's [applyCommit] on a genesis
    commit, "a pure function of its inputs"; here it builds the one-entry
    state of the commit, and refuses a commit whose capability has expired
    unless the time check is disabled. *)
Definition applyGenesis (w : World) (cd : CommitData) : Result StreamState :=
  if bool_decide (commit_cid cd ∈ expired w) && negb (truthy (disableTimecheck cd))
  then inl "CACAO expired"
  else inr (mkStreamState 0 (commit_payload cd)
              (Some (mkMetadata [] None)) NOT_REQUESTED
              [mkLogEntry (commit_cid cd) GENESIS None]).

(** The entries of a log up to the commit [c], when [c] is in the log. *)
Fixpoint upTo (c : CID) (l : list LogEntry) : option (list LogEntry) :=
  match l with
  | [] => None
  | e :: l' =>
      if String.eqb (entry_cid e) c then Some [e]
      else cons e <$> upTo c l'
  end.

(** Modelled from the spec: [StateManager.atCommit], which is not in the
    source at hand; it "replays from genesis to the requested commit,
    producing an immutable snapshot", and "fails with CommitNotInLog if the
    commit is not in base's canonical history". *)
Definition atCommit (st : StreamState) (c : CommitID) : Result SnapshotState :=
  match upTo (commit c) (log st) with
  | Some l => inr (mkSnapshot (mkStreamState (type st) (content st)
                                 (metadata st) (anchorStatus st) l))
  | None => inl "CommitNotInLog"
  end.

(** Modelled from the spec: the collaborators of §6.1 and the state
    manager's operations of §4.4.  [PinStore.add] persists the state and
    marks the running state pinned, [PinStore.rm] removes it and marks it
    unpinned; [sync] brings the running state to the tip known to the
    network; the state manager's [applyCommit] appends the commit to the
    cached running state. *)
Definition respond (c : Call) (w : World) : resp c * World :=
  match c return resp c * World with
  | CacheGet key => cache_get key w
  | CacheSet key s => (tt, cache_set key s w)
  | MetricsCount _ _ => (tt, w)
  | LogVerbose _ => (tt, w)
  | ConsoleWarn _ => (tt, w)
  | LoadingQRun _ =>
      (if queueClosed w then inl "QueueClosed" else inr tt, w)
  | StateStoreLoad id => (inr (stateStore w !! toString id), w)
  | AnchorRequestStoreLoad id => (inr (anchorRequests w !! toString id), w)
  | PinStoreAdd s _ =>
      match heap w !! s with
      | Some r =>
          (inr tt,
           with_stateStore (update w s (set_pinned true))
             (<[toString (streamIdOf (state r)) := state r]> (stateStore w)))
      | None => (inl "no such running state", w)
      end
  | PinStoreRm s =>
      match heap w !! s with
      | Some r =>
          (inr tt,
           with_stateStore (update w s (set_pinned false))
             (delete (toString (streamIdOf (state r))) (stateStore w)))
      | None => (inl "no such running state", w)
      end
  | NewRunningState st pinned =>
      (length (heap w), with_heap w (heap w ++ [mkRunningState st pinned false]))
  | RsId s => (streamIdOf (state (deref w s)), w)
  | RsState s => (state (deref w s), w)
  | RsTip s => (tipOf (state (deref w s)), w)
  | RsIsPinned s => (isPinned (deref w s), w)
  | HandlersGet name =>
      (if bool_decide (name ∈ handlerNames) then inr name
       else inl "Failed to find a stream handler", w)
  | GetCommitData c _ => (inr (network w !! c), w)
  | HandlerApplyCommit _ cd => (applyGenesis w cd, w)
  | AnchorServicePresent => (anchorService w, w)
  | ConfirmAnchorResponse s _ =>
      (tt, update w s (fun r => set_state (set_anchorStatus PENDING (state r)) r))
  | WasPinnedStreamSynced id => (bool_decide (toString id ∈ syncedPinned w), w)
  | MarkPinnedAndSynced id =>
      (tt, with_syncedPinned w ({[toString id]} ∪ syncedPinned w))
  | MarkUnpinned id =>
      (tt, with_syncedPinned w (syncedPinned w ∖ {[toString id]}))
  | PublishTip _ => (tt, w)
  | Sync s _ _ =>
      match networkTips w !! toString (streamIdOf (state (deref w s))) with
      | Some st => (inr tt, update w s (set_state st))
      | None => (inr tt, w)
      end
  | AtCommit base c => (atCommit (state (deref w base)) c, w)
  | SmApplyCommit id c _ =>
      match lookup_key (toString id) (inmemory w) with
      | Some s =>
          let st := state (deref w s) in
          let st' := mkStreamState (type st) (content st) (metadata st)
                       (anchorStatus st)
                       (log st ++ [mkLogEntry c SIGNED None]) in
          (inr s, update w s (set_state st'))
      | None => (inl "StreamNotFound", w)
      end
  | SmApplyWriteOpts _ _ => (inr tt, w)
  | CheckForCacaoExpiration st => (negb (bool_decide (tipOf st ∈ expired w)), w)
  | StreamIdFromState st => (streamIdOf st, w)
  | ShouldIndexStream m => (bool_decide (toString m ∈ indexedModels w), w)
  end.

Definition env : Env := mkEnv World respond.

End Reference.

(** ** Sample worlds of the reference environment *)
Module Examples.
Import Reference.

Definition idA : StreamID := mkStreamID "tile" "cidA" "tile:cidA".

Definition idM : StreamID := mkStreamID "MID" "cidM" "MID:cidM".

Definition genesisA : CommitData := mkCommitData "cidA" "hello" None.

Definition stateA : StreamState :=
  mkStreamState 0 "hello" (Some (mkMetadata [] None)) NOT_REQUESTED
    [mkLogEntry "cidA" GENESIS None].

(** A two-commit stream of the model [idM]. *)
Definition stateB : StreamState :=
  mkStreamState 0 "doc" (Some (mkMetadata ["did:key:z6Mk"] (Some idM)))
    NOT_REQUESTED
    [mkLogEntry "cidB" GENESIS None; mkLogEntry "cidB1" SIGNED None].

Definition requestA : AnchorRequest := mkAnchorRequest "cidA" 1700000000.

(** Nothing is cached or stored; the network knows the genesis commit of
    [idA]. *)
Definition w_network : World :=
  {| heap := []; inmemory := []; cacheLimit := 2;
     stateStore := ∅; anchorRequests := ∅; syncedPinned := ∅;
     anchorService := true; queueClosed := false;
     network := {["cidA" := genesisA]}; networkTips := ∅;
     indexedModels := ∅; expired := ∅ |}.

(** The stream [idA] is pinned: its state is in the state store, with a
    persisted anchor request; the node runs without an anchor service. *)
Definition w_stored : World :=
  {| heap := []; inmemory := []; cacheLimit := 2;
     stateStore := {["tile:cidA" := stateA]};
     anchorRequests := {["tile:cidA" := requestA]}; syncedPinned := ∅;
     anchorService := false; queueClosed := false;
     network := {["cidA" := genesisA]}; networkTips := ∅;
     indexedModels := ∅; expired := ∅ |}.

(** The stream [idA] is pinned and in the cache, as running state 0. *)
Definition w_pinned : World :=
  {| heap := [mkRunningState stateA true false];
     inmemory := [("tile:cidA", 0%nat)]; cacheLimit := 2;
     stateStore := {["tile:cidA" := stateA]};
     anchorRequests := ∅; syncedPinned := {["tile:cidA"]};
     anchorService := true; queueClosed := false;
     network := {["cidA" := genesisA]}; networkTips := ∅;
     indexedModels := ∅; expired := ∅ |}.

(** Running state 0 is a stream of the indexed model [idM]. *)
Definition w_indexed : World :=
  {| heap := [mkRunningState stateB true false];
     inmemory := [("tile:cidB", 0%nat)]; cacheLimit := 2;
     stateStore := {["tile:cidB" := stateB]};
     anchorRequests := ∅; syncedPinned := {["tile:cidB"]};
     anchorService := true; queueClosed := false;
     network := ∅; networkTips := ∅;
     indexedModels := {["MID:cidM"]}; expired := ∅ |}.

(** As [w_pinned], but the capability of the tip of [idA] has expired. *)
Definition w_expired : World :=
  {| heap := [mkRunningState stateA true false];
     inmemory := [("tile:cidA", 0%nat)]; cacheLimit := 2;
     stateStore := {["tile:cidA" := stateA]};
     anchorRequests := ∅; syncedPinned := {["tile:cidA"]};
     anchorService := true; queueClosed := false;
     network := {["cidA" := genesisA]}; networkTips := ∅;
     indexedModels := ∅; expired := {["cidA"]} |}.

Definition pin_false : Opts := with_pin (present (Some false)) empty_opts.

Definition sync_always : Opts :=
  with_sync (present (Some SYNC_ALWAYS)) empty_opts.

End Examples.

(** ** Two sentences of the specification, as they are written *)

(** "A state-store hit [...] rehydrates a persisted anchor request via
    confirmAnchorResponse when one exists", at a world of the reference
    environment. *)
Definition rehydrates_persisted_request (w : Reference.World) (id : StreamID)
  : Prop :=
  ∀ st request,
    Reference.lookup_key (toString id) (Reference.inmemory w) = None →
    Reference.stateStore w !! toString id = Some st →
    Reference.anchorRequests w !! toString id = Some request →
    ∃ s, ConfirmAnchorResponse s (request_cid request)
           ∈ calls (trace (run Reference.env (_loadGenesis id) w)).

(** "For every CREATE operation where opts.pin === false, handlePinOpts is a
    no-op: [...] no unpin action is performed (no removal from the pin store
    and no error is possible from this branch)". *)
Definition unpinned_create_is_noop (E : Env) (w : world E) (s : Ref)
  (opts : Opts) : Prop :=
  get (pin opts) = Some false →
  let r := run E (handlePinOpts s opts CREATE) w in
  outcome r = Ok () ∧ Forall (λ c, is_pin_change c = false) (calls (trace r)).

(** ** What [load] can call, and how it can fail *)

Definition is_Mark (c : Call) : bool :=
  match c with MarkPinnedAndSynced _ => true | _ => false end.

Definition is_warn (c : Call) : bool :=
  match c with ConsoleWarn _ => true | _ => false end.

Definition is_pin_add (c : Call) : bool :=
  match c with PinStoreAdd _ _ => true | _ => false end.

(** The calls by which [unpin] acts. *)
Definition is_unpin (c : Call) : bool :=
  match c with
  | PinStoreRm _ | MarkUnpinned _ | PublishTip _ => true
  | _ => false
  end.

(** The two calls of [shouldIndex]: the read of the state of the running
    state, and the question to the indexing API. *)
Definition index_lookup (c : Call) : bool :=
  match c with
  | RsState _ | ShouldIndexStream _ => true
  | _ => false
  end.

(** Reads of a running state and of the index: unlike [inert], neither a
    log line nor a warning. *)
Definition is_read (c : Call) : bool :=
  match c with
  | RsId _ | RsState _ | ShouldIndexStream _ => true
  | _ => false
  end.

(** What [load] hands to the loading queue: the admission by the queue,
    followed by the task. *)
Definition queuedTask (schedule : list bool) (streamId : StreamID) (opts : Opts)
  : Prog (Ref * bool) :=
  orThrow (call (LoadingQRun streamId)) ;; loadTask schedule streamId opts.

(** Calls that go to the network: the lookup of a handler, the fetch of a
    commit, the handler itself, and [sync]. *)
Definition is_network (c : Call) : bool :=
  match c with
  | HandlersGet _ | GetCommitData _ _ | HandlerApplyCommit _ _
  | Sync _ _ _ => true
  | _ => false
  end.

(** The calls of the loaders ([fromMemory], [fromStreamStateStore],
    [fromNetwork] and what is built from them). *)
Definition loader_call (c : Call) : bool :=
  match c with
  | CacheGet _ | CacheSet _ _ | MetricsCount _ _ | LogVerbose _
  | StateStoreLoad _ | AnchorRequestStoreLoad _
  | NewRunningState _ _ | RsId _
  | HandlersGet _ | GetCommitData _ _ | HandlerApplyCommit _ _
  | AnchorServicePresent | ConfirmAnchorResponse _ _
  | WasPinnedStreamSynced _ => true
  | _ => false
  end.

(** The calls of the task that [load] hands to the queue. *)
Definition task_call (c : Call) : bool :=
  match c with
  | Sync _ _ _ | RsTip _ => true
  | _ => loader_call c
  end.

(** The calls of [load]. *)
Definition load_call (c : Call) : bool :=
  match c with
  | LoadingQRun _ | RsState _ | CheckForCacaoExpiration _ | RsIsPinned _
  | MarkPinnedAndSynced _ => true
  | _ => task_call c
  end.

(** The errors of the loaders, for the stream [id]. *)
Definition loader_error (id : StreamID) (e : Error) : Prop :=
  e = NoGenesisCommit (cid id) ∨ ∃ x, e = Rejected x.

(** The errors of the queued task: those of the loaders, a rejected sync, or
    an invalid sync option. *)
Definition task_error (id : StreamID) (e : Error) : Prop :=
  loader_error id e ∨ ∃ v, e = InvalidSyncOption v.

Definition load_error (id : StreamID) (e : Error) : Prop :=
  task_error id e ∨ e = CapabilityExpired.

(** The failure of a collaborator. *)
Definition only_rejected (e : Error) : Prop := ∃ x, e = Rejected x.

(** In the course of [t] the cache gave the running state [s] for the stream
    [id], or [s] was put in the cache under the printed form of the
    identifier that [s] itself gave. *)
Definition cached_in (id : StreamID) (t : list Event) (s : Ref) : Prop :=
  ev (CacheGet (toString id)) (Some s) ∈ t
  ∨ (∃ sid, ev (RsId s) sid ∈ t ∧ ev (CacheSet (toString sid) s) () ∈ t).

(** ** The methods that reach further collaborators

    [loadAtTime], [randomPinnedStreamState], [indexStreamIfNeeded] and
    [close] use parts of the collaborators that the methods above do not
    touch.  Their programs range over a wider set of calls, which contains
    the calls above ([Base]); a program over the calls above is carried over
    by [lift]. *)

(** The record that [indexStreamIfNeeded] hands to [index.indexStream].  A
    [Date] is its number of milliseconds. *)
Record IndexedStream := mkIndexedStream {
  ix_model : option StreamID;
  ix_streamID : StreamID;
  ix_controller : option string;
  ix_streamContent : string;
  ix_tip : CID;
  ix_lastAnchor : option Z;
  ix_firstAnchor : option Z
}.

Inductive WCall :=
| Base (c : Call)
(* RunningState *)
| RsValue (s : Ref)
| RsComplete (s : Ref)
(* StateManager *)
| AtTime (base : Ref) (atTime : option Z)
(* the state store of the PinStore, StreamID *)
| ListStoredStreamIDs (gt : option string) (limit : Z)
| StreamIDFromString (str : string)
(* StreamUtils, LocalIndexApi *)
| AnchorTimestampFromState (st : StreamState)
| IndexStream (r : IndexedStream)
(* ExecutionQueue, StateCache, PinStore *)
| LoadingQClose
| ExecutionQClose
| CacheEntries
| CacheDelete (key : string)
| PinStoreClose
| IndexClose.

Definition wresp (c : WCall) : Type :=
  match c with
  | Base c => resp c
  | RsValue _ => StreamState
  | RsComplete _ => unit
  | AtTime _ _ => Result SnapshotState
  | ListStoredStreamIDs _ _ => Result (list string)
  | StreamIDFromString _ => Result StreamID
  | AnchorTimestampFromState _ => option Z
  | IndexStream _ => Result unit
  | LoadingQClose => Result unit
  | ExecutionQClose => Result unit
  | CacheEntries => list (string * Ref)
  | CacheDelete _ => unit
  | PinStoreClose => Result unit
  | IndexClose => Result unit
  end.

(** The errors above, and the error that [randomPinnedStreamState]
    constructs when the state store lists [n] identifiers. *)
Inductive WError :=
| Core (e : Error)
| UnexpectedStreamIDs (n : nat).

Inductive WProg (A : Type) : Type :=
| WRet (a : A)
| WThrow (e : WError)
| WVis (c : WCall) (k : wresp c -> WProg A).
Arguments WRet {A} a.
Arguments WThrow {A} e.
Arguments WVis {A} c k.

Fixpoint wbind {A B} (p : WProg A) (f : A -> WProg B) : WProg B :=
  match p with
  | WRet a => f a
  | WThrow e => WThrow e
  | WVis c k => WVis c (fun r => wbind (k r) f)
  end.

Declare Scope wprog_scope.
Delimit Scope wprog_scope with wprog.
Notation "x <- p ;; q" := (wbind p (fun x => q))
  (at level 100, p at next level, right associativity) : wprog_scope.
Notation "p ;; q" := (wbind p (fun _ => q))
  (at level 100, right associativity) : wprog_scope.
Open Scope wprog_scope.

Definition wcall (c : WCall) : WProg (wresp c) := WVis c WRet.

Definition worThrow {X} (p : WProg (Result X)) : WProg X :=
  r <- p ;;
  match r with
  | inl e => WThrow (Core (Rejected e))
  | inr x => WRet x
  end.

Fixpoint lift {A} (p : Prog A) : WProg A :=
  match p with
  | Ret a => WRet a
  | Throw e => WThrow (Core e)
  | Vis c k => WVis (Base c) (fun r => lift (k r))
  end.

Record WEnv := mkWEnv {
  wworld : Type;
  whandle : forall c : WCall, wworld -> wresp c * wworld
}.

(** The part of a wider environment that answers the calls above. *)
Definition base_env (E : WEnv) : Env :=
  mkEnv (wworld E) (fun c => whandle E (Base c)).

Definition WEvent : Type := { c : WCall & wresp c }.

Definition wev (c : WCall) (r : wresp c) : WEvent := existT c r.

Definition lift_ev (e : Event) : WEvent := wev (Base (projT1 e)) (projT2 e).

Inductive WOutcome (A : Type) : Type :=
| WOk (a : A)
| WErr (e : WError).
Arguments WOk {A} a.
Arguments WErr {A} e.

Definition lift_outcome {A} (o : Outcome A) : WOutcome A :=
  match o with
  | Ok a => WOk a
  | Err e => WErr (Core e)
  end.

Definition wanswer (E : WEnv) (c : WCall) (w : wworld E) : wresp c :=
  (whandle E c w).1.
Definition wafter (E : WEnv) (c : WCall) (w : wworld E) : wworld E :=
  (whandle E c w).2.

Record WRun (E : WEnv) (A : Type) := mkWRun {
  woutcome : WOutcome A;
  wfinal : wworld E;
  wtrace : list WEvent
}.
Arguments mkWRun {E A} woutcome wfinal wtrace.
Arguments woutcome {E A} _.
Arguments wfinal {E A} _.
Arguments wtrace {E A} _.

Fixpoint wrun (E : WEnv) {A} (p : WProg A) (w : wworld E) : WRun E A :=
  match p with
  | WRet a => mkWRun (WOk a) w []
  | WThrow e => mkWRun (WErr e) w []
  | WVis c k =>
      let r := wrun E (k (wanswer E c w)) (wafter E c w) in
      mkWRun (woutcome r) (wfinal r) (wev c (wanswer E c w) :: wtrace r)
  end.

Definition wcalls (t : list WEvent) : list WCall := projT1 <$> t.

Definition is_WCheck (c : WCall) : bool :=
  match c with Base c => is_Check c | _ => false end.

(** *** [loadAtTime]

    [streamId.baseID] is a getter of [StreamID], which is not part of the
    Repository: it is the parameter [baseID_]. *)
Definition loadAtTime (baseID_ : StreamID -> StreamID) (schedule : list bool)
  (streamId : StreamID) (opts : Opts) : WProg SnapshotState :=
  base <- lift (load schedule (baseID_ streamId) opts) ;;
  worThrow (wcall (AtTime base (get (atTime opts)))).

(** *** [listPinned] is [pinStore.ls], and is left out. *)

(** *** [randomPinnedStreamState] *)
Definition randomPinnedStreamState : WProg (option StreamState) :=
  res <- worThrow (wcall (ListStoredStreamIDs None 1)) ;;
  match res return WProg (option StreamState) with
  | [] => WRet None
  | [streamID] =>
      id <- worThrow (wcall (StreamIDFromString streamID)) ;;
      worThrow (wcall (Base (StateStoreLoad id)) : WProg (Result (option StreamState)))
  | _ => WThrow (UnexpectedStreamIDs (length res))
  end.

(** *** [indexStreamIfNeeded] *)

(** [unixTimestamp ? new Date(unixTimestamp * 1000) : null]: zero is falsy. *)
Definition asDate (unixTimestamp : option Z) : option Z :=
  match unixTimestamp with
  | Some t => if (t =? 0)%Z then None else Some (t * 1000)
  | None => None
  end.

Definition is_anchor (e : LogEntry) : bool :=
  match entry_type e with ANCHOR => true | _ => false end.

(** [log.find((log) => log.type == CommitType.ANCHOR)?.timestamp] *)
Definition firstAnchorTimestamp (l : list LogEntry) : option Z :=
  find is_anchor l ≫= entry_timestamp.

(** [state$.value.metadata], whose properties are read without [?.]. *)
Definition metadataOf (st : StreamState) : WProg StreamMetadata :=
  match metadata st with
  | Some md => WRet md
  | None => WThrow (Core (TypeError "Cannot read properties of undefined"))
  end.

Definition indexStreamIfNeeded (s : Ref) : WProg unit :=
  v <- wcall (RsValue s) ;;
  md <- metadataOf v ;;
  match model md with
  | None => WRet tt
  | Some _ =>
      v <- wcall (RsValue s) ;;
      lastAnchorTimestamp <- wcall (AnchorTimestampFromState v) ;;
      let lastAnchor := asDate lastAnchorTimestamp in
      v <- wcall (RsValue s) ;;
      let firstAnchor := asDate (firstAnchorTimestamp (log v)) in
      v <- wcall (RsValue s) ;;
      md <- metadataOf v ;;
      let model_ := model md in
      streamID <- (wcall (Base (RsId s)) : WProg StreamID) ;;
      v <- wcall (RsValue s) ;;
      md <- metadataOf v ;;
      let controller := head (controllers md) in
      v <- wcall (RsValue s) ;;
      let streamContent := content v in
      tip <- (wcall (Base (RsTip s)) : WProg CID) ;;
      worThrow (wcall (IndexStream
        {| ix_model := model_;
           ix_streamID := streamID;
           ix_controller := controller;
           ix_streamContent := streamContent;
           ix_tip := tip;
           ix_lastAnchor := lastAnchor;
           ix_firstAnchor := firstAnchor |}))
  end.

(** *** [close] *)

(** [entries.forEach(([id, stream]) => { this.inmemory.delete(id);
    stream.complete() })] *)
Fixpoint completeAll (entries : list (string * Ref)) : WProg unit :=
  match entries with
  | [] => WRet tt
  | (id, stream) :: rest =>
      wcall (CacheDelete id) ;;
      wcall (RsComplete stream) ;;
      completeAll rest
  end.

Definition close : WProg unit :=
  worThrow (wcall LoadingQClose) ;;
  worThrow (wcall ExecutionQClose) ;;
  entries <- wcall CacheEntries ;;
  completeAll entries ;;
  worThrow (wcall PinStoreClose) ;;
  worThrow (wcall IndexClose).

Close Scope wprog_scope.


Definition is_IndexStream (c : WCall) : bool :=
  match c with IndexStream _ => true | _ => false end.

(** Reads of a running state, which leave the world as it is. *)
Definition stable_reads (E : WEnv) : Prop :=
  ∀ s w,
    wafter E (RsValue s) w = w
    ∧ wafter E (Base (RsId s)) w = w
    ∧ wafter E (Base (RsTip s)) w = w
    ∧ ∀ st, wafter E (AnchorTimestampFromState st) w = w.

(** ** The reference environment, with the further collaborators *)
Module WReference.
Import Reference.

Definition with_queueClosed (w : World) (b : bool) : World :=
  mkWorld (heap w) (inmemory w) (cacheLimit w) (stateStore w)
    (anchorRequests w) (syncedPinned w) (anchorService w) b (network w)
    (networkTips w) (indexedModels w) (expired w).

(** The printed form of a stream identifier is [typeName:cid]. *)
Fixpoint split_colon (s : string) : option (string * string) :=
  match s with
  | EmptyString => None
  | String a rest =>
      if String.eqb (String a EmptyString) ":" then Some (EmptyString, rest)
      else (fun p => (String a (fst p), snd p)) <$> split_colon rest
  end.

Definition fromString (str : string) : Result StreamID :=
  match split_colon str with
  | Some (name, c) => inr (mkStreamID name c str)
  | None => inl "Invalid StreamID string"
  end.

(** The timestamp of the last entry of the log that has one (a timestamp of
    zero is falsy, and counts as none). *)
Definition anchorTimestamp (l : list LogEntry) : option Z :=
  last (omap (fun e => entry_timestamp e ≫=
                       fun t => if (t =? 0)%Z then None else Some t) l).

(** The longest prefix of the log that ends with an anchor commit whose
    timestamp is at most [t]. *)
Fixpoint upToTime (t : Z) (l : list LogEntry) : list LogEntry :=
  match l with
  | [] => []
  | e :: l' =>
      match upToTime t l' with
      | [] =>
          match entry_timestamp e with
          | Some ts => if (ts <=? t)%Z then [e] else []
          | None => []
          end
      | k => e :: k
      end
  end.

(** Modelled from the spec: [StateManager.atTime], which "locates the latest
    anchor commit with timestamp ≤ atTime; replays up to it"; the genesis
    commit is kept when there is no such anchor. *)
Definition atTime_ (st : StreamState) (t : option Z) : Result SnapshotState :=
  match t with
  | Some t =>
      inr (mkSnapshot
             (mkStreamState (type st) (content st) (metadata st)
                (anchorStatus st)
                (match upToTime t (log st) with
                 | [] => take 1 (log st)
                 | k => k
                 end)))
  | None => inl "atTime is required"
  end.

(** Modelled from the spec: the collaborators of §6.1, as far as the further
    methods call them: "[close()] drains all pending tasks and rejects
    subsequent submissions"; the state store's
    "[listStoredStreamIDs(cursor, limit) -> [idStr]]". *)
Definition wrespond (c : WCall) (w : World) : wresp c * World :=
  match c return wresp c * World with
  | Base c => respond c w
  | RsValue s => (state (deref w s), w)
  | RsComplete s => (tt, update w s complete)
  | AtTime base t => (atTime_ (state (deref w base)) t, w)
  | ListStoredStreamIDs _ limit =>
      (inr (take (Z.to_nat limit) (fst <$> map_to_list (stateStore w))), w)
  | StreamIDFromString str => (fromString str, w)
  | AnchorTimestampFromState st => (anchorTimestamp (log st), w)
  | IndexStream _ => (inr tt, w)
  | LoadingQClose => (inr tt, with_queueClosed w true)
  | ExecutionQClose => (inr tt, w)
  | CacheEntries => (inmemory w, w)
  | CacheDelete key => (tt, with_inmemory w (remove_key key (inmemory w)))
  | PinStoreClose => (inr tt, w)
  | IndexClose => (inr tt, w)
  end.

Definition wenv : WEnv := mkWEnv World wrespond.

End WReference.

Module WExamples.
Import Reference.

(** An anchored stream of the model [Examples.idM]. *)
Definition stateC : StreamState :=
  mkStreamState 0 "doc" (Some (mkMetadata ["did:key:z6Mk"] (Some Examples.idM)))
    ANCHORED
    [mkLogEntry "cidC" GENESIS None;
     mkLogEntry "cidC1" ANCHOR (Some 1700000000);
     mkLogEntry "cidC2" SIGNED None;
     mkLogEntry "cidC3" ANCHOR (Some 1700003600)].

(** Running state 0 is the stream of [stateC], cached and pinned; running
    state 1 is the stream [Examples.idA], cached and not pinned. *)
Definition w_anchored : World :=
  {| heap := [mkRunningState stateC true false;
              mkRunningState Examples.stateA false false];
     inmemory := [("tile:cidC", 0%nat); ("tile:cidA", 1%nat)]; cacheLimit := 2;
     stateStore := {["tile:cidC" := stateC]};
     anchorRequests := ∅; syncedPinned := {["tile:cidC"]};
     anchorService := true; queueClosed := false;
     network := ∅; networkTips := ∅;
     indexedModels := {["MID:cidM"]}; expired := ∅ |}.

(** A new stream of the indexed model [Examples.idM]: its log has the
    genesis commit only.  It is running state 0, cached and pinned. *)
Definition stateN : StreamState :=
  mkStreamState 0 "doc" (Some (mkMetadata ["did:key:z6Mk"] (Some Examples.idM)))
    NOT_REQUESTED [mkLogEntry "cidN" GENESIS None].

Definition w_indexed_new : World :=
  {| heap := [mkRunningState stateN true false];
     inmemory := [("tile:cidN", 0%nat)]; cacheLimit := 2;
     stateStore := {["tile:cidN" := stateN]};
     anchorRequests := ∅; syncedPinned := {["tile:cidN"]};
     anchorService := true; queueClosed := false;
     network := ∅; networkTips := ∅;
     indexedModels := {["MID:cidM"]}; expired := ∅ |}.

(** The options [{syncTimeoutSeconds: 7.5}]. *)
Definition timeout_7_5 : Opts :=
  with_syncTimeoutSeconds (present (Some 7.5%float)) empty_opts.

End WExamples.

(** "For every load call where opts.sync is left undefined, load behaves
    exactly as if opts.sync were PREFER_CACHE, and where
    opts.syncTimeoutSeconds is left undefined the sync timeout defaults to 3
    seconds".  An option is undefined when its property is missing, and also
    when the property is there with the value [undefined]. *)
Definition undefined_sync_is_prefer_cache (E : Env) (w : world E)
  (schedule : list bool) (id : StreamID) (opts : Opts) : Prop :=
  get (sync opts) = None →
  outcome (run E (load schedule id opts) w)
  = outcome (run E (load schedule id
                      (with_sync (present (Some PREFER_CACHE)) opts)) w).

Definition undefined_timeout_is_3_seconds (E : Env) (w : world E)
  (schedule : list bool) (id : StreamID) (opts : Opts) : Prop :=
  get (syncTimeoutSeconds opts) = None →
  Forall (λ c, ∀ t, timeout_of c = Some t → t = 3000%float)
    (calls (trace (run E (load schedule id opts) w))).

(** * Proofs *)

Open Scope list_scope.

(** Answers of type [unit] carry no information. *)
Ltac unit_answers :=
  repeat match goal with
  | |- context [answer ?E ?c ?w] =>
      let T := eval cbv in (resp c) in
      lazymatch T with
      | unit => destruct (answer E c w)
      end
  end.

(** ** Interleavings *)

Section Merge.
Context {X : Type}.
Implicit Types l : list X.

Lemma Merge_nil_l l : Merge [] l l.
Proof. induction l; constructor; done. Qed.

Lemma Merge_app_l l0 l1 l2 l : Merge l1 l2 l → Merge (l0 ++ l1) l2 (l0 ++ l).
Proof. intros H. induction l0; simpl; [done|by constructor]. Qed.

Lemma Merge_app_r l0 l1 l2 l : Merge l1 l2 l → Merge l1 (l0 ++ l2) (l0 ++ l).
Proof. intros H. induction l0; simpl; [done|by constructor]. Qed.

Lemma Merge_app l1 l2 : Merge l1 l2 (l1 ++ l2).
Proof.
  rewrite <- (app_nil_r l1) at 1. apply Merge_app_l, Merge_nil_l.
Qed.

Lemma Merge_Permutation l1 l2 l : Merge l1 l2 l → l ≡ₚ l1 ++ l2.
Proof.
  induction 1 as [|x l1 l2 l _ IH|x l1 l2 l _ IH]; simpl.
  - done.
  - by rewrite IH.
  - rewrite IH. by rewrite Permutation_middle.
Qed.

Lemma Merge_elem_of l1 l2 l x : Merge l1 l2 l → x ∈ l ↔ x ∈ l1 ∨ x ∈ l2.
Proof.
  intros H. rewrite (Merge_Permutation _ _ _ H). apply elem_of_app.
Qed.

End Merge.

(** ** Runs and traces *)

Lemma run_bind (E : Env) {A B} (p : Prog A) (f : A → Prog B) (w : world E) :
  run E (bind p f) w =
    match outcome (run E p w) with
    | Ok a =>
        let r := run E (f a) (final (run E p w)) in
        mkRun (outcome r) (final r) (trace (run E p w) ++ trace r)
    | Err e => mkRun (Err e) (final (run E p w)) (trace (run E p w))
    end.
Proof.
  revert w. induction p as [a|e|c k IH]; intros w; simpl.
  - by destruct (run E (f a) w).
  - done.
  - rewrite IH. by destruct (outcome (run E (k (answer E c w)) (after E c w))).
Qed.

Lemma trace_bind_prefix (E : Env) {A B} (p : Prog A) (f : A → Prog B) w :
  ∃ t, trace (run E (bind p f) w) = trace (run E p w) ++ t.
Proof.
  rewrite run_bind. destruct (outcome (run E p w)); simpl; [eauto|].
  exists []. by rewrite app_nil_r.
Qed.

Section Traces.
Context {A : Type}.
Implicit Types p : Prog A.

Lemma run_traces (E : Env) p (w : world E) :
  traces p (trace (run E p w)) (outcome (run E p w)).
Proof.
  revert w. induction p as [a|e|c k IH]; intros w; simpl; eauto.
Qed.

Lemma traces_bind {B} p (f : A → Prog B) t o :
  traces (bind p f) t o ↔
    (∃ e, traces p t (Err e) ∧ o = Err e)
    ∨ (∃ a t1 t2, traces p t1 (Ok a) ∧ traces (f a) t2 o ∧ t = t1 ++ t2).
Proof.
  revert t. induction p as [a|e|c k IH]; intros t; simpl.
  - split.
    + intros H. right. by exists a, [], t.
    + intros [(e & [_ ?] & _)|(a' & t1 & t2 & [-> [= <-]] & ? & ->)]; done.
  - split.
    + intros [-> ->]. left. eauto.
    + intros [(e' & [-> [= <-]] & ->)|(a' & t1 & t2 & [_ ?] & _)]; done.
  - split.
    + intros (r & t' & -> & H).
      apply IH in H as [(e & ? & ->)|(a & t1 & t2 & ? & ? & ->)].
      * left. exists e. split; [|done]. by exists r, t'.
      * right. exists a, (ev c r :: t1), t2. split_and!; [|done..].
        by exists r, t1.
    + intros [(e & (r & t' & -> & ?) & ->)
             |(a & t1 & t2 & (r & t' & -> & ?) & ? & ->)].
      * exists r, t'. split; [done|]. apply IH. left. by exists e.
      * exists r, (t' ++ t2). split; [done|]. apply IH. right.
        by exists a, t', t2.
Qed.

Lemma steps_traces p t1 p' t2 o :
  steps p t1 p' → traces p' t2 o → traces p (t1 ++ t2) o.
Proof.
  revert p. induction t1 as [|e t1 IH]; intros p; simpl.
  - by intros ->.
  - destruct p as [| |c k]; try done. intros (r & -> & ?) ?. simpl. eauto.
Qed.

Lemma traces_segment {R} p (cont : Prog A → Prog R) t (x : R) :
  traces (segment p cont) t (Ok x) →
  ∃ t1 p' t2, steps p t1 p' ∧ traces (cont p') t2 (Ok x) ∧ t = t1 ++ t2.
Proof.
  revert t. induction p as [a|e|c k IH]; intros t; simpl.
  - intros H. by exists [], (Ret a), t.
  - intros H. by exists [], (Throw e), t.
  - destruct (awaited c); simpl.
    + intros (r & t' & -> & H). exists [ev c r], (k r), t'. simpl. eauto.
    + intros (r & t' & -> & H). apply IH in H as (t1 & p' & t2 & ? & ? & ->).
      exists (ev c r :: t1), p', t2. simpl. eauto.
Qed.

Lemma always_bind {B} P Q p (f : A → Prog B) :
  always P Q p → (∀ a, always P Q (f a)) → always P Q (bind p f).
Proof.
  intros Hp Hf. induction p as [a|e|c k IH]; simpl in *; [done..|].
  destruct Hp as [? Hk]. split; auto.
Qed.

Lemma always_segment {R} P Q p (cont : Prog A → Prog R) :
  always P Q p →
  (∀ p', always P Q p' → always P Q (cont p')) →
  always P Q (segment p cont).
Proof.
  induction p as [a|e|c k IH]; simpl; [auto..|].
  intros [? Hk] Hcont. destruct (awaited c); simpl; split; auto.
Qed.

Lemma always_mono (P P' : Call → Prop) (Q Q' : Error → Prop) p :
  (∀ c, P c → P' c) → (∀ e, Q e → Q' e) → always P Q p → always P' Q' p.
Proof.
  intros HP HQ. induction p as [| |c k IH]; simpl; [done|auto|].
  intros [??]. split; auto.
Qed.

Lemma always_run (E : Env) P Q p (w : world E) :
  always P Q p →
  Forall P (calls (trace (run E p w)))
  ∧ ∀ e, outcome (run E p w) = Err e → Q e.
Proof.
  revert w. induction p as [a|e|c k IH]; intros w; simpl.
  - by split; [constructor|].
  - intros ?. split; [constructor|]. by intros ? [= <-].
  - intros [? Hk].
    destruct (IH (answer E c w) (after E c w) (Hk _)).
    split; [by constructor|done].
Qed.

Lemma always_calls (E : Env) P Q p (w : world E) :
  always P Q p → Forall P (calls (trace (run E p w))).
Proof. intros H. by apply (always_run E P Q p w). Qed.

Lemma always_error (E : Env) P Q p (w : world E) e :
  always P Q p → outcome (run E p w) = Err e → Q e.
Proof. intros H. by apply (always_run E P Q p w). Qed.

End Traces.

Lemma traces_orphan {A R} (p : Prog A) (k : Prog R) t o :
  traces (orphan p k) t o → ∃ t1 t2, t = t1 ++ t2 ∧ traces k t2 o.
Proof.
  revert t. induction p as [a|e|c f IH]; intros t; simpl.
  - intros H. by exists [], t.
  - intros H. by exists [], t.
  - intros (r & t' & -> & H). apply IH in H as (t1 & t2 & -> & H).
    by exists (ev c r :: t1), t2.
Qed.

(** When a task has failed, the combined promise does not resolve. *)
Lemma traces_orphan_Throw {A R} (p : Prog A) e t (x : R) :
  ¬ traces (orphan p (Throw e)) t (Ok x).
Proof. intros (t1 & t2 & _ & _ & [=])%traces_orphan. Qed.

Lemma traces_both {A B} (p : Prog A) (q : Prog B) t a b :
  traces (both p q) t (Ok (a, b)) →
  ∃ tp tq, traces p tp (Ok a) ∧ traces q tq (Ok b) ∧ t = tp ++ tq.
Proof.
  revert t. induction p as [a'|e|c k IH]; intros t; simpl.
  - rewrite traces_bind.
    intros [(e & _ & ?)|(b' & t1 & t2 & Hq & [-> [= <- <-]] & ->)]; [done|].
    exists [], t1. by rewrite app_nil_r.
  - by intros ?%traces_orphan_Throw.
  - intros (r & t' & -> & H). apply IH in H as (tp & tq & Hp & Hq & ->).
    exists (ev c r :: tp), tq. split_and!; [|done..]. by exists r, tp.
Qed.

Lemma traces_interleave {A B} schedule (p : Prog A) (q : Prog B) t a b :
  traces (interleave schedule p q) t (Ok (a, b)) →
  ∃ tp tq, traces p tp (Ok a) ∧ traces q tq (Ok b) ∧ Merge tp tq t.
Proof.
  assert (Hboth : ∀ (p : Prog A) (q : Prog B) t,
    traces (both p q) t (Ok (a, b)) →
    ∃ tp tq, traces p tp (Ok a) ∧ traces q tq (Ok b) ∧ Merge tp tq t).
  { intros p' q' t' (tp & tq & ? & ? & ->)%traces_both.
    exists tp, tq. eauto using Merge_app. }
  revert p q t. induction schedule as [|[] rest IH]; intros p q t H.
  - destruct p as [a'|e|c k], q as [b'|e'|c' k']; cbn [interleave] in H;
      try (by apply traces_orphan_Throw in H); by apply Hboth.
  - destruct p as [a'|e|c k]; [| |].
    + destruct q as [b'|e'|c' k']; cbn [interleave] in H;
        try (by apply traces_orphan_Throw in H); by apply Hboth.
    + destruct q; cbn [interleave] in H; by apply traces_orphan_Throw in H.
    + assert (traces (segment (Vis c k) (λ p', interleave rest p' q)) t
                (Ok (a, b))) as H'.
      { destruct q as [b'|e'|c' k']; cbn [interleave] in H;
          [done|by apply traces_orphan_Throw in H|done]. }
      apply traces_segment in H' as (t1 & p' & t2 & Hs & H' & ->).
      apply IH in H' as (tp & tq & Hp & Hq & Hm).
      exists (t1 ++ tp), tq. eauto using steps_traces, Merge_app_l.
  - destruct q as [b'|e'|c' k']; [| |].
    + destruct p as [a'|e|c k]; cbn [interleave] in H;
        try (by apply traces_orphan_Throw in H); by apply Hboth.
    + destruct p; cbn [interleave] in H; by apply traces_orphan_Throw in H.
    + assert (traces (segment (Vis c' k') (λ q', interleave rest p q')) t
                (Ok (a, b))) as H'.
      { destruct p as [a'|e|c k]; cbn [interleave] in H;
          [done|by apply traces_orphan_Throw in H|done]. }
      apply traces_segment in H' as (t1 & q' & t2 & Hs & H' & ->).
      apply IH in H' as (tp & tq & Hp & Hq & Hm).
      exists tp, (t1 ++ tq). eauto using steps_traces, Merge_app_r.
Qed.

Lemma traces_Promise_all {A B} schedule (p : Prog A) (q : Prog B) t a b :
  traces (Promise_all schedule p q) t (Ok (a, b)) →
  ∃ tp tq, traces p tp (Ok a) ∧ traces q tq (Ok b) ∧ Merge tp tq t.
Proof.
  unfold Promise_all. intros H.
  apply traces_segment in H as (t1 & p' & t2 & Hp & H & ->).
  apply traces_segment in H as (t3 & q' & t4 & Hq & H & ->).
  apply traces_interleave in H as (tp & tq & Hp' & Hq' & Hm).
  exists (t1 ++ tp), (t3 ++ tq). split_and!; eauto using steps_traces.
  apply Merge_app_l, Merge_app_r, Hm.
Qed.

Lemma always_orphan {A R} P Q Q' (p : Prog A) (k : Prog R) :
  always P Q' p → always P Q k → always P Q (orphan p k).
Proof.
  intros Hp Hk. induction p as [a|e|c f IH]; simpl in *; [done..|].
  destruct Hp as [? Hf]. split; auto.
Qed.

Lemma always_both {A B} P Q (p : Prog A) (q : Prog B) :
  always P Q p → always P Q q → always P Q (both p q).
Proof.
  intros Hp Hq. induction p as [a|e|c k IH]; simpl in *.
  - by apply always_bind.
  - by eapply always_orphan.
  - destruct Hp as [? Hk]. split; auto.
Qed.

Lemma always_interleave {A B} P Q schedule (p : Prog A) (q : Prog B) :
  always P Q p → always P Q q → always P Q (interleave schedule p q).
Proof.
  assert (Ho : ∀ X Y (x : Prog X) e, always P Q x →
                 Q e → always P Q (orphan x (Throw e : Prog Y))).
  { intros X Y x e Hx He. by eapply always_orphan. }
  revert p q. induction schedule as [|[] rest IH]; intros p q Hp Hq.
  - destruct p, q; cbn [interleave]; auto using always_both.
  - destruct p as [a|e|c k], q as [b|e'|c' k']; cbn [interleave];
      auto using always_both.
    all: apply always_segment; auto.
  - destruct p as [a|e|c k], q as [b|e'|c' k']; cbn [interleave];
      auto using always_both.
    all: apply always_segment; auto.
Qed.

Lemma always_Promise_all {A B} P Q schedule (p : Prog A) (q : Prog B) :
  always P Q p → always P Q q → always P Q (Promise_all schedule p q).
Proof.
  intros. unfold Promise_all.
  apply always_segment; [done|]. intros p' ?.
  apply always_segment; [done|]. intros q' ?.
  by apply always_interleave.
Qed.

(** *** Failure of one of the two tasks *)

Lemma interleave_Throw_l {A B} schedule e (q : Prog B) :
  interleave schedule (Throw e : Prog A) q = orphan q (Throw e).
Proof. by destruct schedule as [|[]]. Qed.

Lemma run_orphan (E : Env) {A R} (p : Prog A) (k : Prog R) (w : world E) :
  run E (orphan p k) w =
    let r := run E k (final (run E p w)) in
    mkRun (outcome r) (final r) (trace (run E p w) ++ trace r).
Proof.
  revert w. induction p as [a|e|c f IH]; intros w; simpl.
  - by destruct (run E k w).
  - by destruct (run E k w).
  - by rewrite IH.
Qed.

Lemma run_segment_orphan (E : Env) {A R} (p : Prog A) (k : Prog R) (w : world E) :
  run E (segment p (λ p', orphan p' k)) w = run E (orphan p k) w.
Proof.
  revert w. induction p as [a|e|c f IH]; intros w; simpl; [done..|].
  destruct (awaited c); simpl; [done|]. by rewrite IH.
Qed.

(** When the first task throws before its first awaited call, the second
    task has still been started: it makes all its calls, and the combined
    promise is rejected with the error of the first. *)
Lemma run_Promise_all_first_throws (E : Env) {A B} schedule e (q : Prog B)
  (w : world E) :
  let r := run E (Promise_all schedule (Throw e : Prog A) q) w in
  outcome r = Err e
  ∧ trace r = trace (run E q w)
  ∧ final r = final (run E q w).
Proof.
  unfold Promise_all. cbn [segment].
  assert (Heq : ∀ w, run E (segment q (λ q', interleave schedule
                                              (Throw e : Prog A) q')) w
                     = run E (orphan q (Throw e : Prog (A * B))) w).
  { intros w0. rewrite <- run_segment_orphan. clear.
    revert w0. induction q as [b|e'|c f IH]; intros w0; simpl.
    - by rewrite interleave_Throw_l.
    - by rewrite interleave_Throw_l.
    - destruct (awaited c); simpl.
      + by rewrite interleave_Throw_l, <- run_segment_orphan.
      + by rewrite IH. }
  rewrite Heq, run_orphan. simpl. by rewrite app_nil_r.
Qed.

(** So a [load] with [SYNC_ALWAYS] for a stream without a handler has
    looked the stream up locally, with all the calls of
    [fromMemoryOrStore], before it fails. *)
Lemma loadSyncAlways_without_handler (E : Env) schedule id o e (w : world E) :
  answer E (HandlersGet (typeName id)) w = inl e →
  let w1 := after E (HandlersGet (typeName id)) w in
  let r := run E (loadSyncAlways schedule id o) w in
  outcome r = Err (Rejected e)
  ∧ trace r = ev (HandlersGet (typeName id)) (inl e)
              :: trace (run E (fromMemoryOrStore id) w1).
Proof.
  intros Hh w1 r. subst r. unfold loadSyncAlways. rewrite run_bind.
  assert (HP : run E (Promise_all schedule (fromNetwork id)
                        (fromMemoryOrStore id)) w
               = let r := run E (Promise_all schedule
                                   (Throw (Rejected e) : Prog Ref)
                                   (fromMemoryOrStore id)) w1 in
                 mkRun (outcome r) (final r)
                   (ev (HandlersGet (typeName id)) (inl e) :: trace r)).
  { unfold Promise_all, fromNetwork. simpl. by rewrite Hh. }
  rewrite HP.
  destruct (run_Promise_all_first_throws E (A := Ref) schedule (Rejected e)
              (fromMemoryOrStore id) w1) as (Ho & Ht & _).
  cbv zeta in *. cbn [outcome final trace]. by rewrite Ho, Ht.
Qed.

(** ** Counting the calls to [sync] *)

Lemma syncs_app t1 t2 : syncs (t1 ++ t2) = syncs t1 ++ syncs t2.
Proof. unfold syncs, calls. by rewrite fmap_app, filter_app. Qed.

Lemma syncs_cons_sync e t :
  is_Sync (projT1 e) = true → syncs (e :: t) = projT1 e :: syncs t.
Proof.
  intros H. unfold syncs, calls. rewrite fmap_cons, filter_cons.
  destruct (decide (is_Sync (projT1 e))) as [|Hn]; [done|]. by rewrite H in Hn.
Qed.

Lemma syncs_cons_other e t :
  is_Sync (projT1 e) = false → syncs (e :: t) = syncs t.
Proof.
  intros H. unfold syncs, calls. rewrite fmap_cons, filter_cons.
  destruct (decide (is_Sync (projT1 e))) as [Hy|]; [|done]. by rewrite H in Hy.
Qed.

Lemma syncs_quiet t : Forall quiet (calls t) → syncs t = [].
Proof.
  unfold syncs. induction 1 as [|c l [Hc _] _ IH]; [done|].
  rewrite filter_cons. destruct (decide (is_Sync c)) as [H|]; [|done].
  by rewrite Hc in H.
Qed.

Ltac syncs_norm :=
  repeat first
    [ rewrite syncs_app
    | rewrite syncs_cons_sync by done
    | rewrite syncs_cons_other by done ].

(** ** The loaders make no call to [sync] or to the capability check *)

(** Walks through a program to show that all its calls and errors are of a
    given kind. *)
Ltac solve_always :=
  repeat first
    [ done
    | match goal with
      | |- always _ _ (when ?b _) => unfold when; destruct b
      | |- always _ _ (match ?x with _ => _ end) => destruct x
      | |- always _ _ (bind (match ?x with _ => _ end) _) => destruct x
      | |- always _ _ (bind _ _) => apply always_bind
      | |- _ ∧ _ => split
      | |- ∀ _, _ => intros ?
      end
    | progress cbn ].


Lemma quiet_fromMemoryOrStore id : always quiet not_expired (fromMemoryOrStore id).
Proof.
  unfold fromMemoryOrStore, fromMemory, fromStreamStateStore, add. solve_always.
Qed.

Lemma quiet_fromNetwork id : always quiet not_expired (fromNetwork id).
Proof. unfold fromNetwork, add. solve_always. Qed.

Lemma quiet_loadGenesis id : always quiet not_expired (_loadGenesis id).
Proof.
  unfold _loadGenesis. apply always_bind.
  { unfold fromMemory. solve_always. }
  intros [s|]; [done|]. apply always_bind.
  { unfold fromStreamStateStore, add. solve_always. }
  intros [s|]; [solve_always|]. apply always_bind; [|done].
  apply quiet_fromNetwork.
Qed.

Lemma quiet_Promise_all schedule id :
  always quiet not_expired
    (Promise_all schedule (fromNetwork id) (fromMemoryOrStore id)).
Proof.
  apply always_Promise_all;
    [apply quiet_fromNetwork|apply quiet_fromMemoryOrStore].
Qed.

Lemma no_check_loadTask schedule id opts :
  always (λ c, is_Check c = false) not_expired (loadTask schedule id opts).
Proof.
  assert (Hg : always (λ c, is_Check c = false) not_expired (_loadGenesis id)).
  { eapply always_mono, quiet_loadGenesis; [by intros ? []|done]. }
  assert (Hp : always (λ c, is_Check c = false) not_expired
                 (loadPreferCache id opts)).
  { unfold loadPreferCache. apply always_bind; [done|].
    intros [s []]; solve_always. }
  unfold loadTask. destruct (get (sync _)) as [[]|]; [done| |done|done|done].
  unfold loadSyncAlways, localTip. apply always_bind.
  { eapply always_mono, quiet_Promise_all; [by intros ? []|done]. }
  intros [net [l|]]; solve_always.
Qed.

Lemma no_check_load schedule id opts :
  truthy (get (skipCacaoExpirationChecks (spread DEFAULT_LOAD_OPTS opts))) = true →
  always (λ c, is_Check c = false) not_expired (load schedule id opts).
Proof.
  intros Hskip. unfold load. apply always_bind.
  - apply always_bind; [solve_always|]. intros _. apply no_check_loadTask.
  - intros [s synced]. unfold finishLoad. rewrite Hskip. solve_always.
Qed.

Lemma traces_fromNetwork id t s :
  traces (fromNetwork id) t (Ok s) →
  ∃ st, ev (NewRunningState st false) s ∈ t.
Proof.
  unfold fromNetwork, add. simpl.
  intros ([e|h] & t1 & -> & H); simpl in H; [by destruct H|].
  destruct H as ([e|[cd|]] & t2 & -> & H); simpl in H;
    [by destruct H| |by destruct H].
  destruct H as ([] & t3 & -> & [e|st] & t4 & -> & H); simpl in H;
    [by destruct H|].
  destruct H as (s' & t5 & -> & sid & t6 & -> & [] & t7 & -> & [] & t8
                 & -> & -> & [= ->]).
  exists st. rewrite !elem_of_cons. auto 10.
Qed.

(** ** The reference environment meets the contracts *)

Lemma reference_pure_observers : pure_observers Reference.env.
Proof. intros c w H. by destruct c. Qed.

Lemma reference_add_marks_pinned : add_marks_pinned Reference.env.
Proof.
  intros s force w. unfold answer, after.
  cbn [handle Reference.env Reference.respond].
  destruct (_ !! s) as [r|] eqn:Hs; cbn [fst snd]; [|done].
  intros _. unfold Reference.deref. cbn. by rewrite list_lookup_alter_eq, Hs.
Qed.

(** ** The three tiers of [_loadGenesis] *)

Section Tiers.
Context (E : Env).

Lemma run_fromMemory w id :
  run E (fromMemory id) w =
    match answer E (CacheGet (toString id)) w with
    | Some s => mkRun (Ok (Some s))
                  (after E (MetricsCount CACHE_HIT_MEMORY 1)
                     (after E (CacheGet (toString id)) w))
                  (memory_hit id s)
    | None => mkRun (Ok None) (after E (CacheGet (toString id)) w)
                [ev (CacheGet (toString id)) None]
    end.
Proof.
  unfold fromMemory, memory_hit. simpl.
  destruct (answer E (CacheGet (toString id)) w); simpl; by unit_answers.
Qed.

Lemma run_fromStreamStateStore w id :
  let r := run E (fromStreamStateStore id) w in
  (∃ st s sid request anchorService,
      trace r = store_hit id st s sid request anchorService
      ∧ outcome r = Ok (Some s))
  ∨ (trace r = [ev (StateStoreLoad id) (inr None)] ∧ outcome r = Ok None)
  ∨ (∃ t last e, trace r = t ++ [last] ∧ failed last = true
                 ∧ outcome r = Err (Rejected e)).
Proof.
  unfold fromStreamStateStore, store_hit, rehydration. simpl.
  destruct (answer E (StateStoreLoad id) w) as [e|[st|]] eqn:H1; simpl.
  - right. right. by exists [], (ev (StateStoreLoad id) (inl e)), e.
  - match goal with |- context [answer E (AnchorRequestStoreLoad id) ?w] =>
      destruct (answer E (AnchorRequestStoreLoad id) w) as [e|[req|]] eqn:H2
    end; simpl.
    + right. right. eexists (_ :: _ :: _ :: _ :: [_]), _, e.
      unit_answers. split_and!; [reflexivity|done..].
    + left.
      match goal with |- context [answer E AnchorServicePresent ?w] =>
        destruct (answer E AnchorServicePresent w) eqn:H3
      end; simpl; unit_answers;
        [eexists st, _, _, (Some req), true|eexists st, _, _, (Some req), false];
        split; reflexivity.
    + left. unit_answers. by eexists st, _, _, None, true.
  - right. left. done.
Qed.

Lemma run_fromNetwork w id :
  let r := run E (fromNetwork id) w in
  (∃ h cd st s sid, trace r = network_load id h cd st s sid ∧ outcome r = Ok s)
  ∨ (∃ h, trace r = [ev (HandlersGet (typeName id)) (inr h);
                     ev (GetCommitData (cid id) id) (inr None)]
          ∧ outcome r = Err (NoGenesisCommit (cid id)))
  ∨ (∃ t last e, trace r = t ++ [last] ∧ failed last = true
                 ∧ outcome r = Err (Rejected e)).
Proof.
  unfold fromNetwork, network_load. simpl.
  destruct (answer E (HandlersGet (typeName id)) w) as [e|h] eqn:H1; simpl.
  { right. right. by eexists [], _, e. }
  match goal with |- context [answer E (GetCommitData ?c ?i) ?w] =>
    destruct (answer E (GetCommitData c i) w) as [e|[cd|]] eqn:H2
  end; simpl.
  { right. right. by eexists [_], _, e. }
  2: { right. left. by exists h. }
  match goal with |- context [answer E (HandlerApplyCommit ?c ?i) ?w] =>
    destruct (answer E (HandlerApplyCommit c i) w) as [e|st] eqn:H3
  end; simpl.
  { right. right. unit_answers. by eexists (_ :: _ :: [_]), _, e. }
  left. unit_answers. by eexists h, cd, st, _, _.
Qed.

(** C1 (as amended).  [_loadGenesis] probes the memory cache, then the state
    store, then the network, and every run has one of five shapes.  A memory
    hit returns [(state, true)].  A state-store hit builds a running state
    with [isPinned = true], adds it to the cache, asks the anchor request
    store, calls [confirmAnchorResponse] when a request is stored and the
    state manager has an anchor service (and only then), and returns
    [(state, wasPinnedStreamSynced(streamId))].  Otherwise the genesis commit
    is fetched, applied by the handler with [disableTimecheck = true],
    wrapped as a running state with [isPinned = false], added to the cache,
    and returned with [synced = false].  The two other shapes are the
    failures: no genesis commit, or the last call was rejected. *)
Theorem loadGenesis_tiers w id :
  let r := run E (_loadGenesis id) w in
  (∃ s, trace r = memory_hit id s ∧ outcome r = Ok (s, true))
  ∨ (∃ st s sid request anchorService synced,
       trace r = ev (CacheGet (toString id)) None
                 :: store_hit id st s sid request anchorService
                 ++ [ev (WasPinnedStreamSynced id) synced]
       ∧ outcome r = Ok (s, synced))
  ∨ (∃ h cd st s sid,
       trace r = ev (CacheGet (toString id)) None
                 :: ev (StateStoreLoad id) (inr None)
                 :: network_load id h cd st s sid
       ∧ outcome r = Ok (s, false))
  ∨ (∃ h, trace r = [ev (CacheGet (toString id)) None;
                     ev (StateStoreLoad id) (inr None);
                     ev (HandlersGet (typeName id)) (inr h);
                     ev (GetCommitData (cid id) id) (inr None)]
          ∧ outcome r = Err (NoGenesisCommit (cid id)))
  ∨ (∃ t last e, trace r = ev (CacheGet (toString id)) None :: t ++ [last]
                 ∧ failed last = true ∧ outcome r = Err (Rejected e)).
Proof.
  intros r. subst r. unfold _loadGenesis. rewrite run_bind, run_fromMemory.
  destruct (answer E (CacheGet (toString id)) w) as [s|];
    cbn [outcome final trace app].
  { left. by exists s. }
  right. rewrite run_bind.
  match goal with |- context [run E (fromStreamStateStore id) ?w] =>
    pose proof (run_fromStreamStateStore w id) as Hs;
    destruct (run E (fromStreamStateStore id) w) as [o f t]
  end.
  simpl in Hs.
  destruct Hs as [(st & s & sid & req & b & -> & ->)
                 |[[-> ->]|(t' & last & e & -> & ? & ->)]];
    cbn [outcome final trace app].
  - left. eexists st, s, sid, req, b, _. done.
  - right. rewrite run_bind.
    match goal with |- context [run E (fromNetwork id) ?w] =>
      pose proof (run_fromNetwork w id) as Hn;
      destruct (run E (fromNetwork id) w) as [o' f' t']
    end.
    simpl in Hn.
    destruct Hn as [(h & cd & st & s & sid & -> & ->)
                   |[(h & -> & ->)|(t'' & last & e & -> & ? & ->)]]; simpl.
    + left. by exists h, cd, st, s, sid.
    + right. left. by exists h.
    + right. right. by exists (ev (StateStoreLoad id) (inr None) :: t''), last, e.
  - right. right. right. by exists t', last, e.
Qed.

End Tiers.

(** C1, counterexample.  In [w_stored] the state store holds the stream, the
    anchor request store holds a request for it, and the node has no anchor
    service: [_loadGenesis] returns the stored state without any call to
    [confirmAnchorResponse]. *)
Lemma loadGenesis_without_anchor_service :
  ¬ rehydrates_persisted_request Examples.w_stored Examples.idA.
Proof.
  intros H.
  destruct (H Examples.stateA Examples.requestA) as [s Hs]; [reflexivity..|].
  vm_compute in Hs.
  repeat (apply elem_of_cons in Hs as [Hs|Hs]; [discriminate Hs|]).
  by apply elem_of_nil in Hs.
Qed.

(** ** [load] *)

Section Load.
Context (E : Env).

Lemma run_queue w id :
  run E (orThrow (call (LoadingQRun id))) w =
    match answer E (LoadingQRun id) w with
    | inl e => mkRun (Err (Rejected e)) (after E (LoadingQRun id) w)
                 [ev (LoadingQRun id) (inl e)]
    | inr u => mkRun (Ok u) (after E (LoadingQRun id) w)
                 [ev (LoadingQRun id) (inr u)]
    end.
Proof. simpl. by destruct (answer E (LoadingQRun id) w). Qed.

Lemma run_finishLoad w opts s synced :
  let r := run E (finishLoad opts s synced) w in
  (outcome r = Ok s ↔ Forall (λ e, failed e = false) (trace r))
  ∧ (outcome r = Ok s ∨ outcome r = Err CapabilityExpired)
  ∧ syncs (trace r) = [].
Proof.
  unfold finishLoad. simpl.
  destruct (truthy _); simpl.
  - destruct synced; simpl; [|by repeat constructor].
    destruct (answer E (RsIsPinned s) w); simpl; unit_answers;
      split_and!; auto; split; auto; by repeat constructor.
  - destruct (answer E (CheckForCacaoExpiration _) _) eqn:Hc; simpl.
    + destruct synced; simpl.
      * match goal with |- context [answer E (RsIsPinned s) ?w] =>
          destruct (answer E (RsIsPinned s) w) end; simpl; unit_answers;
          split_and!; auto; split; auto; by repeat constructor.
      * split_and!; auto; split; auto; by repeat constructor.
    + split_and!; auto. split; [done|].
      intros H. apply Forall_cons in H as [_ H].
      by apply Forall_cons in H as [? _].
Qed.

(** C2.  With [opts.sync] equal to [PREFER_CACHE] or [SYNC_ON_ERROR] (after
    the defaults are merged in), once the queue has admitted the task and
    [_loadGenesis] has returned [(s, b)]: when [b] is true the run makes no
    call to [StateManager.sync]; when [b] is false it makes exactly one, as
    its first call after [_loadGenesis], on [s], with no hint, and with the
    timeout [opts.syncTimeoutSeconds * 1000]: the product, in doubles, of
    the seconds that the caller supplied, 3000 when the caller has left the
    property out, and [NaN] when its value is undefined.  In both cases no
    state other than [s] can be returned, and [s] is returned unless one of
    the calls made after [_loadGenesis] fails (the sync is rejected, or the
    capability check does not pass). *)
Theorem load_syncs_unless_synced w schedule id opts s b :
  let o := spread DEFAULT_LOAD_OPTS opts in
  let g := run E (_loadGenesis id) (after E (LoadingQRun id) w) in
  let r := run E (load schedule id opts) w in
  let timeout := match get (syncTimeoutSeconds o) with
                 | Some seconds => (seconds * 1000)%float
                 | None => nan
                 end in
  get (sync o) = Some PREFER_CACHE ∨ get (sync o) = Some SYNC_ON_ERROR →
  answer E (LoadingQRun id) w = inr () →
  outcome g = Ok (s, b) →
  ∃ rest,
    trace r = ev (LoadingQRun id) (inr ()) :: trace g ++ rest
    ∧ syncs (trace r) = (if b then [] else [Sync s timeout None])
    ∧ (b = false → ∃ a rest', rest = ev (Sync s timeout None) a :: rest')
    ∧ (outcome r = Ok s ↔ Forall (λ e, failed e = false) rest)
    ∧ (∀ s', outcome r = Ok s' → s' = s)
    ∧ (∀ seconds, syncTimeoutSeconds opts = present (Some seconds) →
                  timeout = (seconds * 1000)%float)
    ∧ (syncTimeoutSeconds opts = present None → timeout = nan)
    ∧ (syncTimeoutSeconds opts = absent → timeout = 3000%float).
Proof.
  intros o g r timeout Hmode Hq Hg. subst r.
  assert (Hquiet : syncs (trace g) = []).
  { apply syncs_quiet. eapply always_calls, quiet_loadGenesis. }
  assert (Htask : loadTask schedule id o = loadPreferCache id o).
  { unfold loadTask. by destruct Hmode as [-> | ->]. }
  assert (Hsupplied : ∀ seconds,
            syncTimeoutSeconds opts = present (Some seconds) →
            timeout = (seconds * 1000)%float).
  { intros seconds H. subst timeout o. simpl. by rewrite H. }
  assert (Hundefined : syncTimeoutSeconds opts = present None → timeout = nan).
  { intros H. subst timeout o. simpl. by rewrite H. }
  assert (Hdefault : syncTimeoutSeconds opts = absent → timeout = 3000%float).
  { intros H. subst timeout o. simpl. by rewrite H. }
  unfold load. fold o. rewrite Htask. unfold loadPreferCache, times1000.
  fold timeout. clearbody timeout.
  rewrite !run_bind, run_queue, Hq. cbn [outcome final trace]. fold g.
  destruct g as [og fg tg]. simpl in Hg, Hquiet. subst og.
  cbn [outcome final trace].
  destruct b.
  - cbn [run outcome final trace app].
    destruct (run_finishLoad fg o s true) as (Hok & Hor & Hs).
    destruct (run E (finishLoad o s true) fg) as [o' f' t'].
    cbn [outcome final trace app] in *.
    exists t'. rewrite app_nil_r. split_and!; [done| |done|done| |done..].
    + syncs_norm. by rewrite Hquiet, Hs.
    + intros s' H. destruct Hor as [Hor|Hor]; rewrite Hor in H; by simplify_eq.
  - simpl.
    match goal with |- context [answer E (Sync ?a ?b ?c) ?w] =>
      destruct (answer E (Sync a b c) w) as [e|[]] eqn:Hsync
    end; simpl.
    + eexists [_]. split_and!; [done| |by eauto| |done|done..].
      * syncs_norm. by rewrite Hquiet.
      * split; [done|]. by intros [? _]%Forall_cons.
    + match goal with |- context [run E (finishLoad o s true) ?w] =>
        destruct (run_finishLoad w o s true) as (Hok & Hor & Hs);
        destruct (run E (finishLoad o s true) w) as [o' f' t']
      end.
      cbn [outcome final trace app] in *. unit_answers.
      eexists (_ :: _ :: t'). split_and!; [| |by eauto| | |done..].
      * rewrite <- !app_assoc. reflexivity.
      * syncs_norm. by rewrite Hquiet, Hs.
      * rewrite Hok. split; [by repeat constructor|].
        by intros [_ [_ ?]%Forall_cons]%Forall_cons.
      * intros s' H. destruct Hor as [Hor|Hor]; rewrite Hor in H; by simplify_eq.
Qed.

Lemma run_localTip w local :
  let r := run E (localTip local) w in
  ∃ hint, outcome r = Ok hint
    ∧ match local with
      | Some l => ∃ tip, hint = Some tip ∧ trace r = [ev (RsTip l) tip]
      | None => hint = None ∧ trace r = []
      end.
Proof. destruct local; simpl; eauto. Qed.

Lemma run_loadSyncAlways w schedule id o :
  let P := run E (Promise_all schedule (fromNetwork id) (fromMemoryOrStore id)) w in
  let r := run E (loadSyncAlways schedule id o) w in
  let timeout := times1000 (get (syncTimeoutSeconds o)) in
  match outcome P with
  | Err e => outcome r = Err e ∧ trace r = trace P
  | Ok (net, local) =>
      ∃ hint reads a,
        match local with
        | Some l => ∃ tip, hint = Some tip ∧ reads = [ev (RsTip l) tip]
        | None => hint = None ∧ reads = []
        end
        ∧ trace r = trace P ++ reads ++ ev (Sync net timeout hint) a
                    :: (if rejected a then []
                        else [ev (MetricsCount STREAM_SYNC 1) ()])
        ∧ outcome r = match a with
                      | inr _ => Ok (net, true)
                      | inl e => Err (Rejected e)
                      end
  end.
Proof.
  intros P r timeout. subst r. unfold loadSyncAlways. rewrite run_bind. fold P.
  destruct P as [[[net local]|e] fP tP]; cbn [outcome final trace]; [|done].
  rewrite run_bind.
  destruct (run_localTip fP local) as (hint & Ho & Hl).
  destruct (run E (localTip local) fP) as [ol fl tl].
  cbn [outcome final trace] in *. subst ol. simpl.
  destruct (answer E (Sync net _ hint) fl) as [e|[]] eqn:Ha; simpl.
  - exists hint, tl, (inl e). split_and!; [|done..].
    destruct local as [l|]; [destruct Hl as (tip & -> & ->); eauto|done].
  - exists hint, tl, (inr ()). unit_answers. split_and!; [|done..].
    destruct local as [l|]; [destruct Hl as (tip & -> & ->); eauto|done].
Qed.

(** C3.  With [opts.sync] equal to [SYNC_ALWAYS], for every schedule of the
    event loop: the memory lookup of the local copy is made while the fetch
    of the genesis commit is pending (both tasks are started before either
    goes on); the run makes at most one call to [StateManager.sync]; and
    when [load] returns [s], the calls of the two tasks are an interleaving
    of a run of [fromNetwork], whose result is [s] (a running state created
    with [isPinned = false]), and of a run of [fromMemoryOrStore], whose
    result is the local copy; [sync] is then called once, on [s], with the
    timeout of the options and, as hint, the tip of the local copy when
    there is one and nothing otherwise. *)
Theorem load_sync_always w schedule id opts :
  let o := spread DEFAULT_LOAD_OPTS opts in
  let r := run E (load schedule id opts) w in
  let timeout := times1000 (get (syncTimeoutSeconds o)) in
  get (sync o) = Some SYNC_ALWAYS →
  (∀ h, answer E (LoadingQRun id) w = inr () →
        answer E (HandlersGet (typeName id)) (after E (LoadingQRun id) w) = inr h →
        take 4 (calls (trace r)) =
          [LoadingQRun id; HandlersGet (typeName id);
           GetCommitData (cid id) id; CacheGet (toString id)])
  ∧ (List.length (syncs (trace r)) ≤ 1)%nat
  ∧ ∀ s, outcome r = Ok s →
      ∃ tn tl local copies hint reads rest,
        traces (fromNetwork id) tn (Ok s)
        ∧ traces (fromMemoryOrStore id) tl (Ok local)
        ∧ Merge tn tl copies
        ∧ match local with
          | Some l => ∃ tip, hint = Some tip ∧ reads = [ev (RsTip l) tip]
          | None => hint = None ∧ reads = []
          end
        ∧ trace r = ev (LoadingQRun id) (inr ()) :: copies ++ reads
                    ++ ev (Sync s timeout hint) (inr ())
                    :: ev (MetricsCount STREAM_SYNC 1) () :: rest
        ∧ syncs (trace r) = [Sync s timeout hint]
        ∧ ∃ st, ev (NewRunningState st false) s ∈ tn.
Proof.
  intros o r timeout Hmode. subst r.
  assert (Htask : loadTask schedule id o = loadSyncAlways schedule id o).
  { unfold loadTask. by rewrite Hmode. }
  unfold load. fold o. rewrite Htask. clear Htask.
  set (P := Promise_all schedule (fromNetwork id) (fromMemoryOrStore id)).
  assert (HquietP : ∀ w', syncs (trace (run E P w')) = []).
  { intros w'. apply syncs_quiet. eapply always_calls, quiet_Promise_all. }
  split; [|split].
  - intros h Hq Hh. rewrite run_bind, run_bind, run_queue, Hq.
    cbn [outcome final trace].
    unfold loadSyncAlways. fold P.
    destruct (trace_bind_prefix E P
      (λ copies, let '(fromNetwork', fromMemoryOrStore') := copies in
         tip <- localTip fromMemoryOrStore' ;;
         orThrow (call (Sync fromNetwork'
                (times1000 (get (syncTimeoutSeconds o))) tip)) ;;
         call (MetricsCount STREAM_SYNC 1) ;;
         Ret (fromNetwork', true))
      (after E (LoadingQRun id) w)) as [t Ht].
    assert (HP : ∃ a b t', trace (run E P (after E (LoadingQRun id) w)) =
              ev (HandlersGet (typeName id)) (inr h)
              :: ev (GetCommitData (cid id) id) a
              :: ev (CacheGet (toString id)) b :: t').
    { unfold P, Promise_all, fromNetwork, fromMemoryOrStore, fromMemory.
      simpl. rewrite Hh. simpl. eauto. }
    destruct HP as (a & b & t' & HP). rewrite HP in Ht.
    match goal with |- context [match ?x with Ok _ => _ | Err _ => _ end] =>
      destruct x end; cbn [outcome final trace app]; rewrite Ht; done.
  - rewrite run_bind, run_bind, run_queue.
    destruct (answer E (LoadingQRun id) w) as [e|[]];
      cbn [outcome final trace app]; [simpl; lia|].
    pose proof (run_loadSyncAlways (after E (LoadingQRun id) w) schedule id o) as HS.
    cbv zeta in HS. fold P in HS. specialize (HquietP (after E (LoadingQRun id) w)).
    destruct (run E P (after E (LoadingQRun id) w)) as [[[net local]|e] fP tP];
      destruct (run E (loadSyncAlways schedule id o) (after E (LoadingQRun id) w))
        as [oS fS tS]; cbn [outcome final trace] in *.
    + destruct HS as (hint & reads & a & Hl & -> & ->).
      assert (syncs reads = []) as Hreads.
      { destruct local; [by destruct Hl as (? & _ & ->)|by destruct Hl as [_ ->]]. }
      destruct a as [e|[]]; cbn [outcome final trace app].
      * syncs_norm. rewrite HquietP, Hreads. simpl. lia.
      * destruct (run_finishLoad fS o net true) as (_ & _ & Hs).
        destruct (run E (finishLoad o net true) fS) as [o' f' t'].
        cbn [outcome final trace app] in *.
        syncs_norm. rewrite HquietP, Hreads, Hs. simpl. lia.
    + destruct HS as [-> ->]. cbn [outcome final trace app].
      syncs_norm. rewrite HquietP. simpl. lia.
  - intros s Hs. rewrite run_bind, run_bind, run_queue in Hs |- *.
    destruct (answer E (LoadingQRun id) w) as [e|[]];
      cbn [outcome final trace app] in Hs |- *; [done|].
    pose proof (run_loadSyncAlways (after E (LoadingQRun id) w) schedule id o) as HS.
    cbv zeta in HS. fold P in HS.
    pose proof (run_traces E P (after E (LoadingQRun id) w)) as HT.
    specialize (HquietP (after E (LoadingQRun id) w)).
    destruct (run E P (after E (LoadingQRun id) w)) as [[[net local]|e] fP tP];
      destruct (run E (loadSyncAlways schedule id o) (after E (LoadingQRun id) w))
        as [oS fS tS]; cbn [outcome final trace] in *.
    2: { destruct HS as [-> ->]. done. }
    destruct HS as (hint & reads & a & Hl & -> & ->).
    destruct a as [e|[]]; cbn [outcome final trace app] in *; [done|].
    destruct (run_finishLoad fS o net true) as (_ & Hor & Hsy).
    destruct (run E (finishLoad o net true) fS) as [o' f' t'].
    cbn [outcome final trace app] in *. subst o'.
    assert (net = s) as ->.
    { destruct Hor as [Hor|Hor]; by simplify_eq. }
    apply traces_Promise_all in HT as (tn & tl & Hn & Hl' & Hm).
    assert (syncs reads = []) as Hreads.
    { destruct local; [by destruct Hl as (? & _ & ->)|by destruct Hl as [_ ->]]. }
    exists tn, tl, local, tP, hint, reads, t'. split_and!; try done.
    + by rewrite <- !app_assoc.
    + syncs_norm. by rewrite HquietP, Hreads, Hsy.
    + by eapply traces_fromNetwork.
Qed.

Lemma timeout_load w schedule id opts :
  Forall (λ c, ∀ t, timeout_of c = Some t →
                    t = times1000 (get (syncTimeoutSeconds
                                          (spread DEFAULT_LOAD_OPTS opts))))
    (calls (trace (run E (load schedule id opts) w))).
Proof.
  eapply always_calls with (Q := λ _, True).
  assert (Hq : ∀ A (p : Prog A), always quiet not_expired p →
    always (λ c, ∀ t, timeout_of c = Some t →
              t = times1000 (get (syncTimeoutSeconds
                                    (spread DEFAULT_LOAD_OPTS opts))))
           (λ _, True) p).
  { intros A p. apply always_mono; [|done].
    intros c [Hc _] t. by destruct c. }
  unfold load. apply always_bind.
  - apply always_bind; [solve_always|]. intros _. unfold loadTask.
    destruct (get (sync _)) as [[]|]; [| | | |done].
    + unfold loadPreferCache. apply always_bind; [apply Hq, quiet_loadGenesis|].
      intros [s []]; solve_always; by simplify_eq/=.
    + unfold loadSyncAlways, localTip.
      apply always_bind; [apply Hq, quiet_Promise_all|].
      intros [net [l|]]; solve_always; by simplify_eq/=.
    + apply Hq, quiet_loadGenesis.
    + unfold loadPreferCache. apply always_bind; [apply Hq, quiet_loadGenesis|].
      intros [s []]; solve_always; by simplify_eq/=.
  - intros [s synced]. unfold finishLoad, checkForCacaoExpiration. solve_always.
Qed.

(** C9 (as amended).  A [load] whose options have no [sync] property is
    the same program as the [load] with [sync: PREFER_CACHE], and a [load]
    whose options have no [syncTimeoutSeconds] property is the same program
    as the one with [syncTimeoutSeconds: 3]: every call to [sync] it makes
    has a timeout of 3000 ms.  A property that the caller supplies
    overrides the default, whatever its value: every call to [sync] has the
    timeout [v * 1000] for the supplied [v] ([NaN] when [v] is
    [undefined]), a supplied sync mode selects the branch that [load] runs,
    and a [sync] property supplied with the value [undefined] ends in the
    error of an invalid sync option. *)
Theorem load_defaults w schedule id opts :
  load schedule id (with_sync absent opts)
    = load schedule id (with_sync (present (Some PREFER_CACHE)) opts)
  ∧ load schedule id (with_syncTimeoutSeconds absent opts)
    = load schedule id (with_syncTimeoutSeconds (present (Some 3%float)) opts)
  ∧ Forall (λ c, ∀ t, timeout_of c = Some t → t = 3000%float)
      (calls (trace (run E (load schedule id
                              (with_syncTimeoutSeconds absent opts)) w)))
  ∧ (∀ v, Forall (λ c, ∀ t, timeout_of c = Some t →
                       t = match v with
                           | Some seconds => (seconds * 1000)%float
                           | None => nan
                           end)
            (calls (trace (run E (load schedule id
                                    (with_syncTimeoutSeconds (present v) opts))
                             w))))
  ∧ (∀ mode,
       let o := spread DEFAULT_LOAD_OPTS (with_sync (present (Some mode)) opts) in
       loadTask schedule id o =
         match mode with
         | PREFER_CACHE | SYNC_ON_ERROR => loadPreferCache id o
         | NEVER_SYNC => _loadGenesis id
         | SYNC_ALWAYS => loadSyncAlways schedule id o
         end)
  ∧ (∀ v, get (sync (spread DEFAULT_LOAD_OPTS (with_sync (present v) opts))) = v)
  ∧ (∀ v, get (syncTimeoutSeconds
                 (spread DEFAULT_LOAD_OPTS
                    (with_syncTimeoutSeconds (present v) opts))) = v)
  ∧ skipCacaoExpirationChecks (spread DEFAULT_LOAD_OPTS opts)
    = skipCacaoExpirationChecks opts
  ∧ (answer E (LoadingQRun id) w = inr () →
     outcome (run E (load schedule id (with_sync (present None) opts)) w)
     = Err (InvalidSyncOption None)
     ∧ calls (trace (run E (load schedule id (with_sync (present None) opts)) w))
       = [LoadingQRun id]).
Proof.
  split; [done|]. split; [done|].
  split; [apply (timeout_load w schedule id
                   (with_syncTimeoutSeconds absent opts))|].
  split; [intros v; apply (timeout_load w schedule id
                             (with_syncTimeoutSeconds (present v) opts))|].
  split; [by intros []|]. split; [done|]. split; [done|].
  split; [simpl; by destruct (skipCacaoExpirationChecks opts)|].
  intros Hq. unfold load, loadTask. rewrite !run_bind, run_queue, Hq. done.
Qed.

(** C7.  The base load of [loadAtCommit] runs with
    [skipCacaoExpirationChecks] set: it makes no capability check and cannot
    end with [CapabilityExpired].  [loadAtCommit] ends with
    [CapabilityExpired] exactly when the base load and
    [StateManager.atCommit] succeed and the check, run on the state of the
    snapshot, fails; when the check passes the snapshot is returned.
    ([CapabilityExpired] is the error of the check; what a collaborator
    raises inside [sync] or [atCommit] reaches the caller as it is.) *)
Theorem loadAtCommit_defers_expiration w schedule commitId opts :
  let base := run E (load schedule (baseID commitId) (skippingCACAOChecks opts)) w in
  let r := run E (loadAtCommit schedule commitId opts) w in
  get (skipCacaoExpirationChecks (skippingCACAOChecks opts)) = Some true
  ∧ Forall (λ c, is_Check c = false) (calls (trace base))
  ∧ outcome base ≠ Err CapabilityExpired
  ∧ (outcome r = Err CapabilityExpired ↔
       ∃ b snap,
         outcome base = Ok b
         ∧ answer E (AtCommit b commitId) (final base) = inr snap
         ∧ answer E (CheckForCacaoExpiration (snapshot_state snap))
             (after E (AtCommit b commitId) (final base)) = false)
  ∧ (∀ b snap,
       outcome base = Ok b →
       answer E (AtCommit b commitId) (final base) = inr snap →
       trace r = trace base
                 ++ [ev (AtCommit b commitId) (inr snap);
                     ev (CheckForCacaoExpiration (snapshot_state snap))
                       (answer E (CheckForCacaoExpiration (snapshot_state snap))
                          (after E (AtCommit b commitId) (final base)))]
       ∧ (answer E (CheckForCacaoExpiration (snapshot_state snap))
            (after E (AtCommit b commitId) (final base)) = true →
          outcome r = Ok snap)).
Proof.
  intros base r.
  assert (Hskip : truthy (get (skipCacaoExpirationChecks
            (spread DEFAULT_LOAD_OPTS (skippingCACAOChecks opts)))) = true) by done.
  pose proof (no_check_load schedule (baseID commitId) _ Hskip) as Hno.
  assert (Hbase : outcome base ≠ Err CapabilityExpired).
  { intros H. by eapply (always_error E _ _ _ w _ Hno). }
  split; [done|]. split; [by eapply always_calls|]. split; [done|].
  subst r. unfold loadAtCommit. rewrite run_bind. fold base.
  destruct base as [ob fb tb]. cbn [outcome final trace] in *.
  destruct ob as [b|e]; cbn [outcome final trace].
  - simpl. destruct (answer E (AtCommit b commitId) fb) as [e|snap] eqn:Ha; simpl.
    + split; [|by intros ?? [= <-]; rewrite Ha]. split; [done|].
      intros (? & ? & [= <-] & H & _). by rewrite Ha in H.
    + destruct (answer E (CheckForCacaoExpiration _) _) eqn:Hc; simpl.
      * split.
        { split; [done|]. intros (? & ? & [= <-] & H & H'). rewrite Ha in H.
          injection H as <-. by rewrite Hc in H'. }
        intros ?? [= <-]. rewrite Ha. intros [= <-]. by rewrite Hc.
      * split.
        { split; [|done]. intros _. by exists b, snap. }
        intros ?? [= <-]. rewrite Ha. intros [= <-]. by rewrite Hc.
  - split; [|done]. split; [by intros [= ->]|]. by intros (? & ? & ? & _).
Qed.

End Load.

(** ** Pinning *)

Section Pins.
Context (E : Env).

Lemma run_shouldIndex w s :
  pure_observers E →
  outcome (run E (shouldIndex s) w) = Ok (indexed E w s)
  ∧ final (run E (shouldIndex s) w) = w
  ∧ Forall (λ c, inert c) (calls (trace (run E (shouldIndex s) w))).
Proof.
  intros Hpure. unfold shouldIndex, indexed. simpl.
  rewrite (Hpure (RsState s)) by done.
  destruct (metadata _ ≫= model) as [m|]; simpl.
  - rewrite (Hpure (ShouldIndexStream m)) by done.
    split_and!; [done..|]. repeat constructor.
  - split_and!; [done..|]. repeat constructor.
Qed.

Lemma run_unpin w s opts :
  pure_observers E →
  let r := run E (unpin s opts) w in
  (indexed E w s = true →
   (∃ id m, outcome r = Err (CannotUnpinIndexed id m))
   ∧ final r = w
   ∧ Forall (λ c, inert c) (calls (trace r)))
  ∧ (indexed E w s = false →
     ∃ reads id a,
       Forall (λ c, inert c) (calls reads)
       ∧ trace r =
           reads ++ (if publishes opts then [ev (PublishTip s) ()] else [])
                 ++ [ev (RsId s) id; ev (MarkUnpinned id) (); ev (PinStoreRm s) a]
       ∧ outcome r = match a with
                     | inr _ => Ok ()
                     | inl e => Err (Rejected e)
                     end).
Proof.
  intros Hpure r. subst r. unfold unpin. rewrite run_bind.
  destruct (run_shouldIndex w s Hpure) as (Ho & Hf & Hc).
  destruct (run E (shouldIndex s) w) as [o f t]. simpl in Ho, Hf, Hc. subst o f.
  destruct (indexed E w s) eqn:Hi; simpl.
  - rewrite (Hpure (RsId s)) by done.
    rewrite (Hpure (RsState s)) by done.
    unfold indexed in Hi.
    destruct (metadata (answer E (RsState s) w)) as [md|] eqn:Hmd; [|done].
    simpl. split; [|done]. intros _. split_and!; [eauto|done|].
    unfold calls. rewrite fmap_app.
    apply Forall_app. split; [done|]. repeat constructor.
  - split; [done|]. intros _. unfold publishes. destruct (truthy _); simpl.
    + destruct (answer E (PinStoreRm s) _) as [e|[]] eqn:Hrm; simpl.
      all: unit_answers; eexists t, _, _; split_and!; [done|reflexivity..].
    + destruct (answer E (PinStoreRm s) _) as [e|[]] eqn:Hrm; simpl.
      all: unit_answers; eexists t, _, _; split_and!; [done|reflexivity..].
Qed.

(** C6.  Where reads and logging leave the world as it is: [unpin] raises
    [CannotUnpinIndexed] exactly when the stream has a model that the
    indexing API says is indexed, and then it has only read: nothing is
    published, marked or removed, and the world is unchanged.  Otherwise,
    after its reads, it publishes the tip once when [opts.publish] is truthy
    and not at all when it is not, marks the stream unpinned, and calls
    [pinStore.rm]; its outcome is that of [pinStore.rm]. *)
Theorem unpin_forbids_indexed (Hpure : pure_observers E) w s opts :
  let r := run E (unpin s opts) w in
  ((∃ id m, outcome r = Err (CannotUnpinIndexed id m)) ↔ indexed E w s = true)
  ∧ (indexed E w s = true →
     final r = w ∧ Forall (λ c, inert c) (calls (trace r)))
  ∧ (indexed E w s = false →
     ∃ reads id a,
       Forall (λ c, inert c) (calls reads)
       ∧ trace r =
           reads ++ (if publishes opts then [ev (PublishTip s) ()] else [])
                 ++ [ev (RsId s) id; ev (MarkUnpinned id) (); ev (PinStoreRm s) a]
       ∧ outcome r = match a with
                     | inr _ => Ok ()
                     | inl e => Err (Rejected e)
                     end).
Proof.
  intros r. destruct (run_unpin w s opts Hpure) as [Hyes Hno]. fold r in Hyes, Hno.
  split; [|split]; [|by intros Hi; destruct (Hyes Hi) as (_ & ? & ?)|done].
  split; [|by intros Hi; destruct (Hyes Hi) as (? & _)].
  intros (id & m & Hr). destruct (indexed E w s); [done|].
  destruct Hno as (? & ? & a & _ & _ & Ho); [done|].
  rewrite Hr in Ho. by destruct a.
Qed.

Lemma run_unpin_reads w s opts :
  pure_observers E →
  let r := run E (unpin s opts) w in
  Forall (λ c, is_warn c = false ∧ is_pin_add c = false) (calls (trace r))
  ∧ (indexed E w s = true →
     Forall (λ c, is_read c = true) (calls (trace r)))
  ∧ (indexed E w s = false →
     ∃ reads id a,
       Forall (λ c, index_lookup c = true) (calls reads)
       ∧ trace r =
           reads ++ (if publishes opts then [ev (PublishTip s) ()] else [])
                 ++ [ev (RsId s) id; ev (MarkUnpinned id) (); ev (PinStoreRm s) a]
       ∧ outcome r = match a with
                     | inr _ => Ok ()
                     | inl e => Err (Rejected e)
                     end).
Proof.
  intros Hpure r. subst r. split.
  { eapply always_calls with (Q := λ _, True). unfold unpin, shouldIndex.
    solve_always. }
  unfold unpin. rewrite run_bind.
  destruct (run_shouldIndex w s Hpure) as (Ho & Hf & _).
  assert (Hc : Forall (λ c, index_lookup c = true)
                 (calls (trace (run E (shouldIndex s) w)))).
  { eapply always_calls with (Q := λ _, True). unfold shouldIndex. solve_always. }
  destruct (run E (shouldIndex s) w) as [o f t]. simpl in Ho, Hf, Hc. subst o f.
  destruct (indexed E w s) eqn:Hi; simpl.
  - split; [|done]. intros _.
    assert (Ht : Forall (λ c, is_read c = true) (calls t)).
    { eapply Forall_impl; [exact Hc|]. intros c. by destruct c. }
    destruct (metadata (answer E (RsState s) _)); simpl.
    all: unfold calls; rewrite fmap_app; apply Forall_app; split; [done|].
    all: repeat constructor.
  - split; [done|]. intros _. unfold publishes. destruct (truthy _); simpl.
    + destruct (answer E (PinStoreRm s) _) as [e|[]] eqn:Hrm; simpl.
      all: unit_answers; eexists t, _, _; split_and!; [done|reflexivity..].
    + destruct (answer E (PinStoreRm s) _) as [e|[]] eqn:Hrm; simpl.
      all: unit_answers; eexists t, _, _; split_and!; [done|reflexivity..].
Qed.

(** C5 (as amended).  For a CREATE with [opts.pin === false],
    [handlePinOpts] is [unpin(state$)] without publish options: no call of
    the run is a warning or [pinStore.add]; where reads and logging leave
    the world as it is, it raises [CannotUnpinIndexed], having only read the
    running state and asked the index, when the stream is indexed, and
    otherwise, after the lookup of [shouldIndex], it marks the stream
    unpinned and calls [pinStore.rm], without publishing the tip. *)
Theorem create_with_pin_false_unpins (Hpure : pure_observers E) w s opts :
  get (pin opts) = Some false →
  let r := run E (handlePinOpts s opts CREATE) w in
  handlePinOpts s opts CREATE = unpin s None
  ∧ Forall (λ c, is_warn c = false ∧ is_pin_add c = false) (calls (trace r))
  ∧ (indexed E w s = true →
     (∃ id m, outcome r = Err (CannotUnpinIndexed id m))
     ∧ final r = w
     ∧ Forall (λ c, is_read c = true) (calls (trace r))
     ∧ Forall (λ c, inert c) (calls (trace r)))
  ∧ (indexed E w s = false →
     ∃ reads id a,
       Forall (λ c, index_lookup c = true) (calls reads)
       ∧ Forall (λ c, inert c) (calls reads)
       ∧ trace r = reads ++ [ev (RsId s) id; ev (MarkUnpinned id) ();
                             ev (PinStoreRm s) a]
       ∧ outcome r = match a with
                     | inr _ => Ok ()
                     | inl e => Err (Rejected e)
                     end).
Proof.
  intros Hpin r.
  assert (Heq : handlePinOpts s opts CREATE = unpin s None).
  { unfold handlePinOpts. by rewrite Hpin. }
  subst r. rewrite Heq. split; [done|].
  destruct (run_unpin w s None Hpure) as [Hyes Hno].
  destruct (run_unpin_reads w s None Hpure) as (Hall & Hyes' & Hno').
  split; [done|]. split.
  - intros Hi. destruct (Hyes Hi) as (? & ? & ?). by split_and!; auto.
  - intros Hi. destruct (Hno' Hi) as (reads & id & a & Hr & Ht & ?).
    exists reads, id, a. rewrite Ht. split_and!; [done| |done..].
    eapply Forall_impl; [exact Hr|]. intros c. by destruct c.
Qed.

Lemma run_handlePinOpts_warn (Hpure : pure_observers E) w s opts opType :
  opType ≠ CREATE → get (pin opts) ≠ None →
  let r := run E (handlePinOpts s opts opType) w in
  let st := answer E (RsState s) w in
  let id := answer E (StreamIdFromState st) w in
  trace r = [ev (RsState s) st; ev (StreamIdFromState st) id;
             ev (ConsoleWarn (pin_warning (pinStr (get (pin opts)))
                                (toString id) (opStr opType))) ()]
  ∧ outcome r = Ok () ∧ final r = w.
Proof.
  intros Hop Hpin. unfold handlePinOpts.
  destruct (get (pin opts)) as [p|] eqn:Hp; [|done].
  destruct opType; [done| |]; simpl.
  all: rewrite (Hpure (RsState s)) by done.
  all: rewrite (Hpure (StreamIdFromState _)) by done.
  all: rewrite (Hpure (ConsoleWarn _)) by done.
  all: by unit_answers.
Qed.

(** C4.  Where reads and logging leave the world as it is, and [opts.pin] is
    defined: for an UPDATE or a LOAD, [handlePinOpts] reads the state, emits
    the warning and does nothing else, so the world, and with it the pin
    state, is as before; and [applyCommit] makes no call to [pinStore.add],
    [pinStore.rm], [markUnpinned] or [publishTip]: when the state manager
    has applied the commit and the write options, it emits the warning and
    returns the state in the world that the state manager left, so a stream
    that is pinned then is pinned at the end. *)
Theorem no_pin_change_outside_create (Hpure : pure_observers E) w opts :
  get (pin opts) ≠ None →
  (∀ s opType,
     opType ≠ CREATE →
     let r := run E (handlePinOpts s opts opType) w in
     let st := answer E (RsState s) w in
     let id := answer E (StreamIdFromState st) w in
     trace r = [ev (RsState s) st; ev (StreamIdFromState st) id;
                ev (ConsoleWarn (pin_warning (pinStr (get (pin opts)))
                                   (toString id) (opStr opType))) ()]
     ∧ outcome r = Ok () ∧ final r = w)
  ∧ (∀ streamId c,
     let r := run E (applyCommit streamId c opts) w in
     let w1 := after E (SmApplyCommit streamId c opts) w in
     Forall (λ c, is_pin_change c = false) (calls (trace r))
     ∧ ∀ s, answer E (SmApplyCommit streamId c opts) w = inr s →
            answer E (SmApplyWriteOpts s opts) w1 = inr () →
            let w2 := after E (SmApplyWriteOpts s opts) w1 in
            outcome r = Ok s
            ∧ final r = w2
            ∧ (∃ msg, ConsoleWarn msg ∈ calls (trace r))
            ∧ (answer E (RsIsPinned s) w2 = true →
               answer E (RsIsPinned s) (final r) = true)).
Proof.
  intros Hpin. split.
  { intros s opType Hop. by apply run_handlePinOpts_warn. }
  intros streamId c r w1. subst r w1. unfold applyCommit, applyWriteOpts. simpl.
  rewrite (Hpure (LogVerbose _)) by done.
  destruct (answer E (SmApplyCommit streamId c opts) w) as [e|s]; simpl.
  { split; [repeat constructor|done]. }
  rewrite !run_bind. simpl.
  destruct (answer E (SmApplyWriteOpts s opts) _) as [e|[]] eqn:Hw; simpl.
  { split; [repeat constructor|]. intros ? [= <-] H. by rewrite Hw in H. }
  match goal with |- context [run E (handlePinOpts s opts UPDATE) ?w] =>
    destruct (run_handlePinOpts_warn Hpure w s opts UPDATE) as (Ht & Ho & Hf);
      [done..|];
    destruct (run E (handlePinOpts s opts UPDATE) w) as [o f t]
  end.
  simpl in Ht, Ho, Hf. subst. simpl.
  rewrite (Hpure (LogVerbose _)) by done.
  split; [repeat constructor|]. intros ? [= <-] _.
  split_and!; [done..| |done].
  eexists. rewrite !elem_of_cons. eauto 10.
Qed.

(** C8.  [applyCreateOpts] classifies the operation as CREATE exactly when
    the log of the loaded state has length 1, and as LOAD otherwise, and
    applies the write options with that type to the state that [load]
    returned.  With empty options and a loaded log of length 1, once the
    state manager has applied the write options, the run reads the state,
    then calls [pinStore.add] on it, and returns the state when that call
    succeeds; where a successful [pinStore.add] leaves the running state
    marked as pinned, the stream is then pinned. *)
Theorem applyCreateOpts_pins_new_stream w schedule id opts :
  (∀ st, opTypeOfCreate st = CREATE ↔ List.length (log st) = 1%nat)
  ∧ (∀ st, opTypeOfCreate st = LOAD ↔ List.length (log st) ≠ 1%nat)
  ∧ (∀ s,
     let l := run E (load schedule id opts) w in
     let st := answer E (RsState s) (final l) in
     let a := run E (applyWriteOpts s opts (opTypeOfCreate st))
                (after E (RsState s) (final l)) in
     let r := run E (applyCreateOpts schedule id opts) w in
     outcome l = Ok s →
     trace r = trace l ++ ev (RsState s) st :: trace a
     ∧ final r = final a
     ∧ outcome r = match outcome a with Ok _ => Ok s | Err e => Err e end)
  ∧ (∀ s,
     let l := run E (load schedule id empty_opts) w in
     let st := answer E (RsState s) (final l) in
     let w1 := after E (RsState s) (final l) in
     let r := run E (applyCreateOpts schedule id empty_opts) w in
     outcome l = Ok s →
     List.length (log st) = 1%nat →
     answer E (SmApplyWriteOpts s empty_opts) w1 = inr () →
     ∃ reads a,
       Forall (λ c, inert c) (calls reads)
       ∧ trace r = trace l
                   ++ [ev (RsState s) st;
                       ev (SmApplyWriteOpts s empty_opts) (inr ())]
                   ++ reads ++ [ev (PinStoreAdd s None) a]
       ∧ outcome r = match a with
                     | inr _ => Ok s
                     | inl e => Err (Rejected e)
                     end
       ∧ (add_marks_pinned E → a = inr () →
          answer E (RsIsPinned s) (final r) = true)).
Proof.
  split_and!.
  - intros st. unfold opTypeOfCreate.
    by destruct (Nat.eqb_spec (List.length (log st)) 1).
  - intros st. unfold opTypeOfCreate.
    by destruct (Nat.eqb_spec (List.length (log st)) 1).
  - intros s l st a r Hl. subst r a st. unfold applyCreateOpts.
    rewrite run_bind. fold l. destruct l as [ol fl tl].
    cbn [outcome final trace] in *. subst ol. cbn [outcome final trace].
    cbn [run bind call]. rewrite run_bind.
    destruct (run E (applyWriteOpts s opts _) _) as [[[]|e] fa ta]; simpl;
      by rewrite ?app_nil_r.
  - intros s l st w1 r Hl Hlen Hw. subst r w1 st. unfold applyCreateOpts.
    rewrite run_bind. fold l. destruct l as [ol fl tl].
    cbn [outcome final trace] in *. subst ol. cbn [outcome final trace].
    unfold opTypeOfCreate.
    cbn [run bind call]. rewrite Hlen. simpl. rewrite Hw. simpl.
    set (w2 := after E (SmApplyWriteOpts s empty_opts) (after E (RsState s) fl)).
    destruct (metadata (answer E (RsState s) w2) ≫= model) as [m|] eqn:Hm; simpl.
    + destruct (answer E (ShouldIndexStream m) _) eqn:Hi; simpl.
      all: match goal with |- context [answer E (PinStoreAdd ?x None) ?w] =>
             destruct (answer E (PinStoreAdd x None) w) as [e|[]] eqn:Ha end; simpl.
      all: eexists [_; _], _; split_and!;
        [|reflexivity|reflexivity|]; [repeat constructor|].
      all: intros Hadd He; simplify_eq; by apply Hadd.
    + match goal with |- context [answer E (PinStoreAdd ?x None) ?w] =>
        destruct (answer E (PinStoreAdd x None) w) as [e|[]] eqn:Ha end; simpl.
      all: eexists [_], _; split_and!;
        [|reflexivity|reflexivity|]; [repeat constructor|].
      all: intros Hadd He; simplify_eq; by apply Hadd.
Qed.

(** C10.  [streamState] only reads: it asks the cache, and then either reads
    the state of the cached running state, or asks the state store and
    returns what the store gives; it never creates a running state, sets a
    cache entry or goes to the network.  [fromMemoryOrStore], on a cache
    miss and a state-store hit, creates a running state and sets a cache
    entry for it. *)
Theorem streamState_only_reads w id :
  let r := run E (streamState id) w in
  let w1 := after E (CacheGet (toString id)) w in
  Forall (λ c, is_cache_or_network c = false) (calls (trace r))
  ∧ match answer E (CacheGet (toString id)) w with
    | Some s =>
        trace r = [ev (CacheGet (toString id)) (Some s);
                   ev (RsState s) (answer E (RsState s) w1)]
        ∧ outcome r = Ok (Some (answer E (RsState s) w1))
    | None =>
        trace r = [ev (CacheGet (toString id)) None;
                   ev (StateStoreLoad id) (answer E (StateStoreLoad id) w1)]
        ∧ outcome r = match answer E (StateStoreLoad id) w1 with
                      | inr st => Ok st
                      | inl e => Err (Rejected e)
                      end
    end
  ∧ (answer E (CacheGet (toString id)) w = None →
     ∀ st, answer E (StateStoreLoad id) w1 = inr (Some st) →
     ∃ s sid,
       take 6 (calls (trace (run E (fromMemoryOrStore id) w))) =
         [CacheGet (toString id); StateStoreLoad id;
          MetricsCount CACHE_HIT_LOCAL 1; NewRunningState st true;
          RsId s; CacheSet (toString sid) s]).
Proof.
  intros r w1. subst r w1. split; [|split].
  - unfold streamState. simpl.
    destruct (answer E (CacheGet (toString id)) w) as [s|]; simpl.
    + repeat constructor.
    + destruct (answer E (StateStoreLoad id) _); repeat constructor.
  - unfold streamState. simpl.
    destruct (answer E (CacheGet (toString id)) w) as [s|]; simpl; [done|].
    by destruct (answer E (StateStoreLoad id) _).
  - intros Hc st Hst.
    unfold fromMemoryOrStore, fromMemory, fromStreamStateStore, add. simpl.
    rewrite Hc. simpl. rewrite Hst. simpl. eauto.
Qed.

End Pins.

(** ** The theorems at work in the reference environment *)

(** C5, counterexample.  In [w_pinned] a CREATE with [pin: false] on the
    pinned stream 0, whose log has the genesis commit only, marks it
    unpinned and removes it from the pin store; in [w_indexed_new], where
    stream 0 is a new stream of an indexed model, it raises
    [CannotUnpinIndexed]. *)
Lemma create_with_pin_false_is_not_a_noop :
  ¬ unpinned_create_is_noop Reference.env Examples.w_pinned 0%nat Examples.pin_false
  ∧ ¬ unpinned_create_is_noop Reference.env WExamples.w_indexed_new 0%nat
        Examples.pin_false.
Proof.
  split; intros H; destruct (H eq_refl) as [Ho Hc].
  - vm_compute in Hc.
    repeat match goal with
    | H : Forall _ (_ :: _) |- _ => apply Forall_cons in H as [? H]
    end; discriminate.
  - vm_compute in Ho. discriminate.
Qed.

Lemma load_syncs_unless_synced_witness :
  let E := Reference.env in
  let w := Examples.w_network in
  let opts := WExamples.timeout_7_5 in
  (get (sync (spread DEFAULT_LOAD_OPTS opts)) = Some PREFER_CACHE
   ∨ get (sync (spread DEFAULT_LOAD_OPTS opts)) = Some SYNC_ON_ERROR)
  ∧ answer E (LoadingQRun Examples.idA) w = inr ()
  ∧ outcome (run E (_loadGenesis Examples.idA)
               (after E (LoadingQRun Examples.idA) w)) = Ok (0%nat, false)
  ∧ syncs (trace (run E (load [] Examples.idA opts) w))
    = [Sync 0%nat 7500%float None].
Proof.
  intros E w opts.
  assert (H1 : get (sync (spread DEFAULT_LOAD_OPTS opts)) = Some PREFER_CACHE
               ∨ get (sync (spread DEFAULT_LOAD_OPTS opts)) = Some SYNC_ON_ERROR)
    by (left; reflexivity).
  assert (H2 : answer E (LoadingQRun Examples.idA) w = inr ()) by reflexivity.
  assert (H3 : outcome (run E (_loadGenesis Examples.idA)
                          (after E (LoadingQRun Examples.idA) w))
               = Ok (0%nat, false)) by (vm_compute; reflexivity).
  split; [exact H1|]. split; [exact H2|]. split; [exact H3|].
  destruct (load_syncs_unless_synced E w [] Examples.idA opts 0%nat false
              H1 H2 H3) as (rest & _ & Hs & _).
  exact Hs.
Defined.

Lemma load_sync_always_witness :
  let E := Reference.env in
  let w := Examples.w_stored in
  let r := run E (load [true; false] Examples.idA Examples.sync_always) w in
  get (sync (spread DEFAULT_LOAD_OPTS Examples.sync_always)) = Some SYNC_ALWAYS
  ∧ outcome r = Ok 1%nat
  ∧ ∃ hint, syncs (trace r) = [Sync 1%nat 3000%float hint].
Proof.
  intros E w r.
  assert (H1 : get (sync (spread DEFAULT_LOAD_OPTS Examples.sync_always))
               = Some SYNC_ALWAYS) by reflexivity.
  assert (H2 : outcome r = Ok 1%nat) by (vm_compute; reflexivity).
  split; [exact H1|]. split; [exact H2|].
  destruct (load_sync_always E w [true; false] Examples.idA Examples.sync_always H1)
    as (_ & _ & H).
  destruct (H 1%nat H2) as (tn & tl & local & copies & hint & reads & rest
                            & _ & _ & _ & _ & _ & Hs & _).
  exists hint. exact Hs.
Defined.

Lemma no_pin_change_outside_create_witness :
  let E := Reference.env in
  let w := Examples.w_pinned in
  pure_observers E
  ∧ get (pin Examples.pin_false) ≠ None
  ∧ answer E (RsIsPinned 0%nat)
      (final (run E (applyCommit Examples.idA "cidA1" Examples.pin_false) w))
    = true.
Proof.
  intros E w.
  assert (H1 : get (pin Examples.pin_false) ≠ None) by discriminate.
  split; [exact reference_pure_observers|]. split; [exact H1|].
  destruct (no_pin_change_outside_create E reference_pure_observers w
              Examples.pin_false H1) as [_ H].
  destruct (H Examples.idA "cidA1") as [_ H2].
  destruct (H2 0%nat eq_refl eq_refl) as (_ & _ & _ & H3).
  apply H3. reflexivity.
Defined.

Lemma create_with_pin_false_unpins_witness :
  let E := Reference.env in
  let w := Examples.w_pinned in
  pure_observers E
  ∧ get (pin Examples.pin_false) = Some false
  ∧ handlePinOpts 0%nat Examples.pin_false CREATE = unpin 0%nat None.
Proof.
  intros E w.
  split; [exact reference_pure_observers|]. split; [reflexivity|].
  exact (proj1 (create_with_pin_false_unpins E reference_pure_observers w 0%nat
                  Examples.pin_false eq_refl)).
Defined.

Lemma unpin_forbids_indexed_witness :
  let E := Reference.env in
  let w := Examples.w_indexed in
  pure_observers E
  ∧ indexed E w 0%nat = true
  ∧ ∃ id m, outcome (run E (unpin 0%nat None) w) = Err (CannotUnpinIndexed id m).
Proof.
  intros E w.
  assert (H1 : indexed E w 0%nat = true) by (vm_compute; reflexivity).
  split; [exact reference_pure_observers|]. split; [exact H1|].
  exact (proj2 (proj1 (unpin_forbids_indexed E reference_pure_observers w 0%nat
                         None)) H1).
Defined.

Lemma loadAtCommit_defers_expiration_witness :
  let E := Reference.env in
  let w := Examples.w_expired in
  let commitId := mkCommitID Examples.idA "cidA" in
  outcome (run E (load [] Examples.idA (skippingCACAOChecks empty_opts)) w)
    = Ok 0%nat
  ∧ outcome (run E (loadAtCommit [] commitId empty_opts) w)
    = Err CapabilityExpired.
Proof.
  intros E w commitId. split; [vm_compute; reflexivity|].
  destruct (loadAtCommit_defers_expiration E w [] commitId empty_opts)
    as (_ & _ & _ & [_ H] & _).
  apply H. exists 0%nat, (mkSnapshot Examples.stateA).
  split; [vm_compute; reflexivity|]. split; vm_compute; reflexivity.
Defined.

Lemma applyCreateOpts_pins_new_stream_witness :
  let E := Reference.env in
  let w := Examples.w_network in
  let l := run E (load [] Examples.idA empty_opts) w in
  let r := run E (applyCreateOpts [] Examples.idA empty_opts) w in
  outcome l = Ok 0%nat
  ∧ List.length (log (answer E (RsState 0%nat) (final l))) = 1%nat
  ∧ answer E (SmApplyWriteOpts 0%nat empty_opts)
      (after E (RsState 0%nat) (final l)) = inr ()
  ∧ add_marks_pinned E
  ∧ answer E (RsIsPinned 0%nat) (final r) = true.
Proof.
  intros E w l r.
  assert (H1 : outcome l = Ok 0%nat) by (vm_compute; reflexivity).
  assert (H2 : List.length (log (answer E (RsState 0%nat) (final l))) = 1%nat)
    by (vm_compute; reflexivity).
  assert (H3 : answer E (SmApplyWriteOpts 0%nat empty_opts)
                 (after E (RsState 0%nat) (final l)) = inr ()) by reflexivity.
  split; [exact H1|]. split; [exact H2|]. split; [exact H3|].
  split; [exact reference_add_marks_pinned|].
  destruct (applyCreateOpts_pins_new_stream E w [] Examples.idA empty_opts)
    as (_ & _ & _ & H).
  destruct (H 0%nat H1 H2 H3) as (reads & a & _ & _ & Ho & Hp).
  apply Hp; [exact reference_add_marks_pinned|].
  destruct a as [e|[]]; [|reflexivity].
  exfalso. vm_compute in Ho. discriminate Ho.
Defined.

(** C9, counterexample.  In [w_network], a [load] of [idA] with
    [{sync: undefined}] ends in the error of an invalid sync option, where
    the [load] with [sync: PREFER_CACHE] returns the stream; and with
    [{syncTimeoutSeconds: undefined}] it calls [sync] with the timeout
    [NaN]. *)
Lemma load_with_undefined_option_is_not_the_default :
  ¬ undefined_sync_is_prefer_cache Reference.env Examples.w_network []
      Examples.idA (with_sync (present None) empty_opts)
  ∧ ¬ undefined_timeout_is_3_seconds Reference.env Examples.w_network []
        Examples.idA (with_syncTimeoutSeconds (present None) empty_opts).
Proof.
  split; intros H; specialize (H eq_refl).
  - vm_compute in H. discriminate H.
  - vm_compute in H.
    repeat match goal with
    | H : Forall _ (_ :: _) |- _ => apply Forall_cons in H as [? H]
    end.
    match goal with
    | H : ∀ x : float, Some ?v = Some x → _ |- _ => specialize (H _ eq_refl)
    end.
    discriminate.
Qed.

Lemma load_defaults_witness :
  let E := Reference.env in
  let w := Examples.w_network in
  let r := run E (load [] Examples.idA WExamples.timeout_7_5) w in
  syncs (trace r) = [Sync 0%nat 7500%float None]
  ∧ Forall (λ c, ∀ t, timeout_of c = Some t → t = 7500%float) (calls (trace r)).
Proof.
  intros E w r. split; [vm_compute; reflexivity|].
  destruct (load_defaults E w [] Examples.idA empty_opts)
    as (_ & _ & _ & H & _).
  exact (H (Some 7.5%float)).
Defined.

Lemma streamState_only_reads_witness :
  let E := Reference.env in
  let w := Examples.w_stored in
  answer E (CacheGet "tile:cidA") w = None
  ∧ answer E (StateStoreLoad Examples.idA) (after E (CacheGet "tile:cidA") w)
    = inr (Some Examples.stateA)
  ∧ ∃ s sid,
      take 6 (calls (trace (run E (fromMemoryOrStore Examples.idA) w))) =
        [CacheGet "tile:cidA"; StateStoreLoad Examples.idA;
         MetricsCount CACHE_HIT_LOCAL 1; NewRunningState Examples.stateA true;
         RsId s; CacheSet (toString sid) s].
Proof.
  intros E w.
  assert (H1 : answer E (CacheGet "tile:cidA") w = None) by reflexivity.
  assert (H2 : answer E (StateStoreLoad Examples.idA)
                 (after E (CacheGet "tile:cidA") w) = inr (Some Examples.stateA))
    by (vm_compute; reflexivity).
  split; [exact H1|]. split; [exact H2|].
  destruct (streamState_only_reads E w Examples.idA) as (_ & _ & H).
  exact (H H1 Examples.stateA H2).
Defined.

(** * Further properties of the Repository *)

(** ** What [load] can call, and how it can fail *)

Lemma always_traces {A} P Q (p : Prog A) t o :
  always P Q p → traces p t o →
  Forall P (calls t) ∧ ∀ e, o = Err e → Q e.
Proof.
  revert t. induction p as [a|e|c k IH]; intros t; simpl.
  - intros _ [-> ->]. by split; [constructor|].
  - intros ? [-> ->]. split; [constructor|]. by intros ? [= <-].
  - intros [? Hk] (r & t' & -> & Ht).
    destruct (IH r t' (Hk r) Ht). split; [by constructor|done].
Qed.

(** As [solve_always], with [tac] for what is left at the calls and the
    errors. *)
Ltac walk tac :=
  repeat first
    [ done
    | match goal with
      | |- always _ _ (when ?b _) => unfold when; destruct b
      | |- always _ _ (match ?x with _ => _ end) => destruct x
      | |- always _ _ (bind (match ?x with _ => _ end) _) => destruct x
      | |- always _ _ (bind _ _) => apply always_bind
      | |- _ ∧ _ => split
      | |- ∀ _, _ => intros ?
      end
    | progress cbn
    | tac ].

Ltac loader_errors :=
  match goal with
  | |- loader_error _ (Rejected _) => right; eexists; reflexivity
  | |- loader_error _ (NoGenesisCommit _) => left; reflexivity
  end.

Lemma loaders_fromMemoryOrStore id :
  always (λ c, loader_call c = true) (loader_error id) (fromMemoryOrStore id).
Proof.
  unfold fromMemoryOrStore, fromMemory, fromStreamStateStore, add.
  walk ltac:(idtac; loader_errors).
Qed.

Lemma loaders_fromNetwork id :
  always (λ c, loader_call c = true) (loader_error id) (fromNetwork id).
Proof. unfold fromNetwork, add. walk ltac:(idtac; loader_errors). Qed.

Lemma loaders_loadGenesis id :
  always (λ c, loader_call c = true) (loader_error id) (_loadGenesis id).
Proof.
  unfold _loadGenesis. apply always_bind.
  { unfold fromMemory. walk ltac:(idtac; loader_errors). }
  intros [s|]; [done|]. apply always_bind.
  { unfold fromStreamStateStore, add. walk ltac:(idtac; loader_errors). }
  intros [s|]; [walk ltac:(idtac; loader_errors)|]. apply always_bind; [|done].
  apply loaders_fromNetwork.
Qed.

Lemma loaders_Promise_all schedule id :
  always (λ c, loader_call c = true) (loader_error id)
    (Promise_all schedule (fromNetwork id) (fromMemoryOrStore id)).
Proof.
  apply always_Promise_all;
    [apply loaders_fromNetwork|apply loaders_fromMemoryOrStore].
Qed.

Lemma loader_task_call c : loader_call c = true → task_call c = true.
Proof. by destruct c. Qed.

Lemma task_load_call c : task_call c = true → load_call c = true.
Proof. by destruct c. Qed.

(** What follows the loaders in the queued task: its calls are those of the
    task, and it fails only when a collaborator does. *)
Lemma tail_loadPreferCache o (g : Ref * bool) :
  always (λ c, task_call c = true) only_rejected
    (let '(streamState, alreadySynced) := g in
     if alreadySynced : bool
     then Ret (streamState, alreadySynced)
     else
       orThrow (call (Sync streamState
                    (times1000 (get (syncTimeoutSeconds o))) None)) ;;
       call (MetricsCount STREAM_SYNC 1) ;;
       Ret (streamState, true)).
Proof. destruct g as [s []]; walk ltac:(by eexists). Qed.

Lemma tail_loadSyncAlways o (copies : Ref * option Ref) :
  always (λ c, task_call c = true) only_rejected
    (let '(fromNetwork', fromMemoryOrStore') := copies in
     tip <- localTip fromMemoryOrStore' ;;
     orThrow (call (Sync fromNetwork'
                  (times1000 (get (syncTimeoutSeconds o))) tip)) ;;
     call (MetricsCount STREAM_SYNC 1) ;;
     Ret (fromNetwork', true)).
Proof. destruct copies as [net [l|]]; walk ltac:(by eexists). Qed.

Lemma footprint_loadTask schedule id opts :
  always (λ c, task_call c = true) (task_error id) (loadTask schedule id opts).
Proof.
  assert (Hl : ∀ A (p : Prog A),
    always (λ c, loader_call c = true) (loader_error id) p →
    always (λ c, task_call c = true) (task_error id) p).
  { intros A p. apply always_mono; [apply loader_task_call|by left]. }
  assert (Ht : ∀ A (p : Prog A),
    always (λ c, task_call c = true) only_rejected p →
    always (λ c, task_call c = true) (task_error id) p).
  { intros A p. apply always_mono; [done|]. intros e [x ->]. left. right. eauto. }
  unfold loadTask. destruct (get (sync opts)) as [[]|]; cbv beta iota.
  - apply always_bind; [apply Hl, loaders_loadGenesis|].
    intros g. apply Ht, tail_loadPreferCache.
  - apply always_bind; [apply Hl, loaders_Promise_all|].
    intros g. apply Ht, tail_loadSyncAlways.
  - apply Hl, loaders_loadGenesis.
  - apply always_bind; [apply Hl, loaders_loadGenesis|].
    intros g. apply Ht, tail_loadPreferCache.
  - simpl. right. eauto.
Qed.

Lemma footprint_finishLoad o s synced :
  always (λ c, load_call c = true) (λ e, e = CapabilityExpired)
    (finishLoad o s synced).
Proof. unfold finishLoad, checkForCacaoExpiration. walk ltac:(idtac; fail). Qed.

Lemma footprint_queued schedule id o :
  always (λ c, load_call c = true ∧ is_Mark c = false ∧ is_Check c = false)
    (task_error id)
    (orThrow (call (LoadingQRun id)) ;; loadTask schedule id o).
Proof.
  apply always_bind.
  - walk ltac:(by left; right; eexists).
  - intros _. eapply always_mono, footprint_loadTask; [|done].
    intros c Hc. split; [by apply task_load_call|]. by destruct c.
Qed.

(** X1.  Whatever the options, the schedule and the environment, [load]
    calls only the loading queue, the cache, the metrics, the logger, the
    state store, the anchor request store, the handlers, the dispatcher,
    the constructor and the reads of running states, the anchor service,
    [sync], the capability check and the two bookkeeping calls
    [wasPinnedStreamSynced] and [markPinnedAndSynced]: it never adds to or
    removes from the pin store, never marks a stream unpinned, never
    publishes a tip and never warns.  The only errors of its own are
    [NoGenesisCommit], for the CID of the requested stream, the invalid sync
    option and the expired capability; any other failure is the rejection of
    a collaborator. *)
Theorem load_footprint (E : Env) (w : world E) schedule id opts :
  let r := run E (load schedule id opts) w in
  Forall (λ c, load_call c = true ∧ is_pin_change c = false ∧ is_warn c = false)
    (calls (trace r))
  ∧ ∀ e, outcome r = Err e → load_error id e.
Proof.
  apply always_run. unfold load. apply always_bind.
  - eapply always_mono, footprint_queued; [|by left].
    intros c (Hc & _ & _). by destruct c.
  - intros [s synced]. eapply always_mono, footprint_finishLoad.
    + intros c Hc. by destruct c.
    + intros e ->. by right.
Qed.

Lemma traces_bind_err {A B} (P : Call → Prop) (p : Prog A) (f : A → Prog B) t e :
  (∀ a, always P (λ e', e' ≠ e) (f a)) →
  traces (bind p f) t (Err e) → traces p t (Err e).
Proof.
  intros Hf [(e' & H & [= ->])|(a & t1 & t2 & _ & H & _)]%traces_bind; [done|].
  destruct (always_traces _ _ _ _ _ (Hf a) H) as [_ Hne]. by destruct (Hne e).
Qed.

(** X2.  When [load] fails because there is no genesis commit, the commit
    that was not found is the one of the requested stream, and up to then
    the run has called the queue and the loaders only: nothing was synced,
    no capability was checked and nothing was marked. *)
Theorem load_unknown_stream (E : Env) (w : world E) schedule id opts c :
  let r := run E (load schedule id opts) w in
  outcome r = Err (NoGenesisCommit c) →
  c = cid id
  ∧ Forall (λ c, (c = LoadingQRun id ∨ loader_call c = true)
                 ∧ is_Sync c = false ∧ is_Check c = false ∧ is_Mark c = false)
      (calls (trace r)).
Proof.
  intros r Hr. pose proof (run_traces E (load schedule id opts) w) as H.
  fold r in H. rewrite Hr in H. clear Hr. revert H. generalize (trace r).
  clear r. intros t H. unfold load in H.
  set (o := spread DEFAULT_LOAD_OPTS opts) in H.
  apply (traces_bind_err (λ _, True)) in H.
  2: { intros [s synced]. eapply always_mono, footprint_finishLoad; [done|].
       by intros e ->. }
  apply traces_bind in H as [(e & H & [= <-])|(u & t1 & t2 & Hq & H & ->)].
  { simpl in H. destruct H as ([x|[]] & t' & -> & H); simpl in H; by destruct H. }
  assert (calls t1 = [LoadingQRun id]) as Ht1.
  { simpl in Hq. destruct Hq as ([x|[]] & t' & -> & Hq); simpl in Hq;
      by destruct Hq as [-> _]. }
  assert (Hload : ∀ A (p : Prog A) t,
    always (λ c, loader_call c = true) (loader_error id) p →
    traces p t (Err (NoGenesisCommit c)) →
    c = cid id
    ∧ Forall (λ c, (c = LoadingQRun id ∨ loader_call c = true)
                   ∧ is_Sync c = false ∧ is_Check c = false ∧ is_Mark c = false)
        (calls (t1 ++ t))).
  { intros A p t Hp Ht. destruct (always_traces _ _ _ _ _ Hp Ht) as [Hc He].
    split.
    - destruct (He _ eq_refl) as [[= ->]|[x [=]]]. done.
    - unfold calls. rewrite fmap_app. fold (calls t1). rewrite Ht1.
      apply Forall_cons. split; [by split; [left|]|].
      eapply Forall_impl; [exact Hc|]. intros c' Hc'. split; [by right|].
      by destruct c'. }
  assert (Htail : ∀ A (p : Prog A),
    always (λ c, task_call c = true) only_rejected p →
    always (λ _, True) (λ e', e' ≠ NoGenesisCommit c) p).
  { intros A p. apply always_mono; [done|]. by intros e [x ->]. }
  unfold loadTask in H. destruct (get (sync o)) as [[]|]; cbv beta iota in H.
  - apply (traces_bind_err (λ _, True)) in H;
      [|intros g; apply Htail, tail_loadPreferCache].
    by eapply Hload; [apply loaders_loadGenesis|].
  - apply (traces_bind_err (λ _, True)) in H;
      [|intros g; apply Htail, tail_loadSyncAlways].
    by eapply Hload; [apply loaders_Promise_all|].
  - by eapply Hload; [apply loaders_loadGenesis|].
  - apply (traces_bind_err (λ _, True)) in H;
      [|intros g; apply Htail, tail_loadPreferCache].
    by eapply Hload; [apply loaders_loadGenesis|].
  - by destruct H.
Qed.

Lemma calls_app t1 t2 : calls (t1 ++ t2) = calls t1 ++ calls t2.
Proof. unfold calls. by rewrite fmap_app. Qed.

Lemma no_mark_loaders (E : Env) {A} (p : Prog A) id (w : world E) :
  always (λ c, loader_call c = true) (loader_error id) p →
  Forall (λ c, is_Mark c = false) (calls (trace (run E p w))).
Proof.
  intros H. eapply always_calls, always_mono, H; [|done].
  intros c Hc. by destruct c.
Qed.

(** X3.  With [opts.sync] equal to [NEVER_SYNC], [load] makes no call to
    [StateManager.sync]; once the queue has admitted the task and
    [_loadGenesis] has returned [(s, b)], only [s] can be returned, and it
    is returned unless the capability check fails; and a state that
    [_loadGenesis] reports as not synced ([b] is false) is not marked as
    pinned and synced. *)
Theorem load_never_sync (E : Env) (w : world E) schedule id opts s b :
  let o := spread DEFAULT_LOAD_OPTS opts in
  let g := run E (_loadGenesis id) (after E (LoadingQRun id) w) in
  let r := run E (load schedule id opts) w in
  get (sync o) = Some NEVER_SYNC →
  syncs (trace r) = []
  ∧ (answer E (LoadingQRun id) w = inr () →
     outcome g = Ok (s, b) →
     ∃ rest,
       trace r = ev (LoadingQRun id) (inr ()) :: trace g ++ rest
       ∧ (outcome r = Ok s ↔ Forall (λ e, failed e = false) rest)
       ∧ (∀ s', outcome r = Ok s' → s' = s)
       ∧ (b = false → Forall (λ c, is_Mark c = false) (calls (trace r)))).
Proof.
  intros o g r Hmode. subst r.
  assert (Hquiet : syncs (trace g) = []).
  { apply syncs_quiet. eapply always_calls, quiet_loadGenesis. }
  assert (Hmark : Forall (λ c, is_Mark c = false) (calls (trace g))).
  { eapply no_mark_loaders, loaders_loadGenesis. }
  assert (Htask : loadTask schedule id o = _loadGenesis id).
  { unfold loadTask. by rewrite Hmode. }
  unfold load. fold o. rewrite Htask.
  rewrite !run_bind, run_queue.
  destruct (answer E (LoadingQRun id) w) as [e|[]]; cbn [outcome final trace].
  { split; [done|]. by intros [=]. }
  fold g. destruct g as [og fg tg]. cbn [outcome final trace] in *.
  destruct og as [[s0 b0]|e]; cbn [outcome final trace app].
  2: { split; [|by intros _ [=]]. by syncs_norm. }
  destruct (run_finishLoad E fg o s0 b0) as (Hok & Hor & Hs).
  pose proof (always_calls E (λ c, is_Mark c = false) (λ _, True)
                (finishLoad o s0 false) fg) as Hnm.
  destruct (run E (finishLoad o s0 b0) fg) as [o' f' t'] eqn:Hrun.
  cbn [outcome final trace app] in *.
  split; [syncs_norm; by rewrite Hquiet, Hs|].
  intros _ [= -> ->]. exists t'. split_and!; [done|done| |].
  - intros s' H. destruct Hor as [Hor|Hor]; rewrite Hor in H; by simplify_eq.
  - intros ->. rewrite Hrun in Hnm. cbn [trace] in Hnm.
    apply Forall_cons. split; [done|]. rewrite calls_app.
    apply Forall_app. split; [done|]. apply Hnm.
    unfold finishLoad, checkForCacaoExpiration. solve_always.
Qed.

Lemma run_finishLoad_marks (E : Env) (w : world E) o s synced :
  let r := run E (finishLoad o s synced) w in
  Forall (λ c, is_Mark c = false) (calls (trace r))
  ∨ (synced = true ∧ outcome r = Ok s
     ∧ ∃ t0 i, trace r = t0 ++ [ev (RsIsPinned s) true; ev (RsId s) i;
                                ev (MarkPinnedAndSynced i) ()]
               ∧ Forall (λ c, is_Mark c = false) (calls t0)).
Proof.
  unfold finishLoad. simpl.
  destruct (truthy _); simpl.
  - destruct synced; simpl; [|left; constructor].
    destruct (answer E (RsIsPinned s) w) eqn:Hp; simpl; unit_answers.
    + right. split_and!; [done..|]. by eexists [], _.
    + left. repeat constructor.
  - destruct (answer E (CheckForCacaoExpiration _) _) eqn:Hc; simpl.
    + destruct synced; simpl; [|left; repeat constructor].
      match goal with |- context [answer E (RsIsPinned s) ?w] =>
        destruct (answer E (RsIsPinned s) w) eqn:Hp end; simpl; unit_answers.
      * right. split_and!; [done..|]. eexists [_; _], _.
        split; [reflexivity|repeat constructor].
      * left. repeat constructor.
    + left. repeat constructor.
Qed.

(** X4.  [load] marks a stream as pinned and synced at most once, and only
    as the last act of a run that returns: after the capability check has
    passed (or was skipped) and the running state has answered that it is
    pinned; the mark is made for the [id] that the returned running state
    gave.  A [load] that fails has marked nothing. *)
Theorem load_marks_last (E : Env) (w : world E) schedule id opts :
  let r := run E (load schedule id opts) w in
  Forall (λ c, is_Mark c = false) (calls (trace r))
  ∨ ∃ s i t0,
      outcome r = Ok s
      ∧ trace r = t0 ++ [ev (RsIsPinned s) true; ev (RsId s) i;
                         ev (MarkPinnedAndSynced i) ()]
      ∧ Forall (λ c, is_Mark c = false) (calls t0).
Proof.
  intros r. subst r. unfold load.
  set (o := spread DEFAULT_LOAD_OPTS opts).
  rewrite run_bind.
  pose proof (always_calls E _ _ _ w (footprint_queued schedule id o)) as Hq.
  destruct (run E (orThrow (call (LoadingQRun id)) ;; loadTask schedule id o) w)
    as [[[s synced]|e] fq tq]; cbn [outcome final trace] in *.
  2: { left. eapply Forall_impl; [exact Hq|]. by intros c (_ & ? & _). }
  assert (Hq' : Forall (λ c, is_Mark c = false) (calls tq)).
  { eapply Forall_impl; [exact Hq|]. by intros c (_ & ? & _). }
  destruct (run_finishLoad_marks E fq o s synced)
    as [Hn|(_ & Ho & t0 & i & Ht & Hn)];
    destruct (run E (finishLoad o s synced) fq) as [o' f' t'];
    cbn [outcome final trace] in *.
  - left. rewrite calls_app. by apply Forall_app.
  - right. exists s, i, (tq ++ t0). subst. split_and!; [done| |].
    + by rewrite app_assoc.
    + rewrite calls_app. by apply Forall_app.
Qed.

(** X5.  When the dispatcher has no genesis commit for the stream,
    [fromNetwork] fails with [NoGenesisCommit], naming the CID of the
    stream, after the lookup of the handler and the fetch: no handler has
    run, no running state was created and nothing was put in the cache; it
    fails in this way in no other case.  And every commit that
    [fromNetwork] hands to a handler has [disableTimecheck] set, whatever
    the dispatcher delivered. *)
Theorem fromNetwork_no_genesis (E : Env) (w : world E) id :
  let r := run E (fromNetwork id) w in
  (∀ h, answer E (HandlersGet (typeName id)) w = inr h →
        answer E (GetCommitData (cid id) id)
          (after E (HandlersGet (typeName id)) w) = inr None →
        outcome r = Err (NoGenesisCommit (cid id))
        ∧ trace r = [ev (HandlersGet (typeName id)) (inr h);
                     ev (GetCommitData (cid id) id) (inr None)])
  ∧ (∀ c, outcome r = Err (NoGenesisCommit c) →
          c = cid id
          ∧ ∃ h, trace r = [ev (HandlersGet (typeName id)) (inr h);
                            ev (GetCommitData (cid id) id) (inr None)])
  ∧ Forall (λ c, ∀ h cd, c = HandlerApplyCommit h cd →
                         disableTimecheck cd = Some true)
      (calls (trace r)).
Proof.
  intros r. split; [|split].
  - intros h Hh Hc. subst r. unfold fromNetwork. simpl. rewrite Hh. simpl.
    by rewrite Hc.
  - intros c Hr.
    destruct (run_fromNetwork E w id)
      as [(h & cd & st & s & sid & _ & Ho)
         |[(h & Ht & Ho)|(t & last & e & _ & _ & Ho)]];
      fold r in Ho; rewrite Ho in Hr; try done.
    injection Hr as <-. split; [done|]. by exists h.
  - subst r. eapply always_calls with (Q := λ _, True).
    unfold fromNetwork, add. walk ltac:(idtac; fail).
    all: intros; by simplify_eq.
Qed.

(** ** The state that [load] returns is in the cache *)

Lemma cached_in_app_l id t1 t2 s : cached_in id t1 s → cached_in id (t1 ++ t2) s.
Proof.
  intros [H|(sid & H1 & H2)]; [left|right; exists sid];
    rewrite ?elem_of_app; auto.
Qed.

Lemma cached_in_app_r id t1 t2 s : cached_in id t2 s → cached_in id (t1 ++ t2) s.
Proof.
  intros [H|(sid & H1 & H2)]; [left|right; exists sid];
    rewrite ?elem_of_app; auto.
Qed.

Lemma cached_in_Merge id t1 t2 t s :
  Merge t1 t2 t → cached_in id t1 s → cached_in id t s.
Proof.
  intros Hm [H|(sid & H1 & H2)]; [left|right; exists sid];
    rewrite ?(Merge_elem_of _ _ _ _ Hm); auto.
Qed.

Lemma traces_fromMemory_cached id t s :
  traces (fromMemory id) t (Ok (Some s)) → cached_in id t s.
Proof.
  unfold fromMemory. simpl. intros ([s'|] & t1 & -> & H); simpl in H.
  - destruct H as ([] & t2 & -> & -> & [= ->]). left.
    apply elem_of_cons. by left.
  - by destruct H as [_ [=]].
Qed.

Lemma traces_fromStreamStateStore_cached id t s :
  traces (fromStreamStateStore id) t (Ok (Some s)) → cached_in id t s.
Proof.
  unfold fromStreamStateStore, add. simpl.
  intros ([e|[st|]] & t1 & -> & H); simpl in H;
    [by destruct H| |by destruct H as [_ [=]]].
  destruct H as ([] & t2 & -> & s' & t3 & -> & sid & t4 & -> & [] & t5 & -> & H).
  assert (s' = s) as ->.
  { destruct H as ([e|[req|]] & t6 & -> & H); simpl in H.
    - by destruct H.
    - destruct H as ([] & t7 & -> & H); simpl in H.
      + by destruct H as ([] & t8 & -> & -> & [= ->]).
      + by destruct H as (-> & [= ->]).
    - by destruct H as (-> & [= ->]). }
  right. exists sid. rewrite !elem_of_cons. auto 10.
Qed.

Lemma traces_fromNetwork_cached id t s :
  traces (fromNetwork id) t (Ok s) → cached_in id t s.
Proof.
  unfold fromNetwork, add. simpl.
  intros ([e|h] & t1 & -> & H); simpl in H; [by destruct H|].
  destruct H as ([e|[cd|]] & t2 & -> & H); simpl in H;
    [by destruct H| |by destruct H].
  destruct H as ([] & t3 & -> & [e|st] & t4 & -> & H); simpl in H;
    [by destruct H|].
  destruct H as (s' & t5 & -> & sid & t6 & -> & [] & t7 & -> & [] & t8
                 & -> & -> & [= ->]).
  right. exists sid. rewrite !elem_of_cons. auto 10.
Qed.

Lemma traces_loadGenesis_cached id t s b :
  traces (_loadGenesis id) t (Ok (s, b)) → cached_in id t s.
Proof.
  unfold _loadGenesis.
  intros [(e & _ & [=])|([m|] & t1 & t2 & Hm & H & ->)]%traces_bind.
  { destruct H as [-> [= -> _]]. rewrite app_nil_r.
    by eapply traces_fromMemory_cached. }
  apply cached_in_app_r.
  apply traces_bind in H as [(e & _ & [=])|([l|] & t3 & t4 & Hl & H & ->)].
  - simpl in H. destruct H as (synced & t5 & -> & -> & [= -> _]).
    by eapply cached_in_app_l, traces_fromStreamStateStore_cached.
  - apply traces_bind in H as [(e & _ & [=])|(n & t5 & t6 & Hn & H & ->)].
    destruct H as [-> [= -> _]].
    by eapply cached_in_app_r, cached_in_app_l, traces_fromNetwork_cached.
Qed.

Lemma traces_finishLoad_ok o s0 synced t s :
  traces (finishLoad o s0 synced) t (Ok s) → s = s0.
Proof.
  unfold finishLoad.
  intros [(e & _ & [=])|([] & t1 & t2 & _ & H & _)]%traces_bind.
  apply traces_bind in H as [(e & _ & [=])|([] & t3 & t4 & _ & H & _)].
  by destruct H as [_ [= ->]].
Qed.

Lemma traces_tail_loadPreferCache o s1 b1 t s b :
  traces (if b1 : bool
          then Ret (s1, b1)
          else
            orThrow (call (Sync s1
                         (times1000 (get (syncTimeoutSeconds o))) None)) ;;
            call (MetricsCount STREAM_SYNC 1) ;;
            Ret (s1, true)) t (Ok (s, b)) →
  s = s1.
Proof.
  destruct b1; simpl.
  - by intros [_ [= -> _]].
  - intros ([e|[]] & t1 & -> & H); simpl in H; [by destruct H|].
    by destruct H as ([] & t2 & -> & _ & [= -> _]).
Qed.

Lemma traces_tail_loadSyncAlways o net local t s b :
  traces (tip <- localTip local ;;
          orThrow (call (Sync net
                       (times1000 (get (syncTimeoutSeconds o))) tip)) ;;
          call (MetricsCount STREAM_SYNC 1) ;;
          Ret (net, true)) t (Ok (s, b)) →
  s = net.
Proof.
  intros [(e & _ & [=])|(tip & t1 & t2 & _ & H & _)]%traces_bind.
  simpl in H. destruct H as ([e|[]] & t3 & -> & H); simpl in H;
    [by destruct H|].
  by destruct H as ([] & t4 & -> & _ & [= -> _]).
Qed.

(** X6.  Whatever the sync mode, the schedule and the environment, the
    running state that [load] returns is one that the cache holds or held
    during the run: the cache gave it on the lookup of the requested stream,
    or the Repository put it there with [inmemory.set], under the printed
    form of the identifier that the running state itself gave. *)
Theorem load_returns_cached_state (E : Env) (w : world E) schedule id opts s :
  let r := run E (load schedule id opts) w in
  outcome r = Ok s → cached_in id (trace r) s.
Proof.
  intros r Hr. pose proof (run_traces E (load schedule id opts) w) as H.
  fold r in H. rewrite Hr in H. clear Hr. revert H. generalize (trace r).
  clear r. intros t H. unfold load in H.
  set (o := spread DEFAULT_LOAD_OPTS opts) in H.
  apply traces_bind in H as [(e & _ & [=])|([s0 b] & t1 & t2 & H & Hf & ->)].
  apply traces_finishLoad_ok in Hf as ->. apply cached_in_app_l.
  apply traces_bind in H as [(e & _ & [=])|(u & t3 & t4 & _ & H & ->)].
  apply cached_in_app_r.
  unfold loadTask in H. destruct (get (sync o)) as [[]|]; cbv beta iota in H.
  - apply traces_bind in H as [(e & _ & [=])|([s1 b1] & t5 & t6 & Hg & H & ->)].
    apply traces_tail_loadPreferCache in H as ->.
    by eapply cached_in_app_l, traces_loadGenesis_cached.
  - apply traces_bind in H
      as [(e & _ & [=])|([net local] & t5 & t6 & HP & H & ->)].
    apply traces_tail_loadSyncAlways in H as ->.
    apply traces_Promise_all in HP as (tn & tl & Hn & _ & Hm).
    by eapply cached_in_app_l, cached_in_Merge, traces_fromNetwork_cached.
  - by eapply traces_loadGenesis_cached.
  - apply traces_bind in H as [(e & _ & [=])|([s1 b1] & t5 & t6 & Hg & H & ->)].
    apply traces_tail_loadPreferCache in H as ->.
    by eapply cached_in_app_l, traces_loadGenesis_cached.
  - by destruct H as [_ [=]].
Qed.

(** ** [loadAtCommit], [applyCommit] and [applyCreateOpts] *)

(** X7.  The failures of [loadAtCommit] other than the expired capability:
    when the base load fails, [loadAtCommit] fails with the same error and
    [StateManager.atCommit] is not called; when [atCommit] rejects (the
    commit is not in the log), [loadAtCommit] fails with that rejection, and
    the run has made no capability check at all. *)
Theorem loadAtCommit_failures (E : Env) (w : world E) schedule commitId opts :
  let base := run E (load schedule (baseID commitId) (skippingCACAOChecks opts)) w in
  let r := run E (loadAtCommit schedule commitId opts) w in
  (∀ e, outcome base = Err e →
        outcome r = Err e ∧ trace r = trace base ∧ final r = final base)
  ∧ (∀ b e, outcome base = Ok b →
            answer E (AtCommit b commitId) (final base) = inl e →
            outcome r = Err (Rejected e)
            ∧ trace r = trace base ++ [ev (AtCommit b commitId) (inl e)]
            ∧ Forall (λ c, is_Check c = false) (calls (trace r))).
Proof.
  intros base r.
  assert (Hskip : truthy (get (skipCacaoExpirationChecks
            (spread DEFAULT_LOAD_OPTS (skippingCACAOChecks opts)))) = true) by done.
  pose proof (always_calls E _ _ _ w
                (no_check_load schedule (baseID commitId) _ Hskip)) as Hno.
  fold base in Hno.
  subst r. unfold loadAtCommit. rewrite run_bind. fold base.
  destruct base as [ob fb tb]. cbn [outcome final trace] in *.
  split.
  - by intros e ->.
  - intros b e -> Ha. simpl. rewrite Ha. simpl. split_and!; [done..|].
    rewrite calls_app. apply Forall_app. split; [done|]. by repeat constructor.
Qed.

(** X8.  The failures of [applyCommit]: when the state manager rejects the
    commit, the write options are not applied; when the state manager
    rejects the write options, the pin options are not handled (nothing is
    pinned, unpinned or warned about); in both cases the second log line is
    not written.  When [applyCommit] returns, it returns the running state
    that the state manager gave, and the second log line is its last
    call. *)
Theorem applyCommit_failures (E : Env) (w : world E) streamId c opts :
  let r := run E (applyCommit streamId c opts) w in
  let line1 := LogVerbose ("Repository apply commit to stream " ++ toString streamId)%string in
  let line2 := LogVerbose ("Repository applied write options to stream "
                             ++ toString streamId)%string in
  let w1 := after E line1 w in
  let w2 := after E (SmApplyCommit streamId c opts) w1 in
  (∀ e, answer E (SmApplyCommit streamId c opts) w1 = inl e →
        outcome r = Err (Rejected e)
        ∧ calls (trace r) = [line1; SmApplyCommit streamId c opts])
  ∧ (∀ s e, answer E (SmApplyCommit streamId c opts) w1 = inr s →
            answer E (SmApplyWriteOpts s opts) w2 = inl e →
            outcome r = Err (Rejected e)
            ∧ calls (trace r) = [line1; SmApplyCommit streamId c opts;
                                 SmApplyWriteOpts s opts])
  ∧ (∀ s, outcome r = Ok s →
          answer E (SmApplyCommit streamId c opts) w1 = inr s
          ∧ last (calls (trace r)) = Some line2).
Proof.
  intros r line1 line2 w1 w2. subst r line1 line2 w1 w2.
  unfold applyCommit, applyWriteOpts. simpl.
  destruct (answer E (SmApplyCommit streamId c opts) _) as [e|s] eqn:Hc; simpl.
  { split_and!; [by intros ? [= <-]|done|done]. }
  rewrite !run_bind. simpl.
  destruct (answer E (SmApplyWriteOpts s opts) _) as [e|[]] eqn:Hw; simpl.
  { split_and!; [done| |done]. intros ?? [= <-]. rewrite Hw. by intros [= <-]. }
  destruct (run E (handlePinOpts s opts UPDATE) _) as [[[]|e] fh th]; simpl.
  - split_and!; [done| |].
    + intros ?? [= <-]. by rewrite Hw.
    + intros ? [= <-]. split; [done|].
      rewrite calls_app. cbn [calls fmap list_fmap projT1 ev].
      by rewrite last_cons, last_snoc.
  - split_and!; [done| |done]. intros ?? [= <-]. by rewrite Hw.
Qed.

(** X9.  A create that resolves to a stream whose log does not have exactly
    one commit is handled as a LOAD: when the caller has supplied
    [opts.pin], whatever its value, [applyCreateOpts] applies the write
    options, warns that the stream is not pinned or unpinned "as part of a
    load operation", and returns the loaded state; after the load it makes
    these calls only, none of which changes the pin state. *)
Theorem applyCreateOpts_existing_stream (E : Env) (w : world E) schedule id opts s :
  let l := run E (load schedule id opts) w in
  let st := answer E (RsState s) (final l) in
  let w1 := after E (RsState s) (final l) in
  let r := run E (applyCreateOpts schedule id opts) w in
  outcome l = Ok s →
  List.length (log st) ≠ 1%nat →
  get (pin opts) ≠ None →
  answer E (SmApplyWriteOpts s opts) w1 = inr () →
  ∃ st' sid,
    trace r = trace l
              ++ [ev (RsState s) st;
                  ev (SmApplyWriteOpts s opts) (inr ());
                  ev (RsState s) st';
                  ev (StreamIdFromState st') sid;
                  ev (ConsoleWarn (pin_warning (pinStr (get (pin opts)))
                                     (toString sid) "load")) ()]
    ∧ outcome r = Ok s.
Proof.
  intros l st w1 r Hl Hlen Hpin Hw. subst r w1 st. unfold applyCreateOpts.
  rewrite run_bind. fold l. destruct l as [ol fl tl].
  cbn [outcome final trace] in *. subst ol. cbn [outcome final trace].
  unfold opTypeOfCreate, applyWriteOpts, handlePinOpts.
  cbn [run bind call].
  destruct (Nat.eqb_spec (List.length (log (answer E (RsState s) fl))) 1);
    [done|].
  destruct (get (pin opts)) as [p|] eqn:Hp; [|done].
  simpl. rewrite Hw. simpl. unit_answers. by eexists _, _.
Qed.

(** ** The pin options *)

(** X10.  For a CREATE whose [opts.pin] is [true] or is left undefined,
    [handlePinOpts] calls [pinStore.add] on the running state, without the
    [force] argument, as its last call, and its outcome is that of
    [pinStore.add].  Before that call it makes only the two calls of
    [shouldIndex], the read of the state and the question to the index, and
    with [pin: true] it makes no call at all.  No call of the run is a
    warning, and none is [pinStore.rm], [markUnpinned] or [publishTip]. *)
Theorem handlePinOpts_create_pins (E : Env) (w : world E) s opts :
  get (pin opts) ≠ Some false →
  let r := run E (handlePinOpts s opts CREATE) w in
  Forall (λ c, is_warn c = false ∧ is_unpin c = false) (calls (trace r))
  ∧ ∃ reads a,
      Forall (λ c, index_lookup c = true) (calls reads)
      ∧ trace r = reads ++ [ev (PinStoreAdd s None) a]
      ∧ outcome r = match a with
                    | inr _ => Ok ()
                    | inl e => Err (Rejected e)
                    end
      ∧ (get (pin opts) = Some true → reads = []).
Proof.
  intros Hpin r.
  assert (H : ∃ reads a,
      Forall (λ c, index_lookup c = true) (calls reads)
      ∧ trace r = reads ++ [ev (PinStoreAdd s None) a]
      ∧ outcome r = match a with
                    | inr _ => Ok ()
                    | inl e => Err (Rejected e)
                    end
      ∧ (get (pin opts) = Some true → reads = [])).
  { subst r. unfold handlePinOpts, shouldIndex, pin_.
    destruct (get (pin opts)) as [[]|] eqn:Hp; [|done|]; simpl.
    - destruct (answer E (PinStoreAdd s None) w) as [e|[]] eqn:Ha; simpl.
      all: by eexists [], _.
    - destruct (metadata (answer E (RsState s) w) ≫= model) as [m|]; simpl.
      + destruct (answer E (ShouldIndexStream m) _); simpl.
        all: match goal with |- context [answer ?E' (PinStoreAdd ?x None) ?w] =>
               destruct (answer E' (PinStoreAdd x None) w) as [e|[]] eqn:Ha end;
          simpl.
        all: eexists [_; _], _; split_and!;
          [|reflexivity|reflexivity|done]; repeat constructor.
      + match goal with |- context [answer ?E' (PinStoreAdd ?x None) ?w] =>
          destruct (answer E' (PinStoreAdd x None) w) as [e|[]] eqn:Ha end; simpl.
        all: eexists [_], _; split_and!;
          [|reflexivity|reflexivity|done]; repeat constructor. }
  split; [|exact H].
  destruct H as (reads & a & Hr & -> & _). rewrite calls_app.
  apply Forall_app. split; [|by repeat constructor].
  eapply Forall_impl; [exact Hr|]. intros c. by destruct c.
Qed.

Lemma run_handlePinOpts_undefined (E : Env) (Hpure : pure_observers E)
  (w : world E) s opts opType :
  get (pin opts) = None →
  opType ≠ CREATE →
  let r := run E (handlePinOpts s opts opType) w in
  Forall (λ c, is_warn c = false) (calls (trace r))
  ∧ (indexed E w s = true →
     ∃ reads,
       Forall (λ c, inert c) (calls reads)
       ∧ trace r = reads ++ [ev (PinStoreAdd s None)
                               (answer E (PinStoreAdd s None) w)]
       ∧ final r = after E (PinStoreAdd s None) w
       ∧ outcome r = match answer E (PinStoreAdd s None) w with
                     | inr _ => Ok ()
                     | inl e => Err (Rejected e)
                     end)
  ∧ (indexed E w s = false →
     outcome r = Ok () ∧ final r = w
     ∧ Forall (λ c, inert c) (calls (trace r))).
Proof.
  intros Hpin Hop r. subst r.
  assert (Heq : handlePinOpts s opts opType =
    bind (bind (shouldIndex s) (λ x : bool, if x then Ret true else Ret false))
         (λ doPin : bool, if doPin then pin_ s None else Ret tt)).
  { unfold handlePinOpts. rewrite Hpin. by destruct opType. }
  rewrite Heq, !run_bind. clear Heq.
  destruct (run_shouldIndex E w s Hpure) as (Ho & Hf & Hc).
  assert (Hwarn : Forall (λ c, is_warn c = false)
                    (calls (trace (run E (shouldIndex s) w)))).
  { eapply always_calls with (Q := λ _, True). unfold shouldIndex. solve_always. }
  destruct (run E (shouldIndex s) w) as [o f t]. cbn [outcome final trace] in *.
  subst o f. unfold pin_.
  destruct (indexed E w s); simpl.
  - destruct (answer E (PinStoreAdd s None) w) as [e|[]] eqn:Ha; simpl.
    all: rewrite app_nil_r.
    all: split_and!; [|intros _; by exists t|done].
    all: rewrite calls_app; apply Forall_app; split; [done|]; by repeat constructor.
  - rewrite !app_nil_r. done.
Qed.

(** X11.  For an UPDATE or a LOAD whose [opts.pin] is left undefined, where
    reads and logging leave the world as it is: [handlePinOpts] pins the
    stream exactly when it is indexed (it has a model that the indexing API
    says is indexed), and its outcome is then that of [pinStore.add]; when
    the stream is not indexed, [handlePinOpts] has only read, and returns
    with the world as it was.  It warns in neither case. *)
Theorem handlePinOpts_undefined_pin (E : Env) (Hpure : pure_observers E)
  (w : world E) s opts opType :
  get (pin opts) = None →
  opType ≠ CREATE →
  let r := run E (handlePinOpts s opts opType) w in
  Forall (λ c, is_warn c = false) (calls (trace r))
  ∧ (indexed E w s = true →
     ∃ reads,
       Forall (λ c, inert c) (calls reads)
       ∧ trace r = reads ++ [ev (PinStoreAdd s None)
                               (answer E (PinStoreAdd s None) w)]
       ∧ outcome r = match answer E (PinStoreAdd s None) w with
                     | inr _ => Ok ()
                     | inl e => Err (Rejected e)
                     end)
  ∧ (indexed E w s = false →
     outcome r = Ok () ∧ final r = w
     ∧ Forall (λ c, inert c) (calls (trace r))).
Proof.
  intros Hpin Hop r.
  destruct (run_handlePinOpts_undefined E Hpure w s opts opType Hpin Hop)
    as (Hw & Hy & Hn).
  split; [done|]. split; [|done].
  intros Hi. destruct (Hy Hi) as (reads & ? & ? & _ & ?). by exists reads.
Qed.

(** X12.  An [applyCommit] whose [opts.pin] is left undefined, once the state
    manager has applied the commit and the write options, where reads and
    logging leave the world as it is: when the stream is indexed,
    [pinStore.add] is called on it, [applyCommit] returns the state exactly
    when that call succeeds, and where a successful [pinStore.add] leaves
    the running state marked as pinned the stream is pinned at the end;
    when the stream is not indexed, the state is returned in the world that
    the state manager left, and nothing has changed the pin state. *)
Theorem applyCommit_pins_indexed (E : Env) (Hpure : pure_observers E)
  (w : world E) streamId c opts s :
  let r := run E (applyCommit streamId c opts) w in
  let w1 := after E (SmApplyCommit streamId c opts) w in
  let w2 := after E (SmApplyWriteOpts s opts) w1 in
  get (pin opts) = None →
  answer E (SmApplyCommit streamId c opts) w = inr s →
  answer E (SmApplyWriteOpts s opts) w1 = inr () →
  (indexed E w2 s = true →
   PinStoreAdd s None ∈ calls (trace r)
   ∧ outcome r = match answer E (PinStoreAdd s None) w2 with
                 | inr _ => Ok s
                 | inl e => Err (Rejected e)
                 end
   ∧ final r = after E (PinStoreAdd s None) w2
   ∧ (add_marks_pinned E →
      answer E (PinStoreAdd s None) w2 = inr () →
      answer E (RsIsPinned s) (final r) = true))
  ∧ (indexed E w2 s = false →
     outcome r = Ok s ∧ final r = w2
     ∧ Forall (λ c, is_pin_change c = false) (calls (trace r))).
Proof.
  intros r w1 w2 Hpin Hc Hw. subst r w2 w1.
  unfold applyCommit, applyWriteOpts. simpl.
  rewrite (Hpure (LogVerbose _)) by done. rewrite Hc. simpl.
  rewrite !run_bind. simpl. rewrite Hw. simpl.
  match goal with |- context [run E (handlePinOpts s opts UPDATE) ?w] =>
    destruct (run_handlePinOpts_undefined E Hpure w s opts UPDATE)
      as (_ & Hy & Hn); [done..|];
    destruct (run E (handlePinOpts s opts UPDATE) w) as [o f t];
    set (w2 := w) in *
  end.
  cbn [outcome final trace] in *. split.
  - intros Hi. destruct (Hy Hi) as (reads & _ & -> & -> & ->).
    destruct (answer E (PinStoreAdd s None) w2) as [e|[]] eqn:Ha; simpl.
    + split_and!; [|done..]. rewrite !elem_of_cons, calls_app, elem_of_app.
      do 3 right. right. simpl. rewrite elem_of_cons. by left.
    + rewrite (Hpure (LogVerbose _)) by done. split_and!; [|done..|].
      * rewrite !elem_of_cons, !calls_app, !elem_of_app.
        do 3 right. left. right. simpl. rewrite elem_of_cons. by left.
      * intros Hadd _. by apply Hadd.
  - intros Hi. destruct (Hn Hi) as (-> & -> & Hin). simpl.
    rewrite (Hpure (LogVerbose _)) by done. split_and!; [done..|].
    repeat (apply Forall_cons; split; [done|]).
    rewrite calls_app. apply Forall_app. split; [|by repeat constructor].
    eapply Forall_impl; [exact Hin|]. intros c'. by destruct c'.
Qed.

(** X13.  [fromMemoryOrStore] stays local, as its comment promises: it makes
    no call to the handlers, the dispatcher or [sync].  A memory hit is
    returned as it is.  A state that it returns is in the cache: found
    there, or put there under its own identifier.  It returns [undefined]
    exactly when both the cache and the state store miss. *)
Theorem fromMemoryOrStore_stays_local (E : Env) (w : world E) id :
  let r := run E (fromMemoryOrStore id) w in
  let w1 := after E (CacheGet (toString id)) w in
  Forall (λ c, is_network c = false) (calls (trace r))
  ∧ (∀ s, answer E (CacheGet (toString id)) w = Some s →
          outcome r = Ok (Some s) ∧ trace r = memory_hit id s)
  ∧ (∀ s, outcome r = Ok (Some s) → cached_in id (trace r) s)
  ∧ (outcome r = Ok None
     ↔ answer E (CacheGet (toString id)) w = None
       ∧ answer E (StateStoreLoad id) w1 = inr None).
Proof.
  intros r w1. split_and!.
  - eapply always_calls with (Q := λ _, True).
    unfold fromMemoryOrStore, fromMemory, fromStreamStateStore, add.
    solve_always.
  - intros s Hs. subst r. unfold fromMemoryOrStore.
    rewrite run_bind, run_fromMemory, Hs. done.
  - intros s Hs. pose proof (run_traces E (fromMemoryOrStore id) w) as H.
    fold r in H. rewrite Hs in H. revert H. generalize (trace r). intros t.
    unfold fromMemoryOrStore.
    intros [(e & _ & [=])|([m|] & t1 & t2 & Hm & H & ->)]%traces_bind.
    + destruct H as [-> [= ->]]. rewrite app_nil_r.
      by apply traces_fromMemory_cached.
    + by apply cached_in_app_r, traces_fromStreamStateStore_cached.
  - subst r w1. unfold fromMemoryOrStore. rewrite run_bind, run_fromMemory.
    destruct (answer E (CacheGet (toString id)) w) as [s|];
      cbn [outcome final trace].
    { split; [done|]. by intros [[=] _]. }
    unfold fromStreamStateStore, add. simpl.
    destruct (answer E (StateStoreLoad id) _) as [e|[st|]] eqn:Hl; simpl;
      [split; [done|by intros [_ [=]]]| |done].
    match goal with |- context [answer E (AnchorRequestStoreLoad id) ?w] =>
      destruct (answer E (AnchorRequestStoreLoad id) w) as [e|[req|]]
    end; simpl; [split; [done|by intros [_ [=]]]| |split; [done|by intros [_ [=]]]].
    match goal with |- context [answer E AnchorServicePresent ?w] =>
      destruct (answer E AnchorServicePresent w)
    end; simpl; (split; [done|by intros [_ [=]]]).
Qed.

(** ** The methods that reach further collaborators *)

Lemma wrun_bind (E : WEnv) {A B} (p : WProg A) (f : A → WProg B) (w : wworld E) :
  wrun E (wbind p f) w =
    match woutcome (wrun E p w) with
    | WOk a =>
        let r := wrun E (f a) (wfinal (wrun E p w)) in
        mkWRun (woutcome r) (wfinal r) (wtrace (wrun E p w) ++ wtrace r)
    | WErr e => mkWRun (WErr e) (wfinal (wrun E p w)) (wtrace (wrun E p w))
    end.
Proof.
  revert w. induction p as [a|e|c k IH]; intros w; simpl.
  - by destruct (wrun E (f a) w).
  - done.
  - rewrite IH.
    by destruct (woutcome (wrun E (k (wanswer E c w)) (wafter E c w))).
Qed.

(** A program over the calls of the first part runs in a wider environment
    as it does in the part of the environment that answers those calls. *)
Lemma wrun_lift (E : WEnv) {A} (p : Prog A) (w : wworld E) :
  wrun E (lift p) w =
    let r := run (base_env E) p w in
    mkWRun (lift_outcome (outcome r)) (final r) (lift_ev <$> trace r).
Proof.
  revert w. induction p as [a|e|c k IH]; intros w; simpl; [done..|].
  by rewrite IH.
Qed.

Lemma wcalls_app t1 t2 : wcalls (t1 ++ t2) = wcalls t1 ++ wcalls t2.
Proof. unfold wcalls. by rewrite fmap_app. Qed.


Lemma wcalls_lift t : wcalls (lift_ev <$> t) = Base <$> calls t.
Proof. unfold wcalls, calls. rewrite <- !list_fmap_compose. done. Qed.

Lemma checks_lift (l : list Call) :
  filter (λ c, is_WCheck c) (Base <$> l) = Base <$> filter (λ c, is_Check c) l.
Proof.
  induction l as [|c l IH]; [done|]. rewrite fmap_cons, !filter_cons.
  change (is_WCheck (Base c)) with (is_Check c).
  destruct (decide (is_Check c)); by rewrite IH.
Qed.

(** X14.  [loadAtTime] loads the base stream with the options of the caller
    as they are, and then calls [StateManager.atTime] on the state that
    [load] returned, with [opts.atTime]; its outcome is that of [atTime].
    When the load fails, [atTime] is not called and the error is the one of
    the load.  Unlike [loadAtCommit], it makes no capability check of its
    own: the checks of the run are those of the base load, it ends with the
    expired capability exactly when the base load does, and with
    [skipCacaoExpirationChecks] set by the caller no check is made at
    all. *)
Theorem loadAtTime_checks_base_only (E : WEnv) (w : wworld E) baseID_ schedule
  id opts :
  let base := run (base_env E) (load schedule (baseID_ id) opts) w in
  let r := wrun E (loadAtTime baseID_ schedule id opts) w in
  match outcome base with
  | Err e => woutcome r = WErr (Core e) ∧ wtrace r = lift_ev <$> trace base
  | Ok b =>
      let a := wanswer E (AtTime b (get (atTime opts))) (final base) in
      wtrace r = (lift_ev <$> trace base)
                 ++ [wev (AtTime b (get (atTime opts))) a]
      ∧ woutcome r = match a with
                     | inr snap => WOk snap
                     | inl e => WErr (Core (Rejected e))
                     end
  end
  ∧ filter (λ c, is_WCheck c) (wcalls (wtrace r))
    = Base <$> filter (λ c, is_Check c) (calls (trace base))
  ∧ (woutcome r = WErr (Core CapabilityExpired)
     ↔ outcome base = Err CapabilityExpired)
  ∧ (truthy (get (skipCacaoExpirationChecks opts)) = true →
     Forall (λ c, is_WCheck c = false) (wcalls (wtrace r))
     ∧ woutcome r ≠ WErr (Core CapabilityExpired)).
Proof.
  intros base r.
  assert (Hshape :
    match outcome base with
    | Err e => woutcome r = WErr (Core e) ∧ wtrace r = lift_ev <$> trace base
    | Ok b =>
        let a := wanswer E (AtTime b (get (atTime opts))) (final base) in
        wtrace r = (lift_ev <$> trace base)
                   ++ [wev (AtTime b (get (atTime opts))) a]
        ∧ woutcome r = match a with
                       | inr snap => WOk snap
                       | inl e => WErr (Core (Rejected e))
                       end
    end).
  { subst r. unfold loadAtTime. rewrite wrun_bind, wrun_lift. fold base.
    destruct base as [[b|e] fb tb]; cbn [outcome final trace lift_outcome
      woutcome wfinal wtrace]; [|done].
    simpl. by destruct (wanswer E (AtTime b _) fb). }
  assert (Hchecks : filter (λ c, is_WCheck c) (wcalls (wtrace r))
                    = Base <$> filter (λ c, is_Check c) (calls (trace base))).
  { destruct (outcome base) as [b|e].
    - destruct Hshape as [-> _]. rewrite wcalls_app, filter_app, wcalls_lift.
      rewrite checks_lift. simpl. by rewrite app_nil_r.
    - destruct Hshape as [_ ->]. by rewrite wcalls_lift, checks_lift. }
  assert (Hexp : woutcome r = WErr (Core CapabilityExpired)
                 ↔ outcome base = Err CapabilityExpired).
  { destruct (outcome base) as [b|e].
    - destruct Hshape as [_ ->]. cbv zeta.
      by destruct (wanswer E (AtTime b _) _).
    - destruct Hshape as [-> _]. split; by intros [= ->]. }
  split; [exact Hshape|]. split; [exact Hchecks|]. split; [exact Hexp|].
  intros Hskip.
  assert (Hskip' : truthy (get (skipCacaoExpirationChecks
                                  (spread DEFAULT_LOAD_OPTS opts))) = true).
  { simpl. by destruct (skipCacaoExpirationChecks opts). }
  pose proof (always_run (base_env E) _ _ _ w
                (no_check_load schedule (baseID_ id) opts Hskip')) as [Hc He].
  fold base in Hc, He. split.
  - apply Forall_forall. intros c Hin.
    destruct (is_WCheck c) eqn:Hcheck; [|done].
    assert (c ∈ filter (λ c, is_WCheck c) (wcalls (wtrace r))) as Hin'.
    { apply list_elem_of_filter. by rewrite Hcheck. }
    rewrite Hchecks in Hin'. apply list_elem_of_fmap in Hin' as (c' & -> & Hin').
    apply list_elem_of_filter in Hin' as [Hy Hin'].
    rewrite Forall_forall in Hc. rewrite (Hc c' Hin') in Hy. done.
  - rewrite Hexp. intros H. by apply (He _ H).
Qed.

(** X15.  [randomPinnedStreamState] asks the state store for at most one
    identifier.  When the store lists none, it returns [null] without
    loading anything.  It fails with the error that reports [n] identifiers
    exactly when the store lists [n] of them and [n] is more than one, and
    loads nothing then either.  The state store is asked for a state only
    when exactly one identifier is listed, and for the stream that
    [StreamID.fromString] makes of it; the run makes three calls at
    most. *)
Theorem randomPinnedStreamState_edges (E : WEnv) (w : wworld E) :
  let r := wrun E randomPinnedStreamState w in
  let list := ListStoredStreamIDs None 1 in
  let w1 := wafter E list w in
  (wanswer E list w = inr [] →
   woutcome r = WOk None ∧ wcalls (wtrace r) = [list])
  ∧ (∀ n, woutcome r = WErr (UnexpectedStreamIDs n)
          ↔ ∃ l, wanswer E list w = inr l ∧ List.length l = n ∧ (1 < n)%nat)
  ∧ (∀ n, woutcome r = WErr (UnexpectedStreamIDs n) → wcalls (wtrace r) = [list])
  ∧ Forall (λ c, ∀ id, c = Base (StateStoreLoad id) →
                 ∃ str, wanswer E list w = inr [str]
                        ∧ wanswer E (StreamIDFromString str) w1 = inr id)
      (wcalls (wtrace r))
  ∧ (∀ str id,
       wanswer E list w = inr [str] →
       wanswer E (StreamIDFromString str) w1 = inr id →
       wcalls (wtrace r) = [list; StreamIDFromString str; Base (StateStoreLoad id)]
       ∧ woutcome r =
           match wanswer E (Base (StateStoreLoad id))
                   (wafter E (StreamIDFromString str) w1) with
           | inr st => WOk st
           | inl e => WErr (Core (Rejected e))
           end)
  ∧ (List.length (wtrace r) ≤ 3)%nat.
Proof.
  intros r list w1. subst r w1 list. unfold randomPinnedStreamState. simpl.
  destruct (wanswer E (ListStoredStreamIDs None 1) w) as [e|[|str [|str' l]]]
    eqn:Hl; simpl.
  - split_and!; try done.
    + intros n. split; [done|]. by intros (l & [=] & _).
    + repeat constructor. by intros.
    + lia.
  - split_and!; try done.
    + intros n. split; [done|]. intros (l & [= <-] & <- & H). simpl in H. lia.
    + repeat constructor. by intros.
    + lia.
  - destruct (wanswer E (StreamIDFromString str) _) as [e|id] eqn:Hid; simpl.
    + split_and!; try done.
      * intros n. split; [done|]. intros (l & [= <-] & <- & H). simpl in H. lia.
      * repeat constructor; by intros.
      * intros ?? [= <-]. by rewrite Hid.
      * lia.
    + destruct (wanswer E (Base (StateStoreLoad id)) _) as [e|st] eqn:Hst; simpl.
      all: split_and!; try done.
      all: try (intros n; split; [done|];
                intros (l & [= <-] & <- & H); simpl in H; lia).
      all: try (intros ?? [= <-]; rewrite Hid; intros [= <-]; by rewrite Hst).
      all: try lia.
      all: repeat constructor; try by intros.
      all: intros ? [= <-]; by exists str.
  - split_and!; try done.
    + intros n. split.
      * intros [= <-]. eexists. split; [done|]. simpl. split; [done|lia].
      * by intros (l' & [= <-] & <- & _).
    + repeat constructor. by intros.
    + lia.
Qed.

(** X16.  The [firstAnchor] of the record that is indexed: it is a date
    exactly when the log has an anchor commit and the first one carries a
    timestamp other than zero; the date is then that timestamp, in
    milliseconds.  Anchor commits after the first are not looked at, even
    when the first has no timestamp. *)
Theorem firstAnchor_is_first_anchor (l : list LogEntry) (d : Z) :
  asDate (firstAnchorTimestamp l) = Some d
  ↔ ∃ pre e post t,
      l = pre ++ e :: post
      ∧ Forall (λ x, is_anchor x = false) pre
      ∧ is_anchor e = true
      ∧ entry_timestamp e = Some t
      ∧ t ≠ 0
      ∧ d = t * 1000.
Proof.
  unfold firstAnchorTimestamp. induction l as [|x l IH]; simpl.
  - split; [done|]. intros (pre & e & post & t & H & _). by destruct pre.
  - destruct (is_anchor x) eqn:Hx; simpl.
    + split.
      * unfold asDate. destruct (entry_timestamp x) as [t|] eqn:Ht; [|done].
        destruct (Z.eqb_spec t 0); [done|]. intros [= <-].
        by exists [], x, l, t.
      * intros (pre & e & post & t & H & Hpre & He & Ht & Hne & ->).
        destruct pre as [|y pre]; simpl in H; injection H as -> ->.
        -- rewrite Ht. simpl. by destruct (Z.eqb_spec t 0).
        -- apply Forall_cons in Hpre as [Hy _]. by rewrite Hx in Hy.
    + rewrite IH. split.
      * intros (pre & e & post & t & -> & Hpre & He & Ht & Hne & ->).
        exists (x :: pre), e, post, t. split_and!; try done.
        by constructor.
      * intros (pre & e & post & t & H & Hpre & He & Ht & Hne & ->).
        destruct pre as [|y pre]; simpl in H; injection H as -> ->.
        -- by rewrite Hx in He.
        -- apply Forall_cons in Hpre as [_ Hpre]. by exists pre, e, post, t.
Qed.

(** X17.  Where the reads of a running state leave the world as it is:
    [indexStreamIfNeeded] returns at once, with the world as it was, when
    the stream has no model; it fails on the first read when the state has
    no metadata; otherwise it calls [index.indexStream] exactly once, as
    its last call, with the model, the first controller, the content and
    the two anchor dates of one and the same state, and the identifier and
    the tip of the running state; its outcome is that of [indexStream]. *)
Theorem indexStreamIfNeeded_record (E : WEnv) (Hstable : stable_reads E)
  (w : wworld E) (s : Ref) :
  let v := wanswer E (RsValue s) w in
  let r := wrun E (indexStreamIfNeeded s) w in
  match metadata v with
  | None =>
      (∃ msg, woutcome r = WErr (Core (TypeError msg)))
      ∧ wcalls (wtrace r) = [RsValue s]
  | Some md =>
      match model md with
      | None =>
          woutcome r = WOk () ∧ wfinal r = w ∧ wcalls (wtrace r) = [RsValue s]
      | Some m =>
          let record :=
            {| ix_model := Some m;
               ix_streamID := wanswer E (Base (RsId s)) w;
               ix_controller := head (controllers md);
               ix_streamContent := content v;
               ix_tip := wanswer E (Base (RsTip s)) w;
               ix_lastAnchor := asDate (wanswer E (AnchorTimestampFromState v) w);
               ix_firstAnchor := asDate (firstAnchorTimestamp (log v)) |} in
          ∃ reads,
            wtrace r = reads ++ [wev (IndexStream record)
                                   (wanswer E (IndexStream record) w)]
            ∧ Forall (λ c, is_IndexStream c = false) (wcalls reads)
            ∧ woutcome r = match wanswer E (IndexStream record) w with
                           | inr _ => WOk ()
                           | inl e => WErr (Core (Rejected e))
                           end
      end
  end.
Proof.
  intros v r. subst r v. unfold indexStreamIfNeeded, metadataOf.
  assert (Hv : ∀ w', wafter E (RsValue s) w' = w') by (intros; apply Hstable).
  assert (Hi : ∀ w', wafter E (Base (RsId s)) w' = w') by (intros; apply Hstable).
  assert (Ht : ∀ w', wafter E (Base (RsTip s)) w' = w') by (intros; apply Hstable).
  assert (Ha : ∀ st w', wafter E (AnchorTimestampFromState st) w' = w')
    by (intros; apply (Hstable s)).
  cbn [wrun wbind wcall worThrow]. rewrite !Hv.
  destruct (metadata (wanswer E (RsValue s) w)) as [md|] eqn:Hmd;
    cbn [wrun wbind woutcome wtrace wfinal].
  2: { split; [eauto|done]. }
  destruct (model md) as [m|] eqn:Hm; cbn [wrun wbind woutcome wtrace wfinal].
  2: { done. }
  rewrite !Hv, !Ha. rewrite Hmd.
  cbn [wrun wbind woutcome wtrace wfinal]. rewrite !Hi, !Hv. rewrite Hmd.
  cbn [wrun wbind woutcome wtrace wfinal]. rewrite !Hv, !Ht, Hm.
  destruct (wanswer E (IndexStream _) w) as [e|[]];
    cbn [wrun wbind woutcome wtrace wfinal].
  all: eexists (_ :: _ :: _ :: _ :: _ :: _ :: _ :: _ :: [_]).
  all: split_and!; [reflexivity|repeat constructor|reflexivity].
Qed.



(** ** The capability check of [load] *)

Lemma run_finishLoad_check (E : Env) (w : world E) o s synced :
  let r := run E (finishLoad o s synced) w in
  if truthy (get (skipCacaoExpirationChecks o))
  then Forall (λ c, is_Check c = false ∧ is_Sync c = false) (calls (trace r))
       ∧ outcome r = Ok s
  else
    let st := answer E (RsState s) w in
    let ok := answer E (CheckForCacaoExpiration st) (after E (RsState s) w) in
    ∃ rest,
      trace r = ev (RsState s) st :: ev (CheckForCacaoExpiration st) ok :: rest
      ∧ Forall (λ c, is_Check c = false ∧ is_Sync c = false) (calls rest)
      ∧ (ok = true → outcome r = Ok s)
      ∧ (ok = false → rest = [] ∧ outcome r = Err CapabilityExpired).
Proof.
  unfold finishLoad. simpl.
  destruct (truthy _); simpl.
  - destruct synced; simpl; [|by split; [constructor|]].
    destruct (answer E (RsIsPinned s) w); simpl; unit_answers;
      (split; [repeat constructor|done]).
  - destruct (answer E (CheckForCacaoExpiration _) _) eqn:Hc; simpl.
    + destruct synced; simpl.
      * match goal with |- context [answer E (RsIsPinned s) ?w] =>
          destruct (answer E (RsIsPinned s) w) end; simpl; unit_answers.
        all: eexists; split_and!; [reflexivity| |done|done].
        all: repeat constructor.
      * exists []. by split_and!.
    + exists []. by split_and!.
Qed.

(** X19.  The capability check of [load] comes after the queued task, and
    is made on the state that the running state has then.  The queued task
    (the admission by the queue and the task itself, with its calls to
    [sync]) makes no check and marks nothing; when it fails, [load] fails
    with its error, which is not the expired capability, and makes no
    further call.  When it yields [s]: with [skipCacaoExpirationChecks]
    truthy [load] makes no check and returns [s]; otherwise the next two
    calls of [load] are the read of the state of [s] and the check of that
    state, no later call is a check or a [sync], [s] is returned when the
    check passes, and when it fails it is the last call and [load] ends with
    the expired capability. *)
Theorem load_checks_capability (E : Env) (w : world E) schedule id opts :
  let o := spread DEFAULT_LOAD_OPTS opts in
  let q := run E (queuedTask schedule id o) w in
  let r := run E (load schedule id opts) w in
  Forall (λ c, is_Check c = false ∧ is_Mark c = false) (calls (trace q))
  ∧ (∀ e, outcome q = Err e →
          e ≠ CapabilityExpired ∧ outcome r = Err e ∧ trace r = trace q)
  ∧ (∀ s synced, outcome q = Ok (s, synced) →
       if truthy (get (skipCacaoExpirationChecks o))
       then
         ∃ rest,
           trace r = trace q ++ rest
           ∧ Forall (λ c, is_Check c = false ∧ is_Sync c = false) (calls rest)
           ∧ outcome r = Ok s
       else
         let st := answer E (RsState s) (final q) in
         let ok := answer E (CheckForCacaoExpiration st)
                     (after E (RsState s) (final q)) in
         ∃ rest,
           trace r = trace q ++ ev (RsState s) st
                             :: ev (CheckForCacaoExpiration st) ok :: rest
           ∧ Forall (λ c, is_Check c = false ∧ is_Sync c = false) (calls rest)
           ∧ (ok = true → outcome r = Ok s)
           ∧ (ok = false → rest = [] ∧ outcome r = Err CapabilityExpired))
  ∧ (outcome r = Err CapabilityExpired →
     ∃ s synced st,
       outcome q = Ok (s, synced)
       ∧ truthy (get (skipCacaoExpirationChecks o)) = false
       ∧ st = answer E (RsState s) (final q)
       ∧ trace r = trace q ++ [ev (RsState s) st;
                               ev (CheckForCacaoExpiration st) false]).
Proof.
  intros o q r. subst r. unfold load. fold o.
  change (orThrow (call (LoadingQRun id)) ;; loadTask schedule id o)
    with (queuedTask schedule id o).
  rewrite run_bind. fold q.
  pose proof (always_run E _ _ _ w (footprint_queued schedule id o)) as [Hq He].
  change (orThrow (call (LoadingQRun id)) ;; loadTask schedule id o)
    with (queuedTask schedule id o) in Hq, He. fold q in Hq, He.
  assert (Hq' : Forall (λ c, is_Check c = false ∧ is_Mark c = false)
                  (calls (trace q))).
  { eapply Forall_impl; [exact Hq|]. by intros c (_ & ? & ?). }
  assert (Hne : ∀ e, outcome q = Err e → e ≠ CapabilityExpired).
  { intros e H ->. by destruct (He _ H) as [[[=]|[? [=]]]|[? [=]]]. }
  clear Hq He.
  destruct q as [[[s synced]|e] fq tq]; cbn [outcome final trace] in *.
  2: { split_and!; [done| |done|].
       - intros e' [= <-]. split_and!; [|done..]. by apply Hne.
       - intros [= ->]. by destruct (Hne _ eq_refl). }
  pose proof (run_finishLoad_check E fq o s synced) as Hf. cbv zeta in Hf.
  destruct (run E (finishLoad o s synced) fq) as [o' f' t'].
  cbn [outcome final trace] in *.
  split; [done|]. split; [done|].
  destruct (truthy (get (skipCacaoExpirationChecks o))).
  - destruct Hf as [Hc ->]. split; [|done].
    intros ?? [= <- <-]. by exists t'.
  - destruct Hf as (rest & -> & Hrest & Hok & Hfail). split.
    + intros ?? [= <- <-]. by exists rest.
    + intros Ho.
      destruct (answer E (CheckForCacaoExpiration _) _) eqn:Hc.
      * by rewrite (Hok eq_refl) in Ho.
      * destruct (Hfail eq_refl) as [-> _].
        by exists s, synced, (answer E (RsState s) fq).
Qed.

(** ** The further theorems at work in the reference environment *)

Lemma wreference_stable_reads : stable_reads WReference.wenv.
Proof. intros s w. by split_and!. Qed.

Lemma load_unknown_stream_witness :
  let E := Reference.env in
  let r := run E (load [] Examples.idM empty_opts) Examples.w_network in
  outcome r = Err (NoGenesisCommit "cidM")
  ∧ Forall (λ c, (c = LoadingQRun Examples.idM ∨ loader_call c = true)
                 ∧ is_Sync c = false ∧ is_Check c = false ∧ is_Mark c = false)
      (calls (trace r)).
Proof.
  intros E r.
  assert (H : outcome r = Err (NoGenesisCommit "cidM")) by (vm_compute; reflexivity).
  split; [exact H|].
  exact (proj2 (load_unknown_stream E Examples.w_network [] Examples.idM
                  empty_opts "cidM" H)).
Defined.

Lemma load_never_sync_witness :
  let E := Reference.env in
  let w := Examples.w_network in
  let opts := with_sync (present (Some NEVER_SYNC)) empty_opts in
  get (sync (spread DEFAULT_LOAD_OPTS opts)) = Some NEVER_SYNC
  ∧ outcome (run E (_loadGenesis Examples.idA)
               (after E (LoadingQRun Examples.idA) w)) = Ok (0%nat, false)
  ∧ syncs (trace (run E (load [] Examples.idA opts) w)) = []
  ∧ Forall (λ c, is_Mark c = false)
      (calls (trace (run E (load [] Examples.idA opts) w))).
Proof.
  intros E w opts.
  assert (H1 : get (sync (spread DEFAULT_LOAD_OPTS opts)) = Some NEVER_SYNC)
    by reflexivity.
  assert (H2 : outcome (run E (_loadGenesis Examples.idA)
                          (after E (LoadingQRun Examples.idA) w))
               = Ok (0%nat, false)) by (vm_compute; reflexivity).
  split; [exact H1|]. split; [exact H2|].
  destruct (load_never_sync E w [] Examples.idA opts 0%nat false H1) as [Hs H].
  split; [exact Hs|].
  destruct (H eq_refl H2) as (rest & _ & _ & _ & Hm).
  exact (Hm eq_refl).
Defined.

Lemma load_returns_cached_state_witness :
  let E := Reference.env in
  let r := run E (load [] Examples.idA empty_opts) Examples.w_network in
  outcome r = Ok 0%nat ∧ cached_in Examples.idA (trace r) 0%nat.
Proof.
  intros E r.
  assert (H : outcome r = Ok 0%nat) by (vm_compute; reflexivity).
  split; [exact H|].
  exact (load_returns_cached_state E Examples.w_network [] Examples.idA
           empty_opts 0%nat H).
Defined.

Lemma applyCreateOpts_existing_stream_witness :
  let E := Reference.env in
  let w := Examples.w_indexed in
  let idB := mkStreamID "tile" "cidB" "tile:cidB" in
  let opts := with_pin (present (Some true)) empty_opts in
  let l := run E (load [] idB opts) w in
  outcome l = Ok 0%nat
  ∧ List.length (log (answer E (RsState 0%nat) (final l))) ≠ 1%nat
  ∧ get (pin opts) ≠ None
  ∧ outcome (run E (applyCreateOpts [] idB opts) w) = Ok 0%nat.
Proof.
  intros E w idB opts l.
  assert (H1 : outcome l = Ok 0%nat) by (vm_compute; reflexivity).
  assert (H2 : List.length (log (answer E (RsState 0%nat) (final l))) ≠ 1%nat)
    by (vm_compute; discriminate).
  assert (H3 : get (pin opts) ≠ None) by discriminate.
  split; [exact H1|]. split; [exact H2|]. split; [exact H3|].
  destruct (applyCreateOpts_existing_stream E w [] idB opts 0%nat H1 H2 H3 eq_refl)
    as (st' & sid & _ & Ho).
  exact Ho.
Defined.

Lemma handlePinOpts_create_pins_witness :
  let E := Reference.env in
  let w := Examples.w_pinned in
  let r := run E (handlePinOpts 0%nat empty_opts CREATE) w in
  get (pin empty_opts) ≠ Some false
  ∧ Forall (λ c, is_warn c = false ∧ is_unpin c = false) (calls (trace r))
  ∧ calls (trace r) = [RsState 0%nat; PinStoreAdd 0%nat None].
Proof.
  intros E w r.
  assert (H1 : get (pin empty_opts) ≠ Some false) by discriminate.
  split; [exact H1|].
  split; [exact (proj1 (handlePinOpts_create_pins E w 0%nat empty_opts H1))|].
  vm_compute. reflexivity.
Defined.

Lemma handlePinOpts_undefined_pin_witness :
  let E := Reference.env in
  let w := Examples.w_indexed in
  pure_observers E
  ∧ get (pin empty_opts) = None
  ∧ indexed E w 0%nat = true
  ∧ ∃ reads,
      trace (run E (handlePinOpts 0%nat empty_opts UPDATE) w)
      = reads ++ [ev (PinStoreAdd 0%nat None) (answer E (PinStoreAdd 0%nat None) w)].
Proof.
  intros E w.
  assert (H1 : indexed E w 0%nat = true) by (vm_compute; reflexivity).
  assert (H2 : UPDATE ≠ CREATE) by discriminate.
  split; [exact reference_pure_observers|]. split; [reflexivity|].
  split; [exact H1|].
  destruct (handlePinOpts_undefined_pin E reference_pure_observers w 0%nat
              empty_opts UPDATE eq_refl H2) as (_ & Hy & _).
  destruct (Hy H1) as (reads & _ & Ht & _).
  exists reads. exact Ht.
Defined.

Lemma applyCommit_pins_indexed_witness :
  let E := Reference.env in
  let w := Examples.w_indexed in
  let idB := mkStreamID "tile" "cidB" "tile:cidB" in
  let w1 := after E (SmApplyCommit idB "cidB2" empty_opts) w in
  let w2 := after E (SmApplyWriteOpts 0%nat empty_opts) w1 in
  pure_observers E
  ∧ answer E (SmApplyCommit idB "cidB2" empty_opts) w = inr 0%nat
  ∧ indexed E w2 0%nat = true
  ∧ PinStoreAdd 0%nat None
      ∈ calls (trace (run E (applyCommit idB "cidB2" empty_opts) w)).
Proof.
  intros E w idB w1 w2.
  assert (H1 : answer E (SmApplyCommit idB "cidB2" empty_opts) w = inr 0%nat)
    by (vm_compute; reflexivity).
  assert (H2 : indexed E w2 0%nat = true) by (vm_compute; reflexivity).
  split; [exact reference_pure_observers|]. split; [exact H1|].
  split; [exact H2|].
  destruct (applyCommit_pins_indexed E reference_pure_observers w idB "cidB2"
              empty_opts 0%nat eq_refl H1 eq_refl) as [Hy _].
  exact (proj1 (Hy H2)).
Defined.

Lemma indexStreamIfNeeded_record_witness :
  let E := WReference.wenv in
  let w := WExamples.w_anchored in
  stable_reads E
  ∧ ∃ reads a,
      wtrace (wrun E (indexStreamIfNeeded 0%nat) w)
      = reads ++ [wev (IndexStream
                         {| ix_model := Some Examples.idM;
                            ix_streamID := mkStreamID "tile" "cidC" "tile:cidC";
                            ix_controller := Some "did:key:z6Mk";
                            ix_streamContent := "doc";
                            ix_tip := "cidC3";
                            ix_lastAnchor := Some 1700003600000;
                            ix_firstAnchor := Some 1700000000000 |}) a].
Proof.
  intros E w. split; [exact wreference_stable_reads|].
  destruct (indexStreamIfNeeded_record E wreference_stable_reads w 0%nat)
    as (reads & Ht & _).
  exists reads. eexists. exact Ht.
Defined.

(** Runs of the further methods in the reference environment, on the world
    [w_anchored]: [close] completes the two cached streams in the order of
    the cache; [randomPinnedStreamState] gives the one stored state; and
    [loadAtTime], asked for a time between the two anchors, gives the log
    up to the first anchor. *)
Example close_in_reference :
  let r := wrun WReference.wenv close WExamples.w_anchored in
  woutcome r = WOk ()
  ∧ wcalls (wtrace r) =
      [LoadingQClose; ExecutionQClose; CacheEntries;
       CacheDelete "tile:cidC"; RsComplete 0%nat;
       CacheDelete "tile:cidA"; RsComplete 1%nat;
       PinStoreClose; IndexClose].
Proof. vm_compute. done. Qed.

Example randomPinnedStreamState_in_reference :
  woutcome (wrun WReference.wenv randomPinnedStreamState WExamples.w_anchored)
  = WOk (Some WExamples.stateC).
Proof. vm_compute. done. Qed.

Example loadAtTime_in_reference :
  let idC := mkStreamID "tile" "cidC" "tile:cidC" in
  let opts := mkOpts absent absent absent absent absent absent
                (present (Some 1700000001)) in
  ∃ snap,
    woutcome (wrun WReference.wenv (loadAtTime (fun i => i) [] idC opts)
                WExamples.w_anchored) = WOk snap
    ∧ entry_cid <$> log (snapshot_state snap) = ["cidC"; "cidC1"].
Proof. eexists. vm_compute. done. Qed.
